(** * MemoCache: a two-tier (memory + disk) read-through cache

    Shallow embedding of [src/utils/cache/base.py] (class [MemoCache]) and
    the properties of its read path, write-through path, [clear] and
    disk-path derivation.

    Conventions of the embedding:
    - Python exceptions are values of type [exn]; a computation is a
      function from the world to a result and a new world (the monad [M]).
      State changes made before an exception is raised persist, as in
      Python.
    - The world holds the [TTLCache] object of the instance, the monotonic
      clock, the file system (files and directories) and a trace of the
      externally visible operations (lock, memory tier, disk, Source).
    - The collaborators that are not part of the repository (pickle, the
      Source's [query], I/O faults of the operating system) are fields of
      the environment record [Env]. *)

From Stdlib Require Import ZArith List Lia Bool.
From Stdlib Require Import Strings.String Strings.Ascii Strings.Byte.
From stdpp Require Import base gmap strings list fin_maps.

Local Open Scope string_scope.
Local Open Scope Z_scope.
Local Open Scope list_scope.

(** Python [bytes]. *)
Abbreviation bytes := (list Byte.byte).

(* ===================================================================== *)
(** ** Exceptions and results *)
(* ===================================================================== *)

(** Exceptions raised by code outside [MemoCache]: the Python runtime,
    [pickle], [os], [cachetools], [streamlit.util] and the Source. *)
Inductive py_exn : Type :=
| PicklingError
| UnpicklingError
| FileNotFoundError
| OSError                     (* also [IOError], its alias in Python 3 *)
| UtilError                   (* [streamlit.util.Error] *)
| ValueError
| EOFError
| KeyError
| OtherError (name : string). (* any other [BaseException] *)

(** The two exception classes of [streamlit.caching.cache_errors], and the
    foreign ones. *)
Inductive exn : Type :=
| CacheKeyNotFoundError (msg : string)
| CacheError (msg : string)
| PyExn (e : py_exn).

Inductive result (A : Type) : Type :=
| Ok (a : A)
| Raise (e : exn).
Arguments Ok {A} a.
Arguments Raise {A} e.

(** [except (FileNotFoundError, IOError, OSError)] *)
Definition is_OSError (e : py_exn) : bool :=
  match e with
  | FileNotFoundError | OSError => true
  | _ => false
  end.

(* ===================================================================== *)
(** ** The memory tier: [cachetools.TTLCache] *)
(* ===================================================================== *)

(** Model of the external class [cachetools.TTLCache] (not part of the
    repository), restricted to the operations [MemoCache] uses:
    [__contains__], [__getitem__], [__setitem__], [keys] and [clear].
    Entries are kept in least-recently-used order (front = oldest use).
    Times are integer ticks of the monotonic clock; [None] stands for
    [math.inf] both for [ttl] and [maxsize]. Every entry counts 1 towards
    [maxsize] ([getsizeof] is the default). *)
Module TTLCache.

Record entry : Type := Entry {
  key : string;
  value : bytes;
  expires : option Z;          (* [None]: never *)
}.

Record t : Type := Make {
  maxsize : option nat;
  ttl : option Z;
  links : list entry;
}.

(** [time < link.expires] *)
Definition fresh (time : Z) (e : entry) : bool :=
  match expires e with
  | Some x => (time <? x)%Z
  | None => true
  end.

Fixpoint getlink (k : string) (l : list entry) : option entry :=
  match l with
  | [] => None
  | e :: l' => if String.eqb (key e) k then Some e else getlink k l'
  end.

Definition unlink (k : string) (l : list entry) : list entry :=
  List.filter (fun e => negb (String.eqb (key e) k)) l.

(** [key in cache]: no reordering, expired entries are not members. *)
Definition contains (c : t) (time : Z) (k : string) : bool :=
  match getlink k (links c) with
  | Some e => fresh time e
  | None => false
  end.

(** [__getlink]: the entry becomes the most recently used one. *)
Definition touch (c : t) (k : string) : t :=
  match getlink k (links c) with
  | Some e => Make (maxsize c) (ttl c) (unlink k (links c) ++ [e])
  | None => c
  end.

(** [cache[key]]: [None] is [KeyError]; a hit moves the entry to the
    most-recently-used end. *)
Definition getitem (c : t) (time : Z) (k : string) : option (bytes * t) :=
  match getlink k (links c) with
  | Some e => if fresh time e then Some (value e, touch c k) else None
  | None => None
  end.

(** [expire(time)]: drop the entries whose time has come. *)
Definition expire (time : Z) (l : list entry) : list entry :=
  List.filter (fresh time) l.

(** [while currsize + size > maxsize: popitem()] with [size = 1]:
    pops least-recently-used entries. *)
Fixpoint popitems (m : nat) (l : list entry) : list entry :=
  match l with
  | [] => []
  | _ :: l' => if (m <? length l + 1)%nat then popitems m l' else l
  end.

Definition expiry (c : t) (time : Z) : option Z :=
  match ttl c with
  | Some d => Some (time + d)
  | None => None
  end.

(** [cache[key] = value]. Expired entries are purged first, also when
    the assignment then fails with [ValueError("value too large")]. *)
Definition setitem (c : t) (time : Z) (k : string) (v : bytes)
  : option py_exn * t :=
  let l := expire time (links c) in
  let too_large := match maxsize c with
                   | Some m => (m <? 1)%nat
                   | None => false
                   end in
  if too_large then (Some ValueError, Make (maxsize c) (ttl c) l)
  else
    let l1 := match getlink k l, maxsize c with
              | None, Some m => popitems m l
              | _, _ => l
              end in
    (None,
     Make (maxsize c) (ttl c)
          (unlink k l1 ++ [Entry k v (expiry c time)])).

(** [cache.keys()]: the keys that have not expired. *)
Definition keys (c : t) (time : Z) : list string :=
  List.map key (List.filter (fresh time) (links c)).

(** [cache.clear()] *)
Definition clear (c : t) : t := Make (maxsize c) (ttl c) [].

(** What a lookup at [time] sees. *)
Definition lookup (c : t) (time : Z) (k : string) : option bytes :=
  match getlink k (links c) with
  | Some e => if fresh time e then Some (value e) else None
  | None => None
  end.

(** Keys are unique, as in a dictionary. *)
Definition wf (c : t) : Prop := List.NoDup (List.map key (links c)).

(** An assignment succeeds unless the cache admits no entry at all. *)
Definition admits (c : t) : bool :=
  match maxsize c with
  | Some m => negb (m <? 1)%nat
  | None => true
  end.

End TTLCache.

(* ===================================================================== *)
(** ** Paths: [str.split], [os.path.join], [os.path.abspath] *)
(* ===================================================================== *)

Definition sep : ascii := "/"%char.

(** [value_key.split(":", 1)] when it yields two parts. *)
Fixpoint split_colon (s : string) : option (string * string) :=
  match s with
  | EmptyString => None
  | String c r =>
      if Ascii.eqb c ":"%char then Some (EmptyString, r)
      else match split_colon r with
           | Some (a, b) => Some (String c a, b)
           | None => None
           end
  end.

Definition startswith_sep (s : string) : bool :=
  match s with
  | String c _ => Ascii.eqb c sep
  | EmptyString => false
  end.

Fixpoint endswith_sep (s : string) : bool :=
  match s with
  | EmptyString => false
  | String c EmptyString => Ascii.eqb c sep
  | String _ r => endswith_sep r
  end.

Definition is_empty (s : string) : bool :=
  match s with EmptyString => true | _ => false end.

(** [posixpath.join(a, b)] *)
Definition path_join (a b : string) : string :=
  if startswith_sep b then b
  else if is_empty a || endswith_sep a then a +:+ b
  else a +:+ String sep b.

(** [path.split("/")] *)
Fixpoint split_sep (s : string) : list string :=
  match s with
  | EmptyString => [EmptyString]
  | String c r =>
      if Ascii.eqb c sep then EmptyString :: split_sep r
      else match split_sep r with
           | x :: xs => String c x :: xs
           | [] => [String c EmptyString]
           end
  end.

(** ["/".join(comps)] *)
Fixpoint join_sep (comps : list string) : string :=
  match comps with
  | [] => EmptyString
  | [x] => x
  | x :: xs => x +:+ String sep (join_sep xs)
  end.

(** One iteration of the component loop of [posixpath.normpath]. *)
Definition norm_step (initial_slashes : nat) (new_comps : list string)
    (comp : string) : list string :=
  if is_empty comp || String.eqb comp "." then new_comps
  else if negb (String.eqb comp "..")
          || (Nat.eqb initial_slashes 0 && Nat.eqb (length new_comps) 0)
          || match last new_comps with
             | Some x => String.eqb x ".."
             | None => false
             end
  then new_comps ++ [comp]
  else removelast new_comps.

(** [path[i] == "/"], false beyond the end. *)
Definition char_is_sep (i : nat) (path : string) : bool :=
  match String.get i path with
  | Some c => Ascii.eqb c sep
  | None => false
  end.

(** [initial_slashes] of [posixpath.normpath]: 0, 1, or 2 when the path
    starts with exactly two slashes. *)
Definition initial_slashes_of (path : string) : nat :=
  if char_is_sep 0 path
  then if char_is_sep 1 path && negb (char_is_sep 2 path) then 2%nat else 1%nat
  else 0%nat.

Fixpoint slashes (n : nat) : string :=
  match n with
  | O => EmptyString
  | S n' => String sep (slashes n')
  end.

(** [posixpath.normpath(path)] *)
Definition normpath (path : string) : string :=
  if is_empty path then "."
  else
    let n := initial_slashes_of path in
    let comps := fold_left (norm_step n) (split_sep path) [] in
    let p := slashes n +:+ join_sep comps in
    if is_empty p then "." else p.

(** [posixpath.abspath(path)] with the current directory [cwd]. *)
Definition abspath (cwd path : string) : string :=
  if startswith_sep path then normpath path
  else normpath (path_join cwd path).

(* ===================================================================== *)
(** ** The world and the monad of cache operations *)
(* ===================================================================== *)

Inductive log_level : Type := Debug | Error | Exception.

(** Externally visible operations, in the order they happen. *)
Inductive event : Type :=
| EvAcquire                       (* [self._mem_cache_lock] taken *)
| EvRelease                       (* ... and released *)
| EvMemContains (key : string)
| EvMemGet (key : string)
| EvMemSet (key : string)
| EvMemKeys
| EvMemClear
| EvMakedirs (dir : string)
| EvDiskRead (path : string)
| EvDiskWrite (path : string)
| EvDiskRemove (path : string)
| EvQuery (key : string)
| EvLog (level : log_level).

Record World : Type := mkWorld {
  mem : TTLCache.t;               (* [self._mem_cache] *)
  now : Z;                        (* [time.monotonic()] *)
  files : gmap string bytes;      (* regular files, by absolute path *)
  dirs : gset string;             (* directories, by absolute path *)
  trace : list event;
}.

Definition M (A : Type) : Type := World -> result A * World.

Definition ret {A} (a : A) : M A := fun w => (Ok a, w).

Definition raise {A} (e : exn) : M A := fun w => (Raise e, w).

Definition bind {A B} (m : M A) (k : A -> M B) : M B :=
  fun w =>
    match m w with
    | (Ok a, w') => k a w'
    | (Raise e, w') => (Raise e, w')
    end.

Declare Scope cache_scope.
Delimit Scope cache_scope with cache.
Notation "'let*' x ':=' m 'in' k" := (bind m (fun x => k))
  (at level 10, x name, m at level 100, k at level 200) : cache_scope.
Local Open Scope cache_scope.

(** [try: body  except ...: handler]. The handler answers [None] for an
    exception no [except] clause matches, which then propagates. *)
Definition try_except {A} (body : M A) (handler : exn -> option (M A)) : M A :=
  fun w =>
    match body w with
    | (Ok a, w') => (Ok a, w')
    | (Raise e, w') =>
        match handler e with
        | Some h => h w'
        | None => (Raise e, w')
        end
    end.

Definition record (ev : event) (w : World) : World :=
  mkWorld (mem w) (now w) (files w) (dirs w) (trace w ++ [ev]).

Definition emit (ev : event) : M unit := fun w => (Ok tt, record ev w).

Definition log (level : log_level) : M unit := emit (EvLog level).

(** [with self._mem_cache_lock: body]: released on every exit. *)
Definition with_lock {A} (body : M A) : M A :=
  fun w =>
    match (let* _ := emit EvAcquire in body) w with
    | (r, w') => (r, record EvRelease w')
    end.

(** [for x in xs: body(x)] *)
Fixpoint for_each {A} (xs : list A) (body : A -> M unit) : M unit :=
  match xs with
  | [] => ret tt
  | x :: xs' => let* _ := body x in for_each xs' body
  end.

(** Time passing between two operations. *)
Definition advance (dt : Z) (w : World) : World :=
  mkWorld (mem w) (now w + dt) (files w) (dirs w) (trace w).

(** *** Memory-tier primitives *)

Definition set_mem (c : TTLCache.t) (w : World) : World :=
  mkWorld c (now w) (files w) (dirs w) (trace w).

Definition mem_contains (key : string) : M bool :=
  let* _ := emit (EvMemContains key) in
  fun w => (Ok (TTLCache.contains (mem w) (now w) key), w).

Definition mem_getitem (key : string) : M bytes :=
  let* _ := emit (EvMemGet key) in
  fun w =>
    match TTLCache.getitem (mem w) (now w) key with
    | Some (v, c) => (Ok v, set_mem c w)
    | None => (Raise (PyExn KeyError), w)
    end.

Definition mem_setitem (key : string) (v : bytes) : M unit :=
  let* _ := emit (EvMemSet key) in
  fun w =>
    match TTLCache.setitem (mem w) (now w) key v with
    | (None, c) => (Ok tt, set_mem c w)
    | (Some e, c) => (Raise (PyExn e), set_mem c w)
    end.

Definition mem_keys : M (list string) :=
  let* _ := emit EvMemKeys in
  fun w => (Ok (TTLCache.keys (mem w) (now w)), w).

Definition mem_clear : M unit :=
  let* _ := emit EvMemClear in
  fun w => (Ok tt, set_mem (TTLCache.clear (mem w)) w).

(* ===================================================================== *)
(** ** The environment of a cache instance *)
(* ===================================================================== *)

Inductive outcome (A : Type) : Type :=
| Returns (a : A)
| Throws (e : py_exn).
Arguments Returns {A} a.
Arguments Throws {A} e.

Definition lift {A} (o : outcome A) : M A :=
  match o with
  | Returns a => ret a
  | Throws e => raise (PyExn e)
  end.

(** A failed [with streamlit_write(path, binary=True) as output:
    output.write(b)]: the exception the [with] statement ends with
    ([streamlit_write] turns every [OSError] into [util.Error]) and what it
    leaves at [path]: [Some b'] a file holding [b'] (empty or truncated),
    [None] the path as it was. *)
Record write_failure : Type := WriteFailure {
  wf_exn : py_exn;
  wf_left : option bytes;
}.

Record Env (V : Type) : Type := mkEnv {
  cache_name : string;                       (* class attribute *)
  persist : option string;                   (* [self.persist] *)
  query : string -> outcome V;               (* the Source, [self.query] *)
  pickle_dumps : V -> outcome bytes;
  pickle_loads : bytes -> outcome V;
  CACHE_PATH : option string;                (* [os.environ.get] *)
  cwd : string;                              (* [os.getcwd()] *)
  read_fault : string -> option py_exn;      (* reading an existing file *)
  write_fault : string -> option write_failure;
  remove_fault : string -> option py_exn;    (* removing an existing file *)
}.
Arguments cache_name {V} _.
Arguments persist {V} _.
Arguments query {V} _ _.
Arguments pickle_dumps {V} _ _.
Arguments pickle_loads {V} _ _.
Arguments CACHE_PATH {V} _.
Arguments cwd {V} _.
Arguments read_fault {V} _ _.
Arguments write_fault {V} _ _.
Arguments remove_fault {V} _ _.

(* ===================================================================== *)
(** ** [class MemoCache] *)
(* ===================================================================== *)

Definition set_files (f : gmap string bytes) (w : World) : World :=
  mkWorld (mem w) (now w) f (dirs w) (trace w).

Definition set_dirs (d : gset string) (w : World) : World :=
  mkWorld (mem w) (now w) (files w) d (trace w).

Section MemoCache.
Context {V : Type} (self : Env V).

(** *** Operating-system and library calls *)

(** [os.path.exists(p)] *)
Definition os_path_exists (p : string) : M bool :=
  fun w =>
    let a := abspath (cwd self) p in
    (Ok (bool_decide (a ∈ dirs w) || bool_decide (is_Some (files w !! a))), w).

(** [os.makedirs(p)] *)
Definition os_makedirs (p : string) : M unit :=
  let* _ := emit (EvMakedirs p) in
  fun w => (Ok tt, set_dirs ({[abspath (cwd self) p]} ∪ dirs w) w).

(** [os.remove(path)] *)
Definition os_remove (path : string) : M unit :=
  let* _ := emit (EvDiskRemove path) in
  fun w =>
    match files w !! path with
    | None => (Raise (PyExn FileNotFoundError), w)
    | Some _ =>
        match remove_fault self path with
        | Some e => (Raise (PyExn e), w)
        | None => (Ok tt, set_files (delete path (files w)) w)
        end
    end.

(** What reading the file at [path] gives. *)
Definition disk_peek (path : string) (w : World) : outcome bytes :=
  match files w !! path with
  | None => Throws FileNotFoundError
  | Some b =>
      match read_fault self path with
      | Some e => Throws e
      | None => Returns b
      end
  end.

(** [with streamlit_read(path, binary=True) as f: f.read()] *)
Definition streamlit_read (path : string) : M bytes :=
  let* _ := emit (EvDiskRead path) in
  fun w => lift (disk_peek path w) w.

(** [with streamlit_write(path, binary=True) as out: out.write(b)] *)
Definition streamlit_write (path : string) (b : bytes) : M unit :=
  let* _ := emit (EvDiskWrite path) in
  fun w =>
    match write_fault self path with
    | None => (Ok tt, set_files (<[path := b]> (files w)) w)
    | Some f =>
        (Raise (PyExn (wf_exn f)),
         match wf_left f with
         | Some b' => set_files (<[path := b']> (files w)) w
         | None => w
         end)
    end.

(** [self.query(key)] *)
Definition call_query (key : string) : M V :=
  let* _ := emit (EvQuery key) in
  lift (query self key).

(** [self.persist == "disk"] *)
Definition persist_is_disk : bool :=
  match persist self with
  | Some s => String.eqb s "disk"
  | None => false
  end.

(** [f"{self.cache_name}:{key}"] *)
Definition namespaced (key : string) : string :=
  cache_name self +:+ String ":"%char key.

(** *** Methods *)

(** The path a key is stored at, when the key splits in two at a colon:
    the value [_get_file_path] returns. *)
Definition file_path (_dir file_name : string) : string :=
  let cache_dir := path_join (default "./cache" (CACHE_PATH self)) _dir in
  abspath (cwd self) (path_join cache_dir (file_name +:+ ".memo")).

Definition _get_file_path (value_key : string) : M string :=
  match split_colon value_key with
  | None => raise (PyExn ValueError)        (* the unpacking fails *)
  | Some (_dir, file_name) =>
      let cache_dir := path_join (default "./cache" (CACHE_PATH self)) _dir in
      let* present := os_path_exists cache_dir in
      let* _ := (if negb present then os_makedirs cache_dir else ret tt) in
      ret (abspath (cwd self) (path_join cache_dir (file_name +:+ ".memo")))
  end.

Definition _read_from_mem_cache (key : string) : M bytes :=
  with_lock
    (let* hit := mem_contains key in
     if hit then
       let* entry := mem_getitem key in
       let* _ := log Debug in
       ret entry
     else
       let* _ := log Debug in
       raise (CacheKeyNotFoundError "Key not found in mem cache")).

Definition _read_from_disk_cache (key : string) : M bytes :=
  let* path := _get_file_path key in
  try_except
    (let* value := streamlit_read path in
     let* _ := log Debug in
     ret value)
    (fun e =>
       match e with
       | PyExn FileNotFoundError =>
           Some (raise (CacheKeyNotFoundError "Key not found in disk cache"))
       | _ =>                                  (* [except BaseException] *)
           Some (let* _ := log Error in
                 raise (CacheError "Unable to read from cache"))
       end).

Definition _write_to_mem_cache (key : string) (pickled_value : bytes)
  : M unit :=
  with_lock (mem_setitem key pickled_value).

Definition _write_to_disk_cache (key : string) (pickled_value : bytes)
  : M unit :=
  let* path := _get_file_path key in
  try_except
    (streamlit_write path pickled_value)
    (fun e =>
       match e with
       | PyExn UtilError =>
           Some (let* _ := log Debug in
                 (* Clean up file so we don't leave zero byte files. *)
                 let* _ := try_except (os_remove path)
                             (fun e' =>
                                match e' with
                                | PyExn x =>
                                    if is_OSError x then Some (ret tt)
                                    else None
                                | _ => None
                                end) in
                 raise (CacheError "Unable to write to cache"))
       | _ => None
       end).

Definition _remove_from_disk_cache (key : string) : M unit :=
  let* path := _get_file_path key in
  try_except
    (os_remove path)
    (fun e =>
       match e with
       | PyExn FileNotFoundError => Some (ret tt)
       | _ => Some (log Exception)             (* [except BaseException] *)
       end).

Definition _write_value (key : string) (value : V) : M bytes :=
  let* pickled_value :=
    try_except
      (lift (pickle_dumps self value))
      (fun exc =>
         match exc with
         | PyExn PicklingError =>
             Some (raise (CacheError ("Failed to pickle " +:+ key)))
         | _ => None
         end) in
  let* _ := _write_to_mem_cache key pickled_value in
  let* _ := (if persist_is_disk
             then _write_to_disk_cache key pickled_value
             else ret tt) in
  ret pickled_value.

(** Lines 56-68 of [read_value]: the first [try] statement, which binds
    [pickled_value]. *)
Definition read_pickled (key : string) : M bytes :=
  try_except
    (_read_from_mem_cache key)
    (fun e =>
       match e with
       | CacheKeyNotFoundError _ =>
           Some (if persist_is_disk then
                   try_except
                     (let* pickled_value := _read_from_disk_cache key in
                      let* _ := _write_to_mem_cache key pickled_value in
                      ret pickled_value)
                     (fun e' =>
                        match e' with
                        | CacheKeyNotFoundError _ =>
                            Some (let* value := call_query key in
                                  _write_value key value)
                        | _ => None
                        end)
                 else raise e)
       | _ => None
       end).

Definition read_value (key : string) : M V :=
  let key := namespaced key in
  let* pickled_value := read_pickled key in
  try_except
    (lift (pickle_loads self pickled_value))
    (fun exc =>
       match exc with
       | PyExn UnpicklingError =>
           Some (raise (CacheError ("Failed to unpickle " +:+ key)))
       | _ => None
       end).

Definition clear : M unit :=
  with_lock
    (let* keys := mem_keys in
     let* _ := for_each keys _remove_from_disk_cache in
     mem_clear).

End MemoCache.

(* ===================================================================== *)
(** ** Vocabulary of the properties *)
(* ===================================================================== *)

(** The keys the Source was asked for, in order. *)
Fixpoint query_calls (tr : list event) : list string :=
  match tr with
  | [] => []
  | EvQuery k :: tr' => k :: query_calls tr'
  | _ :: tr' => query_calls tr'
  end.

(** Events of the disk tier. *)
Definition is_disk_event (ev : event) : bool :=
  match ev with
  | EvMakedirs _ | EvDiskRead _ | EvDiskWrite _ | EvDiskRemove _ => true
  | _ => false
  end.

(** The disk operations, in order. *)
Definition disk_ops (tr : list event) : list event :=
  List.filter is_disk_event tr.

(** [w'] is [w] after some more events. *)
Definition extends (w w' : World) : Prop :=
  exists t, trace w' = trace w ++ t.

(** Reading the same key again and again, [dt] ticks after the previous
    read for each [dt] of the list. *)
Fixpoint reread {V : Type} (self : Env V) (k : string) (dts : list Z)
    (w : World) : list (result V) * World :=
  match dts with
  | [] => ([], w)
  | dt :: dts' =>
      let (r, w1) := read_value self k (advance dt w) in
      let (rs, w2) := reread self k dts' w1 in
      (r :: rs, w2)
  end.

(** The time a sequence of delays takes. *)
Fixpoint total (dts : list Z) : Z :=
  match dts with
  | [] => 0
  | dt :: dts' => dt + total dts'
  end.

(** The paths [os.remove] was called on, in order. *)
Fixpoint removals (tr : list event) : list string :=
  match tr with
  | [] => []
  | EvDiskRemove p :: tr' => p :: removals tr'
  | _ :: tr' => removals tr'
  end.

(** Events of the memory lock and of the memory tier. *)
Definition is_lock_or_mem_event (ev : event) : bool :=
  match ev with
  | EvAcquire | EvRelease | EvMemContains _ | EvMemGet _ | EvMemSet _
  | EvMemKeys | EvMemClear => true
  | _ => false
  end.

(** ["/" in s] *)
Fixpoint has_sep (s : string) : bool :=
  match s with
  | EmptyString => false
  | String c r => Ascii.eqb c sep || has_sep r
  end.

(** A directory or file name that path normalisation leaves alone: not
    empty, without a slash, and neither ["."] nor [".."]. *)
Definition plain_name (s : string) : bool :=
  negb (is_empty s) && negb (has_sep s)
  && negb (String.eqb s ".") && negb (String.eqb s "..").

(** A namespaced key whose kind is a plain name and whose raw key has no
    slash. *)
Definition plain_key (key : string) : bool :=
  match split_colon key with
  | Some (_dir, file_name) => plain_name _dir && negb (has_sep file_name)
  | None => false
  end.

(** [a] made ready for a component to be appended, as [posixpath.join]
    does. *)
Definition with_sep (a : string) : string :=
  if is_empty a || endswith_sep a then a else a +:+ "/".

(** ["/".join(comps) + "/"], nothing for no component. *)
Definition dir_prefix (comps : list string) : string :=
  match comps with
  | [] => EmptyString
  | _ => join_sep comps +:+ "/"
  end.

Section Observations.
Context {V : Type} (self : Env V).
Implicit Types (w : World) (k : string).

(** The path [_get_file_path] answers for a key, if it splits. *)
Definition key_path (value_key : string) : option string :=
  match split_colon value_key with
  | Some (_dir, file_name) => Some (file_path self _dir file_name)
  | None => None
  end.

(** The world [_get_file_path] leaves: the cache directory exists. *)
Definition ensure_dir (value_key : string) (w : World) : World :=
  match split_colon value_key with
  | None => w
  | Some (_dir, _) =>
      let cache_dir :=
        path_join (default "./cache" (CACHE_PATH self)) _dir in
      let a := abspath (cwd self) cache_dir in
      if bool_decide (a ∈ dirs w) || bool_decide (is_Some (files w !! a))
      then w
      else set_dirs ({[a]} ∪ dirs w) (record (EvMakedirs cache_dir) w)
  end.

(** The events [_get_file_path] adds: at most one [os.makedirs]. *)
Definition dir_events (value_key : string) (w : World) : list event :=
  match split_colon value_key with
  | None => []
  | Some (_dir, _) =>
      let cache_dir :=
        path_join (default "./cache" (CACHE_PATH self)) _dir in
      let a := abspath (cwd self) cache_dir in
      if bool_decide (a ∈ dirs w) || bool_decide (is_Some (files w !! a))
      then []
      else [EvMakedirs cache_dir]
  end.

(** The world after [_read_from_mem_cache] finds [key]. *)
Definition after_mem_hit (key : string) (w : World) : World :=
  record EvRelease
    (record (EvLog Debug)
       (set_mem (TTLCache.touch (mem w) key)
          (record (EvMemGet key)
             (record (EvMemContains key) (record EvAcquire w))))).

(** The world after [_read_from_mem_cache] misses [key]. *)
Definition after_mem_miss (key : string) (w : World) : World :=
  record EvRelease
    (record (EvLog Debug)
       (record (EvMemContains key) (record EvAcquire w))).

(** The world after [_read_from_disk_cache] has opened the file. *)
Definition after_disk_read (key path : string) (w : World) : World :=
  record (EvDiskRead path) (ensure_dir key w).

(** The world after [_write_to_mem_cache] has left the memory tier [c]. *)
Definition after_mem_set (key : string) (c : TTLCache.t) (w : World)
  : World :=
  record EvRelease (set_mem c (record (EvMemSet key) (record EvAcquire w))).

(** The files after [os.remove(path)], whether it succeeds or not. *)
Definition remove_file (path : string) (f : gmap string bytes)
  : gmap string bytes :=
  match f !! path, remove_fault self path with
  | Some _, None => delete path f
  | _, _ => f
  end.

(** The world after [os.remove(path)]. *)
Definition after_remove (path : string) (w : World) : World :=
  set_files (remove_file path (files w)) (record (EvDiskRemove path) w).

(** The world after [_remove_from_disk_cache]: a failure other than an
    absent file is logged. *)
Definition after_remove_from_disk (key path : string) (w : World) : World :=
  let w1 := ensure_dir key w in
  match files w1 !! path, remove_fault self path with
  | Some _, Some FileNotFoundError => after_remove path w1
  | Some _, Some _ => record (EvLog Exception) (after_remove path w1)
  | _, _ => after_remove path w1
  end.

(** The world after a successful [_write_to_disk_cache]. *)
Definition after_write (key path : string) (b : bytes) (w : World)
  : World :=
  set_files (<[path := b]> (files w))
    (record (EvDiskWrite path) (ensure_dir key w)).

(** The world a failed [streamlit_write] leaves, before any clean-up. *)
Definition after_failed_write (key path : string) (f : write_failure)
    (w : World) : World :=
  let w1 := record (EvDiskWrite path) (ensure_dir key w) in
  match wf_left f with
  | Some b' => set_files (<[path := b']> (files w)) w1
  | None => w1
  end.

(** The clean-up of a failed write: log, then [os.remove]. *)
Definition after_cleanup (path : string) (w : World) : World :=
  after_remove path (record (EvLog Debug) w).

(** What [read_value] raises when [pickle.loads] raises [e]. *)
Definition unpickle_error (key : string) (e : py_exn) : exn :=
  match e with
  | UnpicklingError => CacheError ("Failed to unpickle " +:+ key)
  | _ => PyExn e
  end.

(** The deserialisation step of [read_value] on the bytes obtained. *)
Definition unpickle (key : string) (b : bytes) : result V :=
  match pickle_loads self b with
  | Returns v => Ok v
  | Throws e => Raise (unpickle_error key e)
  end.



(** The world after the loop of [clear] over [keys]. *)
Fixpoint after_removals (keys : list string) (w : World) : World :=
  match keys with
  | [] => w
  | k :: keys' =>
      match key_path k with
      | Some p => after_removals keys' (after_remove_from_disk k p w)
      | None => w
      end
  end.

(** The condition under which the Source's value fails to pickle. *)
Definition pickling_fails w k : Prop :=
  let nk := namespaced self k in
  TTLCache.lookup (mem w) (now w) nk = None
  /\ persist_is_disk self = true
  /\ (exists p, key_path nk = Some p
                /\ disk_peek self p w = Throws FileNotFoundError)
  /\ exists v, query self nk = Returns v
               /\ pickle_dumps self v = Throws PicklingError.

(** The text every path handed to [normpath] starts with: the root
    directory, made absolute, with a trailing slash. *)
Definition root_prefix : string :=
  let r := with_sep (default "./cache" (CACHE_PATH self)) in
  if startswith_sep r then r else with_sep (cwd self) +:+ r.

(** ["{root}/"], normalised: what every disk path of a plain key starts
    with. *)
Definition cache_root : string :=
  let n := initial_slashes_of (root_prefix +:+ "x") in
  let comps :=
    fold_left (norm_step n) (removelast (split_sep root_prefix)) [] in
  slashes n +:+ dir_prefix comps.

(** Every key of the memory tier has the form ["{kind}:{rawKey}"]. *)
Definition keys_namespaced w : Prop :=
  forall e, List.In e (TTLCache.links (mem w)) ->
            is_Some (key_path (TTLCache.key e)).

End Observations.

(* ===================================================================== *)
(** ** A concrete instance, for evaluating the definitions *)
(* ===================================================================== *)

Module Example.

(** Values a Source may return. *)
Inductive pyval : Type :=
| PyInt (n : Byte.byte)      (* a small integer *)
| PyLambda                   (* a function object: not picklable *)
| PyLock.                    (* a [threading.Lock]: not picklable *)

(** [pickle.dumps] at protocol 4 on these values. *)
Definition dumps (v : pyval) : outcome bytes :=
  match v with
  | PyInt n => Returns [x80; x04; x4b; n; x2e]
  | PyLambda => Throws PicklingError
  | PyLock => Throws (OtherError "TypeError")
  end.

Definition loads (b : bytes) : outcome pyval :=
  match b with
  | [x80; x04; x4b; n; x2e] => Returns (PyInt n)
  | [] => Throws EOFError
  | _ => Throws UnpicklingError
  end.

Definition no_fault {A} (path : string) : option A := None.

(** [S3QueryCache()] of [src/utils/cache/s3.py], with a Source that
    answers 7 for every key. *)
Definition s3_query : Env pyval :=
  {| cache_name := "S3Query";
     persist := Some "disk";
     query := fun _ => Returns (PyInt x07);
     pickle_dumps := dumps;
     pickle_loads := loads;
     CACHE_PATH := None;
     cwd := "/app";
     read_fault := no_fault;
     write_fault := no_fault;
     remove_fault := no_fault |}.

Definition with_persist (p : option string) (e : Env pyval) : Env pyval :=
  mkEnv pyval (cache_name e) p (query e) (pickle_dumps e) (pickle_loads e)
        (CACHE_PATH e) (cwd e) (read_fault e) (write_fault e) (remove_fault e).

Definition with_query (q : string -> outcome pyval) (e : Env pyval)
  : Env pyval :=
  mkEnv pyval (cache_name e) (persist e) q (pickle_dumps e) (pickle_loads e)
        (CACHE_PATH e) (cwd e) (read_fault e) (write_fault e) (remove_fault e).

Definition with_read_fault (f : string -> option py_exn) (e : Env pyval)
  : Env pyval :=
  mkEnv pyval (cache_name e) (persist e) (query e) (pickle_dumps e)
        (pickle_loads e) (CACHE_PATH e) (cwd e) f (write_fault e)
        (remove_fault e).

Definition with_write_fault (f : string -> option write_failure)
    (e : Env pyval) : Env pyval :=
  mkEnv pyval (cache_name e) (persist e) (query e) (pickle_dumps e)
        (pickle_loads e) (CACHE_PATH e) (cwd e) (read_fault e) f
        (remove_fault e).

Definition with_remove_fault (f : string -> option py_exn) (e : Env pyval)
  : Env pyval :=
  mkEnv pyval (cache_name e) (persist e) (query e) (pickle_dumps e)
        (pickle_loads e) (CACHE_PATH e) (cwd e) (read_fault e)
        (write_fault e) f.

(** [MemoCache()]: unbounded, never expiring, nothing cached yet. *)
Definition fresh_cache : TTLCache.t := TTLCache.Make None None [].

Definition empty_world : World := mkWorld fresh_cache 0 ∅ ∅ [].

(** [pickle.dumps(7)] and the file of the key ["foo"]. *)
Definition seven : bytes := [x80; x04; x4b; x07; x2e].
Definition foo_path : string := "/app/cache/S3Query/foo.memo".
Definition foo_dir : string := "/app/cache/S3Query".

(** ["foo"] cached in both tiers. *)
Definition cached_world : World :=
  mkWorld
    (TTLCache.Make None None [TTLCache.Entry "S3Query:foo" seven None])
    0 {[foo_path := seven]} {[foo_dir]} [].

(** ["foo"] on disk only, as after a restart. *)
Definition disk_world : World :=
  mkWorld fresh_cache 0 {[foo_path := seven]} {[foo_dir]} [].

(** [MemoCache(ttl=10, max_entries=2)], nothing cached yet. *)
Definition bounded_world : World :=
  mkWorld (TTLCache.Make (Some 2%nat) (Some 10) []) 0 ∅ ∅ [].

(** The same cache with a damaged file for ["foo"]. *)
Definition corrupt_world : World :=
  mkWorld (TTLCache.Make (Some 2%nat) (Some 10) []) 0
          {[foo_path := [x00]]} {[foo_dir]} [].

End Example.


(* ===================================================================== *)
(** ** Instances, their configuration, and sequences of calls *)
(* ===================================================================== *)

(** [MemoCache.__init__]: [self._mem_cache = TTLCache(maxsize=max_entries,
    ttl=ttl, timer=_TTL_CACHE_TIMER)], in the world the instance is made
    in. ([self.persist] is the field [persist] of the environment.) *)
Definition init (ttl : option Z) (max_entries : option nat) (w : World)
  : World :=
  set_mem (TTLCache.Make max_entries ttl []) w.

(** The property [max_entries]: [self._mem_cache.maxsize]. *)
Definition max_entries (w : World) : option nat := TTLCache.maxsize (mem w).

(** The property [ttl]: [self._mem_cache.ttl]. *)
Definition ttl (w : World) : option Z := TTLCache.ttl (mem w).

(** [class S3QueryCache(MemoCache)] of [src/utils/cache/s3.py]: the kind
    is ["S3Query"], [persist] keeps its default ["disk"], and [query]
    answers the same table [df] for every key. The collaborators that are
    not the cache's (pickle, the operating system) are those of [os]. *)
Definition S3QueryCache {V : Type} (df : V) (os : Env V) : Env V :=
  mkEnv V "S3Query" (Some "disk") (fun _ => Returns df)
        (pickle_dumps os) (pickle_loads os) (CACHE_PATH os) (cwd os)
        (read_fault os) (write_fault os) (remove_fault os).

(** What a user of an instance does, one call after the other. *)
Inductive call : Type :=
| CallRead (key : string)        (* [cache.read_value(key)] *)
| CallClear                      (* [cache.clear()] *)
| Wait (dt : Z).                 (* time passes *)

(** The world after a call, whether it returned or raised. *)
Definition perform {V : Type} (self : Env V) (c : call) (w : World) : World :=
  match c with
  | CallRead k => snd (read_value self k w)
  | CallClear => snd (clear self w)
  | Wait dt => advance dt w
  end.

Fixpoint session {V : Type} (self : Env V) (cs : list call) (w : World)
  : World :=
  match cs with
  | [] => w
  | c :: cs' => session self cs' (perform self c w)
  end.

(** The lock discipline of [read_value]: the memory tier is used only
    while [_mem_cache_lock] is held, the disk and the Source only while it
    is not. [lock_run held tr] follows the lock through [tr] and answers
    [None] when an event breaks the discipline. *)
Fixpoint lock_run (held : bool) (tr : list event) : option bool :=
  match tr with
  | [] => Some held
  | ev :: tr' =>
      match ev with
      | EvAcquire => if held then None else lock_run true tr'
      | EvRelease => if held then lock_run false tr' else None
      | EvMemContains _ | EvMemGet _ | EvMemSet _ | EvMemKeys | EvMemClear =>
          if held then lock_run held tr' else None
      | EvMakedirs _ | EvDiskRead _ | EvDiskWrite _ | EvDiskRemove _
      | EvQuery _ =>
          if held then None else lock_run held tr'
      | EvLog _ => lock_run held tr'
      end
  end.

(** From [w] to [w'] the lock discipline was kept, and the lock is free
    again. *)
Definition unlocked_run (w w' : World) : Prop :=
  exists t, trace w' = trace w ++ t /\ lock_run false t = Some false.

(* ===================================================================== *)
(** ** [src/utils/multipage.py]: pages and the navigation bar *)
(* ===================================================================== *)

(** The embedding of [multipage.py]. A computation runs in a process
    (the loaded modules, and what has been drawn and run so far) on a
    [MultiApp] object; the browser (which buttons were clicked, what the
    select box holds) and the [pages] directory are parameters. *)
Module Multipage.

Inductive error : Type :=
| IndexError
| ZeroDivisionError
| ModuleNotFoundError (module : string).

(** What a script run does, in order. *)
Inductive action : Type :=
| Markdown (title : string)      (* the [<h1>] heading with that title *)
| Text (body : string)
| Warning (body : string)
| Columns (n : nat)
| Button (label : string)
| Selectbox (label : string) (options : list string)
| Write (body : string)
| Import (module : string)       (* [importlib.import_module], first time *)
| Reload (module : string).      (* [importlib.reload] *)

Record Process : Type := mkProcess {
  sys_modules : gset string;     (* the pages [sys.modules] holds *)
  done : list action;
}.

(** The user and the file system, as a script run meets them. *)
Record Browser : Type := mkBrowser {
  button : string -> bool;                      (* clicked in this run? *)
  selectbox : list string -> option string;     (* the selected option *)
  page_exists : string -> bool;                 (* is there such a module? *)
}.

Inductive answer (A : Type) : Type :=
| Done (a : A)
| Fails (e : error).
Arguments Done {A} a.
Arguments Fails {A} e.

(** Computations on a process. *)
Definition P (A : Type) : Type := Process -> answer A * Process.

(** [@dataclass class App] *)
Record App : Type := mkApp {
  name : string;
  func : string -> P unit;
}.

(** [@dataclass class MultiApp] *)
Record MultiApp : Type := mkMultiApp {
  navbar_name : string;
  navbar_style : string;
  horizontal_max_button_size : Z;
  navbar_extra : option (P unit);
  current_app : App;
}.

(** Computations on a [MultiApp] object in a process. *)
Definition R (A : Type) : Type :=
  MultiApp * Process -> answer A * (MultiApp * Process).

Definition ret {A} (a : A) : R A := fun s => (Done a, s).

Definition raise {A} (e : error) : R A := fun s => (Fails e, s).

Definition bind {A B} (m : R A) (k : A -> R B) : R B :=
  fun s =>
    match m s with
    | (Done a, s') => k a s'
    | (Fails e, s') => (Fails e, s')
    end.

Declare Scope page_scope.
Delimit Scope page_scope with page.
Notation "'do' x '<-' m 'in' k" := (bind m (fun x => k))
  (at level 10, x name, m at level 100, k at level 200) : page_scope.
Local Open Scope page_scope.

(** A computation on the process, run from a method. *)
Definition lift {A} (m : P A) : R A :=
  fun s =>
    match m (snd s) with
    | (r, p') => (r, (fst s, p'))
    end.

Definition perform (a : action) : P unit :=
  fun p => (Done tt, mkProcess (sys_modules p) (done p ++ [a])).

Definition set_navbar_style (style : string) : R unit :=
  fun s =>
    let self := fst s in
    (Done tt,
     (mkMultiApp (navbar_name self) style (horizontal_max_button_size self)
                 (navbar_extra self) (current_app self), snd s)).

Definition set_current_app (app : App) : R unit :=
  fun s =>
    let self := fst s in
    (Done tt,
     (mkMultiApp (navbar_name self) (navbar_style self)
                 (horizontal_max_button_size self) (navbar_extra self) app,
      snd s)).

Definition get_self : R MultiApp := fun s => (Done (fst s), s).

(** [for x in xs: body(x)] *)
Fixpoint for_each {A} (xs : list A) (body : A -> R unit) : R unit :=
  match xs with
  | [] => ret tt
  | x :: xs' => do _ <- body x in for_each xs' body
  end.

Section Pages.
Context (browser : Browser).

(** [f"pages.{app_name}"] *)
Definition module_of (app_name : string) : string := "pages." +:+ app_name.

(** [import_page(app_name)]. The page's own code is taken to run to its
    end; [importlib.import_module] and [importlib.reload] both raise
    [ModuleNotFoundError] when the module is not to be found. *)
Definition import_page (app_name : string) : P unit :=
  fun p =>
    let m := module_of app_name in
    if negb (bool_decide (m ∈ sys_modules p)) then
      (* [importlib.import_module]: runs the module and registers it *)
      if page_exists browser m
      then (Done tt, mkProcess ({[m]} ∪ sys_modules p) (done p ++ [Import m]))
      else (Fails (ModuleNotFoundError m), p)
    else
      (* [importlib.reload(importlib.import_module(...))] *)
      if page_exists browser m
      then perform (Reload m) p
      else (Fails (ModuleNotFoundError m), p).

(** [name[:-3]] *)
Definition drop_last3 (s : string) : string :=
  String.substring 0 (String.length s - 3) s.

(** [application_detection()], on the listing of [PAGE_DIR]. *)
Definition application_detection (listdir : list string) : list string :=
  List.filter (fun page_path => negb (String.prefix "__" page_path)) listdir.

(** [apps = [App(name=name[:-3], func=import_page) for name in
    page_path_list]] *)
Definition apps (listdir : list string) : list App :=
  List.map (fun name => mkApp (drop_last3 name) import_page)
           (application_detection listdir).

(** [app_list[-1].append(app)]; [None] is the [IndexError] of an empty
    [app_list]. *)
Fixpoint append_to_last {A} (app : A) (app_list : list (list A))
  : option (list (list A)) :=
  match app_list with
  | [] => None
  | [g] => Some [g ++ [app]]
  | g :: rest =>
      match append_to_last app rest with
      | Some rest' => Some (g :: rest')
      | None => None
      end
  end.

(** The loop of [_render_navbar] that groups the apps in rows:
    [for i, app in enumerate(apps): ...], from index [i] on. *)
Fixpoint group_apps {A} (size : Z) (i : Z) (apps : list A)
    (app_list : list (list A)) : answer (list (list A)) :=
  match apps with
  | [] => Done app_list
  | app :: rest =>
      if size =? 0 then Fails ZeroDivisionError        (* [i % 0] *)
      else
        let app_list1 :=
          if i mod size =? 0 then app_list ++ [[]] else app_list in
        match append_to_last app app_list1 with
        | Some app_list2 => group_apps size (i + 1) rest app_list2
        | None => Fails IndexError
        end
  end.

(** [MultiApp._change_page(app)] *)
Definition _change_page (app : App) : R unit := lift (func app (name app)).

(** One row of buttons: [columns = sidebar.columns(len(app_group))] and
    the loop over [zip(app_group, columns)]. *)
Definition render_row (app_group : list App) : R unit :=
  do _ <- lift (perform (Columns (length app_group))) in
  for_each app_group
    (fun app =>
       do _ <- lift (perform (Button (name app))) in
       if button browser (name app) then set_current_app app else ret tt).

(** [MultiApp._render_navbar(self, sidebar)], with the global [apps], in
    the order of its statements: the heading (lines 54-58), *)
Definition navbar_heading : R unit :=
  do self <- get_self in
  do _ <- lift (perform (Markdown (navbar_name self))) in
  lift (perform (Text (String (ascii_of_nat 10) EmptyString))).

(** the check of the style (lines 60-64), *)
Definition possible_styles : list string := ["Button"; "SelectBox"].

Definition navbar_check_style : R unit :=
  do self <- get_self in
  if negb (existsb (String.eqb (navbar_style self)) possible_styles)
  then
    do _ <- lift (perform (Warning "Invalid Navbar Style - Using Button")) in
    set_navbar_style "HorizontalButton"
  else ret tt.

(** the rows of buttons (lines 67-76), *)
Definition navbar_buttons (apps : list App) : R unit :=
  do self <- get_self in
  match group_apps (horizontal_max_button_size self) 0 apps [] with
  | Fails e => raise e
  | Done app_list => for_each app_list render_row
  end.

(** the select box (lines 78-80), *)
Definition navbar_selectbox (apps : list App) : R unit :=
  let app_names := List.map name apps in
  do _ <- lift (perform (Selectbox EmptyString app_names)) in
  let app_name := selectbox browser app_names in
  match List.filter
          (fun app =>
             match app_name with
             | Some n => String.eqb (name app) n
             | None => false
             end) apps with
  | app :: _ => set_current_app app
  | [] => raise IndexError          (* [...][0] *)
  end.

(** and the end: the extra, the rule and the page (lines 82-86). *)
Definition navbar_finish : R unit :=
  do self <- get_self in
  do _ <- (match navbar_extra self with
           | Some extra => lift extra
           | None => ret tt
           end) in
  do _ <- lift (perform (Write "---")) in
  do self <- get_self in
  _change_page (current_app self).

(** Lines 54-80: all that comes before the extra. *)
Definition navbar_choose (apps : list App) : R unit :=
  do _ <- navbar_heading in
  do _ <- navbar_check_style in
  do self <- get_self in
  if String.eqb (navbar_style self) "Button"
  then navbar_buttons apps
  else navbar_selectbox apps.

Definition _render_navbar (apps : list App) : R unit :=
  do _ <- navbar_choose apps in
  navbar_finish.

(** [MultiApp.run(self)] *)
Definition run (apps : list App) : R unit := _render_navbar apps.

(** [multi_app = MultiApp(horizontal_max_button_size=2)], with the class
    defaults: [NAVBAR_STYLE] is the environment variable, and
    [current_app = apps[0]] raises [IndexError] when there is no page.
    ([HORIZONTAL_MAX_BUTTON_SIZE] is taken to hold an integer.) *)
Definition multi_app (NAVBAR_STYLE : option string) (apps : list App)
  : answer MultiApp :=
  match apps with
  | [] => Fails IndexError
  | app :: _ =>
      Done (mkMultiApp "Navigation"
                       (match NAVBAR_STYLE with
                        | Some style => style
                        | None => "SelectBox"
                        end)
                       2 None app)
  end.

End Pages.

(** The app a row of buttons leaves selected: the last one clicked. *)
Definition last_clicked (browser : Browser) (apps : list App) (cur : App)
  : App :=
  fold_left (fun cur app => if button browser (name app) then app else cur)
            apps cur.

(** A script run for the examples: the buttons clicked, the option the
    select box holds, and the modules that are to be found. *)
Definition a_browser (clicked : list string) (selected : option string)
    (modules : list string) : Browser :=
  mkBrowser (fun label => existsb (String.eqb label) clicked)
            (fun _ => selected)
            (fun module => existsb (String.eqb module) modules).

(** A process that has loaded no page and run nothing. *)
Definition new_process : Process := mkProcess ∅ [].

End Multipage.


(* ===================================================================== *)
(** ** Facts about the memory tier *)
(* ===================================================================== *)

Module TTLCacheFacts.
Import TTLCache.

Lemma getlink_key k l e : getlink k l = Some e -> key e = k.
Proof.
  induction l as [|x l IH]; simpl; [discriminate|].
  destruct (String.eqb (key x) k) eqn:E; [|exact IH].
  intros [= <-]. now apply String.eqb_eq.
Qed.

Lemma getlink_unlink_same k l : getlink k (unlink k l) = None.
Proof.
  induction l as [|x l IH]; simpl; [reflexivity|].
  destruct (String.eqb (key x) k) eqn:E; simpl; [exact IH|].
  now rewrite E.
Qed.

Lemma getlink_unlink_other k k' l :
  k' <> k -> getlink k' (unlink k l) = getlink k' l.
Proof.
  intros Hne. induction l as [|x l IH]; simpl; [reflexivity|].
  destruct (String.eqb (key x) k) eqn:E; simpl.
  - apply String.eqb_eq in E.
    destruct (String.eqb (key x) k') eqn:E'; [|exact IH].
    apply String.eqb_eq in E'. congruence.
  - now rewrite IH.
Qed.

Lemma getlink_app k l1 l2 :
  getlink k (l1 ++ l2) =
  match getlink k l1 with Some e => Some e | None => getlink k l2 end.
Proof.
  induction l1 as [|x l1 IH]; simpl; [reflexivity|].
  now destruct (String.eqb (key x) k).
Qed.

(** Moving an entry to the most-recently-used end changes no binding. *)
Lemma getlink_touch c k k' :
  getlink k' (links (touch c k)) = getlink k' (links c).
Proof.
  unfold touch. destruct (getlink k (links c)) as [e|] eqn:E; [|reflexivity].
  simpl. rewrite getlink_app.
  destruct (String.eqb k' k) eqn:Ek.
  - apply String.eqb_eq in Ek. subst k'.
    rewrite getlink_unlink_same. simpl.
    rewrite (getlink_key _ _ _ E), String.eqb_refl. now rewrite E.
  - apply String.eqb_neq in Ek.
    rewrite getlink_unlink_other by exact Ek.
    destruct (getlink k' (links c)); [reflexivity|]. simpl.
    rewrite (getlink_key _ _ _ E).
    destruct (String.eqb k k') eqn:E2; [|reflexivity].
    apply String.eqb_eq in E2. congruence.
Qed.

Lemma lookup_touch c k time k' :
  lookup (touch c k) time k' = lookup c time k'.
Proof. unfold lookup. now rewrite getlink_touch. Qed.

Lemma contains_lookup c time k :
  contains c time k = bool_decide (is_Some (lookup c time k)).
Proof.
  unfold contains, lookup.
  destruct (getlink k (links c)) as [e|]; [destruct (fresh time e)|];
    symmetry.
  - apply bool_decide_eq_true. eauto.
  - apply bool_decide_eq_false. intros [? ?]. discriminate.
  - apply bool_decide_eq_false. intros [? ?]. discriminate.
Qed.

Lemma contains_hit c time k b :
  lookup c time k = Some b -> contains c time k = true.
Proof.
  intros H. rewrite contains_lookup, H. apply bool_decide_eq_true. eauto.
Qed.

Lemma contains_miss c time k :
  lookup c time k = None -> contains c time k = false.
Proof.
  intros H. rewrite contains_lookup, H. apply bool_decide_eq_false.
  intros [? ?]. discriminate.
Qed.

Lemma getitem_hit c time k b :
  lookup c time k = Some b -> getitem c time k = Some (b, touch c k).
Proof.
  unfold lookup, getitem.
  destruct (getlink k (links c)) as [e|]; [|discriminate].
  destruct (fresh time e); [|discriminate]. now intros [= ->].
Qed.

Lemma setitem_admits c time k v :
  admits c = true ->
  exists c', setitem c time k v = (None, c')
             /\ maxsize c' = maxsize c /\ ttl c' = ttl c
             /\ getlink k (links c') = Some (Entry k v (expiry c time)).
Proof.
  unfold admits, setitem. intros Ha.
  assert (Ht : match maxsize c with
               | Some m => (m <? 1)%nat | None => false end = false).
  { destruct (maxsize c); [now apply negb_true_iff in Ha | reflexivity]. }
  rewrite Ht. eexists. split; [reflexivity|]. simpl.
  repeat split. rewrite getlink_app, getlink_unlink_same. simpl.
  now rewrite String.eqb_refl.
Qed.

Lemma setitem_ok_inv c time k v c' :
  setitem c time k v = (None, c') ->
  maxsize c' = maxsize c /\ ttl c' = ttl c
  /\ getlink k (links c') = Some (Entry k v (expiry c time)).
Proof.
  unfold setitem.
  destruct (match maxsize c with
            | Some m => (m <? 1)%nat | None => false end); [discriminate|].
  intros [= <-]. simpl. repeat split.
  rewrite getlink_app, getlink_unlink_same. simpl.
  now rewrite String.eqb_refl.
Qed.

(** An entry stays visible until its time has come. *)
Lemma lookup_entry c time k v x :
  getlink k (links c) = Some (Entry k v x) ->
  match x with Some d => time < d | None => True end ->
  lookup c time k = Some v.
Proof.
  unfold lookup, fresh. intros -> Hx. simpl.
  destruct x as [d|]; [|reflexivity].
  destruct (Z.ltb_spec time d); [reflexivity | lia].
Qed.

(** *** Uniqueness of keys *)

Lemma getlink_In k l e : getlink k l = Some e -> List.In e l.
Proof.
  induction l as [|x l IH]; simpl; [discriminate|].
  destruct (String.eqb (key x) k); [intros [= ->]; now left|].
  intros H. right. now apply IH.
Qed.

Lemma getlink_of_In l e :
  List.NoDup (List.map key l) -> List.In e l -> getlink (key e) l = Some e.
Proof.
  induction l as [|x l IH]; simpl; [contradiction|].
  intros Hnd Hin. apply List.NoDup_cons_iff in Hnd as [Hx Hnd].
  destruct (String.eqb (key x) (key e)) eqn:E.
  - destruct Hin as [->|Hin]; [reflexivity|].
    exfalso. apply Hx. apply String.eqb_eq in E. rewrite E.
    now apply List.in_map.
  - destruct Hin as [->|Hin]; [now rewrite String.eqb_refl in E|].
    now apply IH.
Qed.

(** A binding found in part of the entries is the binding of the whole. *)
Lemma getlink_sub k l1 l e :
  List.NoDup (List.map key l) ->
  (forall x, List.In x l1 -> List.In x l) ->
  getlink k l1 = Some e -> getlink k l = Some e.
Proof.
  intros Hnd Hsub H.
  rewrite <- (getlink_key _ _ _ H).
  apply getlink_of_In; [exact Hnd|]. now apply Hsub, (getlink_In k).
Qed.

Lemma NoDup_keys_filter (P : entry -> bool) l :
  List.NoDup (List.map key l) ->
  List.NoDup (List.map key (List.filter P l)).
Proof.
  induction l as [|x l IH]; simpl; [trivial|].
  intros Hnd. apply List.NoDup_cons_iff in Hnd as [Hx Hnd].
  destruct (P x); simpl; [|now apply IH].
  constructor; [|now apply IH].
  intros Hin. apply Hx. apply List.in_map_iff in Hin as (y & Hy & Hin).
  apply List.filter_In in Hin as [Hin _].
  rewrite <- Hy. now apply List.in_map.
Qed.

Lemma popitems_In m l x : List.In x (popitems m l) -> List.In x l.
Proof.
  induction l as [|y l IH]; simpl; [trivial|].
  destruct (m <? S (length l + 1))%nat.
  - intros H. right. now apply IH.
  - trivial.
Qed.

Lemma NoDup_keys_popitems m l :
  List.NoDup (List.map key l) -> List.NoDup (List.map key (popitems m l)).
Proof.
  induction l as [|y l IH]; simpl; [trivial|].
  intros Hnd. destruct (m <? S (length l + 1))%nat; [|exact Hnd].
  apply List.NoDup_cons_iff in Hnd as [_ Hnd]. now apply IH.
Qed.




(** The entries an assignment keeps, before the new one is appended. *)
Lemma setitem_links c time k v :
  exists l1,
    List.NoDup (List.map key (links c)) ->
    List.NoDup (List.map key l1)
    /\ (forall x, List.In x l1 -> List.In x (links c))
    /\ links (snd (setitem c time k v)) =
         match fst (setitem c time k v) with
         | Some _ => l1
         | None => unlink k l1 ++ [Entry k v (expiry c time)]
         end.
Proof.
  unfold setitem.
  destruct (match maxsize c with
            | Some m => (m <? 1)%nat | None => false end).
  - exists (expire time (links c)). intros Hnd. simpl.
    split; [now apply NoDup_keys_filter|]. split; [|reflexivity].
    intros x Hx. now apply List.filter_In in Hx as [Hx _].
  - simpl.
    destruct (getlink k (expire time (links c))) eqn:E.
    + exists (expire time (links c)). intros Hnd.
      split; [now apply NoDup_keys_filter|]. split; [|reflexivity].
      intros x Hx. now apply List.filter_In in Hx as [Hx _].
    + destruct (maxsize c) as [m|].
      * exists (popitems m (expire time (links c))). intros Hnd.
        split; [now apply NoDup_keys_popitems, NoDup_keys_filter|].
        split; [|reflexivity].
        intros x Hx. apply popitems_In in Hx.
        now apply List.filter_In in Hx as [Hx _].
      * exists (expire time (links c)). intros Hnd.
        split; [now apply NoDup_keys_filter|]. split; [|reflexivity].
        intros x Hx. now apply List.filter_In in Hx as [Hx _].
Qed.


(** After an assignment a lookup sees the new binding or an old one. *)
Lemma lookup_setitem c time k v k' b' :
  wf c ->
  lookup (snd (setitem c time k v)) time k' = Some b' ->
  (fst (setitem c time k v) = None /\ k' = k /\ b' = v)
  \/ lookup c time k' = Some b'.
Proof.
  unfold wf, lookup. intros Hnd.
  destruct (setitem_links c time k v) as [l1 H].
  destruct (H Hnd) as (Hnd1 & Hsub & ->). clear H.
  destruct (fst (setitem c time k v)).
  - destruct (getlink k' l1) as [e|] eqn:E; [|discriminate].
    intros He. right. now rewrite (getlink_sub _ _ _ _ Hnd Hsub E).
  - rewrite getlink_app.
    destruct (String.eqb k' k) eqn:Ek.
    + apply String.eqb_eq in Ek. subst k'.
      rewrite getlink_unlink_same. simpl. rewrite String.eqb_refl.
      destruct (fresh time _); [|discriminate]. simpl.
      intros [= <-]. now left.
    + apply String.eqb_neq in Ek.
      rewrite getlink_unlink_other by exact Ek.
      destruct (getlink k' l1) as [e|] eqn:E.
      * intros He. right. now rewrite (getlink_sub _ _ _ _ Hnd Hsub E).
      * simpl. destruct (String.eqb k k') eqn:E2; [|discriminate].
        apply String.eqb_eq in E2. congruence.
Qed.

(** *** Which entries an operation can leave *)

Lemma touch_In c k x :
  List.In x (links (touch c k)) -> List.In x (links c).
Proof.
  unfold touch. destruct (getlink k (links c)) as [e|] eqn:E; [|trivial].
  simpl. intros H. apply List.in_app_or in H as [H|[<-|[]]].
  - now apply List.filter_In in H as [H _].
  - now apply (getlink_In k).
Qed.

Lemma setitem_In c time k v x :
  List.In x (links (snd (setitem c time k v))) ->
  List.In x (links c) \/ key x = k.
Proof.
  unfold setitem.
  destruct (match maxsize c with
            | Some m => (m <? 1)%nat | None => false end); simpl.
  { intros H. left. now apply List.filter_In in H as [H _]. }
  intros H. apply List.in_app_or in H as [H|[<-|[]]]; [left|now right].
  apply List.filter_In in H as [H _].
  destruct (getlink k (expire time (links c))), (maxsize c);
    try apply popitems_In in H; now apply List.filter_In in H as [H _].
Qed.

End TTLCacheFacts.

(* ===================================================================== *)
(** ** Observations on worlds and traces *)
(* ===================================================================== *)

Lemma query_calls_app tr1 tr2 :
  query_calls (tr1 ++ tr2) = query_calls tr1 ++ query_calls tr2.
Proof.
  induction tr1 as [|ev tr1 IH]; simpl; [reflexivity|].
  destruct ev; simpl; now rewrite ?IH.
Qed.

Lemma disk_ops_app tr1 tr2 :
  disk_ops (tr1 ++ tr2) = disk_ops tr1 ++ disk_ops tr2.
Proof. apply List.filter_app. Qed.

#[global] Arguments TTLCache.contains : simpl never.
#[global] Arguments TTLCache.getitem : simpl never.
#[global] Arguments TTLCache.setitem : simpl never.
#[global] Arguments TTLCache.lookup : simpl never.
#[global] Arguments TTLCache.touch : simpl never.
#[global] Arguments TTLCache.keys : simpl never.
#[global] Arguments abspath : simpl never.
#[global] Arguments path_join : simpl never.
#[global] Arguments split_colon : simpl never.

(* ===================================================================== *)
(** ** Equations of the monad *)
(* ===================================================================== *)

Section MonadLaws.
Context {A B : Type}.

Lemma bind_ok (m : M A) (k : A -> M B) w a w' :
  m w = (Ok a, w') -> bind m k w = k a w'.
Proof. unfold bind. now intros ->. Qed.

Lemma bind_raise (m : M A) (k : A -> M B) w e w' :
  m w = (Raise e, w') -> bind m k w = (Raise e, w').
Proof. unfold bind. now intros ->. Qed.

Lemma try_ok (m : M A) h w a w' :
  m w = (Ok a, w') -> try_except m h w = (Ok a, w').
Proof. unfold try_except. now intros ->. Qed.

Lemma try_caught (m : M A) h w e w' k :
  m w = (Raise e, w') -> h e = Some k -> try_except m h w = k w'.
Proof. unfold try_except. now intros -> ->. Qed.

Lemma try_uncaught (m : M A) h w e w' :
  m w = (Raise e, w') -> h e = None -> try_except m h w = (Raise e, w').
Proof. unfold try_except. now intros -> ->. Qed.

Lemma with_lock_eq (m : M A) w r w' :
  m (record EvAcquire w) = (r, w') ->
  with_lock m w = (r, record EvRelease w').
Proof. unfold with_lock, bind, emit. now intros ->. Qed.

End MonadLaws.

(* ===================================================================== *)
(** ** What each method does, path by path *)
(* ===================================================================== *)

Section Steps.
Context {V : Type} (self : Env V).

Lemma _get_file_path_eq value_key w :
  _get_file_path self value_key w =
    (match key_path self value_key with
     | Some p => Ok p
     | None => Raise (PyExn ValueError)
     end, ensure_dir self value_key w).
Proof.
  unfold _get_file_path, key_path, ensure_dir, file_path.
  destruct (split_colon value_key) as [[d f]|]; [|reflexivity].
  unfold bind, os_path_exists. cbn.
  now destruct (_ || _).
Qed.

Lemma ensure_dir_mem k w : mem (ensure_dir self k w) = mem w.
Proof.
  unfold ensure_dir. destruct (split_colon k) as [[d f]|]; [|reflexivity].
  cbn. now destruct (_ || _).
Qed.

Lemma ensure_dir_now k w : now (ensure_dir self k w) = now w.
Proof.
  unfold ensure_dir. destruct (split_colon k) as [[d f]|]; [|reflexivity].
  cbn. now destruct (_ || _).
Qed.

Lemma ensure_dir_files k w : files (ensure_dir self k w) = files w.
Proof.
  unfold ensure_dir. destruct (split_colon k) as [[d f]|]; [|reflexivity].
  cbn. now destruct (_ || _).
Qed.

Lemma ensure_dir_trace k w :
  trace (ensure_dir self k w) = trace w ++ dir_events self k w.
Proof.
  unfold ensure_dir, dir_events.
  destruct (split_colon k) as [[d f]|]; [|now rewrite app_nil_r].
  cbn. destruct (_ || _); [now rewrite app_nil_r | reflexivity].
Qed.

Lemma query_calls_dir_events k w : query_calls (dir_events self k w) = [].
Proof.
  unfold dir_events. destruct (split_colon k) as [[d f]|]; [|reflexivity].
  cbn. now destruct (_ || _).
Qed.

(** *** [_read_from_mem_cache] *)

Lemma _read_from_mem_cache_hit key w b :
  TTLCache.lookup (mem w) (now w) key = Some b ->
  _read_from_mem_cache key w = (Ok b, after_mem_hit key w).
Proof.
  intros H. unfold _read_from_mem_cache. apply with_lock_eq.
  unfold mem_contains, mem_getitem, log, bind, emit. cbn.
  rewrite (TTLCacheFacts.contains_hit _ _ _ _ H). cbn.
  now rewrite (TTLCacheFacts.getitem_hit _ _ _ _ H).
Qed.

Lemma _read_from_mem_cache_miss key w :
  TTLCache.lookup (mem w) (now w) key = None ->
  _read_from_mem_cache key w =
    (Raise (CacheKeyNotFoundError "Key not found in mem cache"),
     after_mem_miss key w).
Proof.
  intros H. unfold _read_from_mem_cache. apply with_lock_eq.
  unfold mem_contains, log, bind, emit. cbn.
  now rewrite (TTLCacheFacts.contains_miss _ _ _ H).
Qed.

(** *** [_read_from_disk_cache] *)

Lemma disk_peek_frame path w w' :
  files w' = files w -> disk_peek self path w' = disk_peek self path w.
Proof. unfold disk_peek. now intros ->. Qed.

Lemma _read_from_disk_cache_eq key path w :
  key_path self key = Some path ->
  _read_from_disk_cache self key w =
    match disk_peek self path w with
    | Returns b => (Ok b, record (EvLog Debug) (after_disk_read self key path w))
    | Throws FileNotFoundError =>
        (Raise (CacheKeyNotFoundError "Key not found in disk cache"),
         after_disk_read self key path w)
    | Throws _ =>
        (Raise (CacheError "Unable to read from cache"),
         record (EvLog Error) (after_disk_read self key path w))
    end.
Proof.
  intros Hp. unfold _read_from_disk_cache.
  erewrite bind_ok; [|rewrite _get_file_path_eq, Hp; reflexivity].
  unfold try_except, streamlit_read, bind, emit, log, after_disk_read.
  rewrite (disk_peek_frame path w) by (cbn; apply ensure_dir_files).
  destruct (disk_peek self path w) as [b|e]; [reflexivity|].
  now destruct e.
Qed.

Lemma _read_from_disk_cache_unsplit key w :
  key_path self key = None ->
  _read_from_disk_cache self key w = (Raise (PyExn ValueError), w).
Proof.
  intros Hp. unfold _read_from_disk_cache.
  erewrite bind_raise; [reflexivity|].
  rewrite _get_file_path_eq, Hp. unfold ensure_dir.
  unfold key_path in Hp. now destruct (split_colon key) as [[? ?]|].
Qed.

(** *** [_write_to_mem_cache] *)

Lemma _write_to_mem_cache_eq key b w :
  _write_to_mem_cache key b w =
    (match fst (TTLCache.setitem (mem w) (now w) key b) with
     | None => Ok tt
     | Some e => Raise (PyExn e)
     end,
     after_mem_set key (snd (TTLCache.setitem (mem w) (now w) key b)) w).
Proof.
  unfold _write_to_mem_cache. apply with_lock_eq.
  unfold mem_setitem, bind, emit. cbn.
  now destruct (TTLCache.setitem _ _ _ _) as [[e|] c].
Qed.

(** *** [os.remove] and the two methods that call it *)

Lemma os_remove_eq path w :
  os_remove self path w =
    (match files w !! path, remove_fault self path with
     | None, _ => Raise (PyExn FileNotFoundError)
     | Some _, Some e => Raise (PyExn e)
     | Some _, None => Ok tt
     end, after_remove self path w).
Proof.
  unfold os_remove, after_remove, remove_file, bind, emit. cbn.
  destruct w as [m n f d t]. cbn.
  destruct (f !! path); [|reflexivity].
  now destruct (remove_fault self path).
Qed.

(** [_remove_from_disk_cache] "does not throw" once the key splits. *)
Lemma _remove_from_disk_cache_eq key path w :
  key_path self key = Some path ->
  _remove_from_disk_cache self key w =
    (Ok tt, after_remove_from_disk self key path w).
Proof.
  intros Hp. unfold _remove_from_disk_cache, after_remove_from_disk.
  erewrite bind_ok; [|rewrite _get_file_path_eq, Hp; reflexivity].
  unfold try_except. rewrite os_remove_eq.
  destruct (files (ensure_dir self key w) !! path); [|reflexivity].
  destruct (remove_fault self path) as [e|]; [|reflexivity].
  now destruct e.
Qed.

End Steps.

(** Projections of the worlds the steps leave; used by [autorewrite]. *)
Section Frames.
Context {V : Type} (self : Env V).

Lemma after_mem_miss_mem key w : mem (after_mem_miss key w) = mem w.
Proof. reflexivity. Qed.
Lemma after_mem_miss_now key w : now (after_mem_miss key w) = now w.
Proof. reflexivity. Qed.
Lemma after_mem_miss_files key w : files (after_mem_miss key w) = files w.
Proof. reflexivity. Qed.
Lemma after_mem_hit_mem key w :
  mem (after_mem_hit key w) = TTLCache.touch (mem w) key.
Proof. reflexivity. Qed.
Lemma after_mem_hit_now key w : now (after_mem_hit key w) = now w.
Proof. reflexivity. Qed.
Lemma after_mem_hit_files key w : files (after_mem_hit key w) = files w.
Proof. reflexivity. Qed.
Lemma after_disk_read_mem key p w :
  mem (after_disk_read self key p w) = mem w.
Proof. apply ensure_dir_mem. Qed.
Lemma after_disk_read_now key p w :
  now (after_disk_read self key p w) = now w.
Proof. apply ensure_dir_now. Qed.
Lemma after_disk_read_files key p w :
  files (after_disk_read self key p w) = files w.
Proof. apply ensure_dir_files. Qed.
Lemma after_mem_set_mem key c w : mem (after_mem_set key c w) = c.
Proof. reflexivity. Qed.
Lemma after_mem_set_now key c w : now (after_mem_set key c w) = now w.
Proof. reflexivity. Qed.
Lemma after_mem_set_files key c w : files (after_mem_set key c w) = files w.
Proof. reflexivity. Qed.
Lemma record_mem ev w : mem (record ev w) = mem w.
Proof. reflexivity. Qed.
Lemma record_now ev w : now (record ev w) = now w.
Proof. reflexivity. Qed.
Lemma record_files ev w : files (record ev w) = files w.
Proof. reflexivity. Qed.
Lemma record_trace ev w : trace (record ev w) = trace w ++ [ev].
Proof. reflexivity. Qed.

End Frames.

Create Rewrite HintDb world.
#[global] Hint Rewrite
  @after_mem_miss_mem @after_mem_miss_now @after_mem_miss_files
  @after_mem_hit_mem @after_mem_hit_now @after_mem_hit_files
  @after_disk_read_mem @after_disk_read_now @after_disk_read_files
  @after_mem_set_mem @after_mem_set_now @after_mem_set_files
  @record_mem @record_now @record_files
  @ensure_dir_mem @ensure_dir_now @ensure_dir_files : world.

Section Trees.
Context {V : Type} (self : Env V).

(** *** [_write_to_disk_cache] *)

Lemma _write_to_disk_cache_eq key path b w :
  key_path self key = Some path ->
  _write_to_disk_cache self key b w =
    match write_fault self path with
    | None => (Ok tt, after_write self key path b w)
    | Some f =>
        let w2 := after_failed_write self key path f w in
        match wf_exn f with
        | UtilError =>
            (match files w2 !! path, remove_fault self path with
             | Some _, Some e =>
                 if is_OSError e
                 then Raise (CacheError "Unable to write to cache")
                 else Raise (PyExn e)
             | _, _ => Raise (CacheError "Unable to write to cache")
             end, after_cleanup self path w2)
        | e => (Raise (PyExn e), w2)
        end
    end.
Proof.
  intros Hp. unfold _write_to_disk_cache.
  erewrite bind_ok; [|rewrite _get_file_path_eq, Hp; reflexivity].
  unfold try_except at 1. unfold streamlit_write, bind, emit.
  unfold after_write, after_failed_write, after_cleanup.
  destruct (write_fault self path) as [f|]; cbn.
  2:{ now rewrite ensure_dir_files. }
  rewrite ensure_dir_files.
  set (w2 := match wf_left f with Some _ => _ | None => _ end).
  destruct (wf_exn f); try reflexivity.
  unfold log, emit, try_except. rewrite os_remove_eq. cbn.
  destruct (files w2 !! path); [|reflexivity].
  destruct (remove_fault self path) as [e|]; [|reflexivity].
  now destruct e.
Qed.

(** *** [_write_value] *)

Lemma _write_value_eq key value w :
  _write_value self key value w =
    match pickle_dumps self value with
    | Throws PicklingError =>
        (Raise (CacheError ("Failed to pickle " +:+ key)), w)
    | Throws e => (Raise (PyExn e), w)
    | Returns b =>
        let s := TTLCache.setitem (mem w) (now w) key b in
        let w1 := after_mem_set key (snd s) w in
        match fst s with
        | Some e => (Raise (PyExn e), w1)
        | None =>
            if persist_is_disk self
            then (match fst (_write_to_disk_cache self key b w1) with
                  | Ok _ => Ok b
                  | Raise e => Raise e
                  end, snd (_write_to_disk_cache self key b w1))
            else (Ok b, w1)
        end
    end.
Proof.
  unfold _write_value.
  destruct (pickle_dumps self value) as [b|e].
  2:{ unfold bind, try_except, lift, raise. now destruct e. }
  erewrite bind_ok; [|reflexivity].
  unfold bind at 1. rewrite _write_to_mem_cache_eq. cbn zeta.
  destruct (fst (TTLCache.setitem (mem w) (now w) key b)); [reflexivity|].
  destruct (persist_is_disk self); [|reflexivity].
  unfold bind.
  destruct (_write_to_disk_cache self key b _) as [[[]|e] w']; reflexivity.
Qed.

(** *** [read_value], up to the binding of [pickled_value] *)

Lemma read_pickled_eq key path w :
  key_path self key = Some path ->
  read_pickled self key w =
    match TTLCache.lookup (mem w) (now w) key with
    | Some b => (Ok b, after_mem_hit key w)
    | None =>
        let w1 := after_mem_miss key w in
        if persist_is_disk self then
          let w2 := after_disk_read self key path w1 in
          match disk_peek self path w with
          | Returns b =>
              let s := TTLCache.setitem (mem w) (now w) key b in
              (match fst s with
               | None => Ok b
               | Some e => Raise (PyExn e)
               end, after_mem_set key (snd s) (record (EvLog Debug) w2))
          | Throws FileNotFoundError =>
              match query self key with
              | Returns v =>
                  _write_value self key v (record (EvQuery key) w2)
              | Throws e => (Raise (PyExn e), record (EvQuery key) w2)
              end
          | Throws _ =>
              (Raise (CacheError "Unable to read from cache"),
               record (EvLog Error) w2)
          end
        else
          (Raise (CacheKeyNotFoundError "Key not found in mem cache"), w1)
    end.
Proof.
  intros Hp. unfold read_pickled.
  destruct (TTLCache.lookup (mem w) (now w) key) as [b|] eqn:Hm.
  { erewrite try_ok; [reflexivity|]. now apply _read_from_mem_cache_hit. }
  erewrite try_caught;
    [|now apply _read_from_mem_cache_miss|reflexivity].
  destruct (persist_is_disk self); [|reflexivity]. cbn zeta.
  unfold try_except, bind.
  rewrite (_read_from_disk_cache_eq self key path _ Hp).
  rewrite (disk_peek_frame self path w) by reflexivity.
  destruct (disk_peek self path w) as [b|e].
  - rewrite _write_to_mem_cache_eq. autorewrite with world.
    now destruct (fst (TTLCache.setitem (mem w) (now w) key b)).
  - destruct e; try reflexivity.
    unfold call_query, bind, emit, lift.
    now destruct (query self key).
Qed.

Lemma read_value_eq k w :
  read_value self k w =
    (match fst (read_pickled self (namespaced self k) w) with
     | Ok b => unpickle self (namespaced self k) b
     | Raise e => Raise e
     end, snd (read_pickled self (namespaced self k) w)).
Proof.
  unfold read_value, bind, unpickle.
  destruct (read_pickled self (namespaced self k) w) as [[b|e] w'];
    [|reflexivity].
  unfold try_except, lift. cbn [fst snd].
  destruct (pickle_loads self b) as [v|e]; [reflexivity|].
  now destruct e.
Qed.

End Trees.

(* ===================================================================== *)
(** ** Namespaced keys and traces *)
(* ===================================================================== *)

Lemma split_colon_nil : split_colon EmptyString = None.
Proof. reflexivity. Qed.

Lemma split_colon_cons c r :
  split_colon (String c r) =
    if Ascii.eqb c ":"%char then Some (EmptyString, r)
    else match split_colon r with
         | Some (a, b) => Some (String c a, b)
         | None => None
         end.
Proof. reflexivity. Qed.

Lemma append_nil (s : string) : EmptyString +:+ s = s.
Proof. reflexivity. Qed.

Lemma append_cons c (a s : string) : String c a +:+ s = String c (a +:+ s).
Proof. reflexivity. Qed.

(** A key with a colon in it always splits. *)
Lemma split_colon_app (a k : string) :
  exists d f, split_colon (a +:+ String ":"%char k) = Some (d, f).
Proof.
  induction a as [|c a IH].
  - rewrite append_nil, split_colon_cons. cbn. eauto.
  - rewrite append_cons, split_colon_cons. destruct (Ascii.eqb c ":"%char); [eauto|].
    destruct IH as (d & f & ->). eauto.
Qed.

Section Namespaced.
Context {V : Type} (self : Env V).

(** Every key [read_value] builds has a disk path. *)
Lemma namespaced_has_path k :
  exists p, key_path self (namespaced self k) = Some p.
Proof.
  unfold key_path, namespaced.
  destruct (split_colon_app (cache_name self) k) as (d & f & ->). eauto.
Qed.

Lemma after_mem_miss_trace key w :
  trace (after_mem_miss key w) =
    trace w ++ [EvAcquire; EvMemContains key; EvLog Debug; EvRelease].
Proof. cbn. now rewrite <- !app_assoc. Qed.

Lemma after_mem_hit_trace key w :
  trace (after_mem_hit key w) =
    trace w ++ [EvAcquire; EvMemContains key; EvMemGet key;
                EvLog Debug; EvRelease].
Proof. cbn. now rewrite <- !app_assoc. Qed.

Lemma after_disk_read_trace key p w :
  trace (after_disk_read self key p w) =
    trace w ++ dir_events self key w ++ [EvDiskRead p].
Proof.
  unfold after_disk_read. cbn. now rewrite ensure_dir_trace, <- app_assoc.
Qed.

Lemma after_mem_set_trace key c w :
  trace (after_mem_set key c w) =
    trace w ++ [EvAcquire; EvMemSet key; EvRelease].
Proof. cbn. now rewrite <- !app_assoc. Qed.

Lemma after_write_trace key p b w :
  trace (after_write self key p b w) =
    trace w ++ dir_events self key w ++ [EvDiskWrite p].
Proof.
  unfold after_write. cbn. now rewrite ensure_dir_trace, <- app_assoc.
Qed.

Lemma after_write_mem key p b w : mem (after_write self key p b w) = mem w.
Proof. unfold after_write. cbn. apply ensure_dir_mem. Qed.

Lemma after_write_now key p b w : now (after_write self key p b w) = now w.
Proof. unfold after_write. cbn. apply ensure_dir_now. Qed.

Lemma after_write_files key p b w :
  files (after_write self key p b w) = <[p := b]> (files w).
Proof. reflexivity. Qed.

End Namespaced.

#[global] Hint Rewrite
  @after_mem_miss_trace @after_mem_hit_trace @after_disk_read_trace
  @after_mem_set_trace @after_write_trace @record_trace
  @after_write_mem @after_write_now @after_write_files
  @query_calls_app @disk_ops_app @query_calls_dir_events : world.

Section Extends.
Context {V : Type} (self : Env V).

Lemma extends_refl w : extends w w.
Proof. exists []. now rewrite app_nil_r. Qed.

Lemma extends_trans w1 w2 w3 :
  extends w1 w2 -> extends w2 w3 -> extends w1 w3.
Proof.
  intros [t1 H1] [t2 H2]. exists (t1 ++ t2).
  now rewrite H2, H1, app_assoc.
Qed.

Lemma extends_by w w' t : trace w' = trace w ++ t -> extends w w'.
Proof. intros H. now exists t. Qed.

Lemma extends_same w w' : trace w' = trace w -> extends w w'.
Proof. intros H. exists []. now rewrite app_nil_r. Qed.

Lemma extends_record w ev : extends w (record ev w).
Proof. now exists [ev]. Qed.

Lemma extends_ensure_dir k w : extends w (ensure_dir self k w).
Proof. eapply extends_by, ensure_dir_trace. Qed.

Lemma extends_after_mem_set key c w : extends w (after_mem_set key c w).
Proof. eapply extends_by, after_mem_set_trace. Qed.

Lemma extends_after_remove p w : extends w (after_remove self p w).
Proof. now exists [EvDiskRemove p]. Qed.

Lemma extends_after_failed_write key p f w :
  extends w (after_failed_write self key p f w).
Proof.
  unfold after_failed_write.
  eapply extends_trans; [apply extends_ensure_dir|].
  destruct (wf_left f); now exists [EvDiskWrite p].
Qed.

Lemma _write_to_disk_cache_extends key p b w :
  key_path self key = Some p ->
  extends w (snd (_write_to_disk_cache self key b w)).
Proof.
  intros Hp. rewrite (_write_to_disk_cache_eq self key p b w Hp).
  destruct (write_fault self p) as [f|].
  - cbn zeta.
    assert (He : extends w (after_cleanup self p
                              (after_failed_write self key p f w))).
    { eapply extends_trans; [apply extends_after_failed_write|].
      unfold after_cleanup.
      eapply extends_trans; [apply extends_record|].
      apply extends_after_remove. }
    destruct (wf_exn f); cbn [snd];
      first [exact He | apply extends_after_failed_write].
  - cbn [snd]. eapply extends_by, after_write_trace.
Qed.

Lemma _write_value_extends key p v w :
  key_path self key = Some p ->
  extends w (snd (_write_value self key v w)).
Proof.
  intros Hp. rewrite _write_value_eq.
  destruct (pickle_dumps self v) as [b|e].
  2:{ destruct e; apply extends_refl. }
  cbn zeta. destruct (fst _); [apply extends_after_mem_set|].
  destruct (persist_is_disk self); [|apply extends_after_mem_set].
  cbn [snd]. eapply extends_trans;
    [|eapply _write_to_disk_cache_extends, Hp].
  apply extends_after_mem_set.
Qed.

(** The first thing a read does is look the key up in memory, under
    the lock. *)
Lemma read_pickled_memory_first key p w :
  key_path self key = Some p ->
  exists rest,
    trace (snd (read_pickled self key w)) =
      trace w ++ EvAcquire :: EvMemContains key :: rest.
Proof.
  intros Hp. rewrite (read_pickled_eq self key p w Hp).
  assert (Hmiss : forall w', extends (after_mem_miss key w) w' ->
            exists rest,
              trace w' = trace w ++ EvAcquire :: EvMemContains key :: rest).
  { intros w' [t Ht]. rewrite Ht, after_mem_miss_trace, <- app_assoc.
    cbn. eauto. }
  destruct (TTLCache.lookup _ _ _).
  { cbn [snd]. rewrite after_mem_hit_trace. eauto. }
  cbn zeta. destruct (persist_is_disk self).
  2:{ apply Hmiss, extends_refl. }
  assert (Hd : extends (after_mem_miss key w)
                 (after_disk_read self key p (after_mem_miss key w))).
  { eapply extends_by, after_disk_read_trace. }
  destruct (disk_peek self p w) as [b|e].
  - cbn [snd]. apply Hmiss.
    eapply extends_trans; [exact Hd|].
    eapply extends_trans; [apply extends_record|].
    apply extends_after_mem_set.
  - assert (Hq : forall ev, extends (after_mem_miss key w)
                   (record ev (after_disk_read self key p
                                 (after_mem_miss key w)))).
    { intros ev. eapply extends_trans; [exact Hd|apply extends_record]. }
    destruct e; try (cbn [snd]; apply Hmiss, Hq).
    destruct (query self key); [|cbn [snd]; apply Hmiss, Hq].
    apply Hmiss. eapply extends_trans;
      [apply (Hq (EvQuery key)) | eapply _write_value_extends, Hp].
Qed.

End Extends.

(* ===================================================================== *)
(** ** The four ways a read resolves *)
(* ===================================================================== *)

#[global] Hint Rewrite @app_nil_r : world.

(** Normalises projections of the worlds the steps leave. *)
Ltac world_simpl :=
  repeat (progress (autorewrite with world;
                    cbn [query_calls disk_ops List.filter is_disk_event
                         app fst snd trace set_files set_mem])).

Section ReadPaths.
Context {V : Type} (self : Env V).
Implicit Types (w : World) (k p : string) (b : bytes).

(** Memory hit. *)
Lemma read_value_mem_hit w k b :
  TTLCache.lookup (mem w) (now w) (namespaced self k) = Some b ->
  read_value self k w =
    (unpickle self (namespaced self k) b,
     after_mem_hit (namespaced self k) w).
Proof.
  intros Hm. destruct (namespaced_has_path self k) as [p Hp].
  rewrite read_value_eq, (read_pickled_eq self _ p w Hp), Hm.
  reflexivity.
Qed.

(** Memory miss, no disk persistence. *)
Lemma read_value_no_disk w k :
  TTLCache.lookup (mem w) (now w) (namespaced self k) = None ->
  persist_is_disk self = false ->
  read_value self k w =
    (Raise (CacheKeyNotFoundError "Key not found in mem cache"),
     after_mem_miss (namespaced self k) w).
Proof.
  intros Hm Hd. destruct (namespaced_has_path self k) as [p Hp].
  rewrite read_value_eq, (read_pickled_eq self _ p w Hp), Hm.
  cbn zeta. now rewrite Hd.
Qed.

(** Memory miss, disk hit: promotion. *)
Lemma read_value_disk_hit w k p b c :
  let nk := namespaced self k in
  key_path self nk = Some p ->
  TTLCache.lookup (mem w) (now w) nk = None ->
  persist_is_disk self = true ->
  disk_peek self p w = Returns b ->
  TTLCache.setitem (mem w) (now w) nk b = (None, c) ->
  read_value self k w =
    (unpickle self nk b,
     after_mem_set nk c
       (record (EvLog Debug)
          (after_disk_read self nk p (after_mem_miss nk w)))).
Proof.
  intros nk Hp Hm Hd Hb Hs. subst nk.
  rewrite read_value_eq, (read_pickled_eq self _ p w Hp).
  rewrite Hm. cbn zeta. rewrite Hd, Hb, Hs. reflexivity.
Qed.

(** Both tiers miss: the Source is asked and its answer written
    through. *)
Lemma read_value_source w k p v b c :
  let nk := namespaced self k in
  key_path self nk = Some p ->
  TTLCache.lookup (mem w) (now w) nk = None ->
  persist_is_disk self = true ->
  disk_peek self p w = Throws FileNotFoundError ->
  query self nk = Returns v ->
  pickle_dumps self v = Returns b ->
  TTLCache.setitem (mem w) (now w) nk b = (None, c) ->
  write_fault self p = None ->
  read_value self k w =
    (unpickle self nk b,
     after_write self nk p b
       (after_mem_set nk c
          (record (EvQuery nk)
             (after_disk_read self nk p (after_mem_miss nk w))))).
Proof.
  intros nk Hp Hm Hd Hb Hq Hv Hs Hw. subst nk.
  rewrite read_value_eq, (read_pickled_eq self _ p w Hp).
  rewrite Hm. cbn zeta. rewrite Hd, Hb, Hq.
  rewrite _write_value_eq, Hv. cbn zeta. autorewrite with world.
  rewrite Hs, Hd. cbn [fst snd].
  rewrite (_write_to_disk_cache_eq self _ p b _ Hp), Hw. reflexivity.
Qed.

End ReadPaths.

(* ===================================================================== *)
(** ** Properties of [read_value] *)
(* ===================================================================== *)

Section ReadProperties.
Context {V : Type} (self : Env V).
Implicit Types (w : World) (k p : string) (b : bytes).

(** C1 (as the code has it). When the memory lookup misses and
    [persist] is not ["disk"], [read_value] does not fall through to the
    Source: it re-raises the [CacheKeyNotFoundError] of the memory tier
    to its caller, without calling [query] and without changing either
    tier. *)
Theorem read_without_disk_raises_not_found w k :
  persist_is_disk self = false ->
  TTLCache.lookup (mem w) (now w) (namespaced self k) = None ->
  fst (read_value self k w)
    = Raise (CacheKeyNotFoundError "Key not found in mem cache")
  /\ query_calls (trace (snd (read_value self k w))) = query_calls (trace w)
  /\ mem (snd (read_value self k w)) = mem w
  /\ files (snd (read_value self k w)) = files w.
Proof.
  intros Hd Hm. rewrite (read_value_no_disk self w k Hm Hd). cbn [fst snd].
  now world_simpl.
Qed.

(** C3 (as the code has it). When both tiers miss, [query] is called
    exactly once, with the namespaced key ["{cache_name}:{k}"]. *)
Theorem source_queried_once_with_namespaced_key w k p :
  key_path self (namespaced self k) = Some p ->
  persist_is_disk self = true ->
  TTLCache.lookup (mem w) (now w) (namespaced self k) = None ->
  disk_peek self p w = Throws FileNotFoundError ->
  query_calls (trace (snd (read_value self k w)))
    = query_calls (trace w) ++ [namespaced self k].
Proof.
  intros Hp Hd Hm Hb.
  rewrite read_value_eq, (read_pickled_eq self _ p w Hp), Hm.
  cbn zeta. rewrite Hd, Hb. cbn [snd].
  set (w2 := record _ _).
  assert (Hw2 : query_calls (trace w2)
                = query_calls (trace w) ++ [namespaced self k]).
  { subst w2. now world_simpl. }
  destruct (query self (namespaced self k)) as [v|e]; [|exact Hw2].
  rewrite _write_value_eq.
  destruct (pickle_dumps self v) as [b|e]; [|now destruct e].
  cbn zeta.
  assert (Hs : forall c, query_calls (trace (after_mem_set
                 (namespaced self k) c w2))
               = query_calls (trace w) ++ [namespaced self k]).
  { intros c. world_simpl. now rewrite Hw2. }
  destruct (fst _); [apply Hs|].
  rewrite Hd. cbn [snd].
  rewrite (_write_to_disk_cache_eq self _ p b _ Hp).
  destruct (write_fault self p) as [f|].
  - cbn zeta.
    assert (Hf : query_calls (trace (after_failed_write self
                   (namespaced self k) p f
                   (after_mem_set (namespaced self k)
                      (snd (TTLCache.setitem (mem w2) (now w2)
                              (namespaced self k) b)) w2)))
                 = query_calls (trace w) ++ [namespaced self k]).
    { unfold after_failed_write.
      destruct (wf_left f); world_simpl; rewrite ensure_dir_trace;
        world_simpl; now rewrite Hw2. }
    destruct (wf_exn f); cbn [snd]; try exact Hf.
    unfold after_cleanup, after_remove. world_simpl. now rewrite Hf.
  - world_simpl. now rewrite Hw2.
Qed.

End ReadProperties.

Section Resolution.
Context {V : Type} (self : Env V).
Implicit Types (w : World) (k p : string) (b : bytes).

(** C4. Resolution order of [read_value]. The memory tier is looked up
    first. On a memory hit the bytes found are unpickled and neither the
    disk nor the Source is touched. On a memory miss with disk
    persistence, the bytes of the disk file are written into the memory
    tier and unpickled. On a disk miss the Source is asked, its value
    pickled, and the bytes written to the memory tier and to the disk
    file. In each of these cases the result is the unpickling of the
    bytes of the step that hit. On a memory miss without disk
    persistence the read is not resolved: it raises
    [CacheKeyNotFoundError], and neither the disk nor the Source is
    used and nothing is written. *)
Theorem read_resolution_order w k p :
  let nk := namespaced self k in
  let r := read_value self k w in
  key_path self nk = Some p ->
  (exists rest,
      trace (snd r) = trace w ++ EvAcquire :: EvMemContains nk :: rest)
  /\ (forall b,
        TTLCache.lookup (mem w) (now w) nk = Some b ->
        fst r = unpickle self nk b
        /\ disk_ops (trace (snd r)) = disk_ops (trace w)
        /\ query_calls (trace (snd r)) = query_calls (trace w)
        /\ files (snd r) = files w)
  /\ (forall b,
        TTLCache.lookup (mem w) (now w) nk = None ->
        persist_is_disk self = true ->
        disk_peek self p w = Returns b ->
        TTLCache.admits (mem w) = true ->
        fst r = unpickle self nk b
        /\ TTLCache.getlink nk (TTLCache.links (mem (snd r)))
           = Some (TTLCache.Entry nk b (TTLCache.expiry (mem w) (now w)))
        /\ query_calls (trace (snd r)) = query_calls (trace w)
        /\ files (snd r) = files w)
  /\ (forall v b,
        TTLCache.lookup (mem w) (now w) nk = None ->
        persist_is_disk self = true ->
        disk_peek self p w = Throws FileNotFoundError ->
        query self nk = Returns v ->
        pickle_dumps self v = Returns b ->
        TTLCache.admits (mem w) = true ->
        write_fault self p = None ->
        fst r = unpickle self nk b
        /\ TTLCache.getlink nk (TTLCache.links (mem (snd r)))
           = Some (TTLCache.Entry nk b (TTLCache.expiry (mem w) (now w)))
        /\ files (snd r) = <[p := b]> (files w)
        /\ query_calls (trace (snd r)) = query_calls (trace w) ++ [nk])
  /\ (TTLCache.lookup (mem w) (now w) nk = None ->
      persist_is_disk self = false ->
      fst r = Raise (CacheKeyNotFoundError "Key not found in mem cache")
      /\ disk_ops (trace (snd r)) = disk_ops (trace w)
      /\ query_calls (trace (snd r)) = query_calls (trace w)
      /\ mem (snd r) = mem w
      /\ files (snd r) = files w).
Proof.
  intros nk r Hp. subst r nk. split; [|split; [|split; [|split]]].
  5:{ intros Hm Hd. rewrite (read_value_no_disk self w k Hm Hd).
      repeat split; now world_simpl. }
  - rewrite read_value_eq. cbn [snd].
    now apply (read_pickled_memory_first self _ p).
  - intros b Hm. rewrite (read_value_mem_hit self w k b Hm).
    repeat split; now world_simpl.
  - intros b Hm Hd Hb Ha.
    destruct (TTLCacheFacts.setitem_admits (mem w) (now w)
                (namespaced self k) b Ha) as (c & Hs & _ & _ & Hc).
    rewrite (read_value_disk_hit self w k p b c Hp Hm Hd Hb Hs).
    repeat split; now world_simpl.
  - intros v b Hm Hd Hb Hq Hv Ha Hw.
    destruct (TTLCacheFacts.setitem_admits (mem w) (now w)
                (namespaced self k) b Ha) as (c & Hs & _ & _ & Hc).
    rewrite (read_value_source self w k p v b c Hp Hm Hd Hb Hq Hv Hs Hw).
    repeat split; now world_simpl.
Qed.

End Resolution.

Section Rereads.
Context {V : Type} (self : Env V).
Implicit Types (w : World) (k p : string) (b : bytes).

(** While an entry has not expired, every read is served from memory. *)
Lemma reread_hits k b x dts : forall w,
  let nk := namespaced self k in
  TTLCache.getlink nk (TTLCache.links (mem w)) = Some (TTLCache.Entry nk b x) ->
  Forall (fun dt => 0 <= dt) dts ->
  match x with Some d => now w + total dts < d | None => True end ->
  Forall (fun r => r = unpickle self nk b) (fst (reread self k dts w))
  /\ length (fst (reread self k dts w)) = length dts
  /\ disk_ops (trace (snd (reread self k dts w))) = disk_ops (trace w)
  /\ query_calls (trace (snd (reread self k dts w))) = query_calls (trace w)
  /\ files (snd (reread self k dts w)) = files w.
Proof.
  induction dts as [|dt dts IH]; intros w nk He Hpos Hx.
  { cbn. repeat split. constructor. }
  inversion Hpos as [|? ? Hdt Hpos']; subst.
  assert (Htot : 0 <= total dts).
  { clear -Hpos'. induction Hpos'; cbn; lia. }
  cbn [total] in Hx.
  assert (Hm : TTLCache.lookup (mem (advance dt w)) (now (advance dt w)) nk
               = Some b).
  { cbn [advance mem now]. apply (TTLCacheFacts.lookup_entry _ _ _ _ x He).
    destruct x; [lia | exact I]. }
  cbn [reread]. rewrite (read_value_mem_hit self _ k b Hm). fold nk.
  specialize (IH (after_mem_hit nk (advance dt w))).
  destruct (reread self k dts (after_mem_hit nk (advance dt w)))
    as [rs w2] eqn:Hrr.
  cbn [fst snd] in *.
  destruct IH as (H1 & H2 & H3 & H4 & H5).
  - cbn [after_mem_hit mem record set_mem].
    rewrite TTLCacheFacts.getlink_touch. exact He.
  - exact Hpos'.
  - cbn [after_mem_hit now record set_mem advance]. destruct x; [lia|exact I].
  - repeat split.
    + constructor; [reflexivity | exact H1].
    + cbn. now rewrite H2.
    + rewrite H3. now world_simpl.
    + rewrite H4. now world_simpl.
    + rewrite H5. reflexivity.
Qed.

(** C10. On a read where the memory tier misses and the disk file is
    read, its bytes are stored in the memory tier before they are
    unpickled: when unpickling fails the read raises, the bytes stay in
    the memory tier, and every later read of the key made before the
    entry expires fails in the same way, served from memory, without any
    disk operation and without a call of the Source. *)
Theorem undecodable_disk_bytes_stay_in_memory w k p b e :
  let nk := namespaced self k in
  let r := read_value self k w in
  key_path self nk = Some p ->
  persist_is_disk self = true ->
  TTLCache.lookup (mem w) (now w) nk = None ->
  disk_peek self p w = Returns b ->
  TTLCache.admits (mem w) = true ->
  pickle_loads self b = Throws e ->
  fst r = Raise (unpickle_error nk e)
  /\ TTLCache.getlink nk (TTLCache.links (mem (snd r)))
     = Some (TTLCache.Entry nk b (TTLCache.expiry (mem w) (now w)))
  /\ forall dts,
       Forall (fun dt => 0 <= dt) dts ->
       match TTLCache.ttl (mem w) with
       | Some d => total dts < d
       | None => True
       end ->
       let rr := reread self k dts (snd r) in
       Forall (fun r' => r' = Raise (unpickle_error nk e)) (fst rr)
       /\ length (fst rr) = length dts
       /\ disk_ops (trace (snd rr)) = disk_ops (trace (snd r))
       /\ query_calls (trace (snd rr)) = query_calls (trace (snd r))
       /\ files (snd rr) = files (snd r).
Proof.
  intros nk r Hp Hd Hm Hb Ha He. subst r.
  destruct (TTLCacheFacts.setitem_admits (mem w) (now w) nk b Ha)
    as (c & Hs & _ & _ & Hc).
  rewrite (read_value_disk_hit self w k p b c Hp Hm Hd Hb Hs).
  fold nk. cbn [fst snd].
  assert (Hu : unpickle self nk b = Raise (unpickle_error nk e)).
  { unfold unpickle. now rewrite He. }
  split; [exact Hu|]. split; [exact Hc|].
  intros dts Hpos Httl. rewrite <- Hu.
  apply (reread_hits k b (TTLCache.expiry (mem w) (now w))).
  - exact Hc.
  - exact Hpos.
  - unfold TTLCache.expiry. world_simpl.
    destruct (TTLCache.ttl (mem w)); [lia | exact I].
Qed.

(** C5. Round trip: after the write-through of [v] under the key of [k],
    a read of [k] made before the entry expires returns [v], for every
    value [v] that [pickle] round-trips. *)
Theorem write_through_then_read w k v b w1 dt :
  (forall b', pickle_dumps self v = Returns b' ->
              pickle_loads self b' = Returns v) ->
  _write_value self (namespaced self k) v w = (Ok b, w1) ->
  0 <= dt ->
  match TTLCache.ttl (mem w) with Some d => dt < d | None => True end ->
  fst (read_value self k (advance dt w1)) = Ok v.
Proof.
  intros Hrt Hwv Hdt Httl.
  destruct (namespaced_has_path self k) as [p Hp].
  set (nk := namespaced self k) in *.
  rewrite _write_value_eq in Hwv.
  destruct (pickle_dumps self v) as [b0|e0] eqn:Hv; [|now destruct e0].
  cbn zeta in Hwv.
  destruct (TTLCache.setitem (mem w) (now w) nk b0) as [o c] eqn:Hs.
  cbn [fst snd] in Hwv. destruct o; [discriminate|].
  destruct (TTLCacheFacts.setitem_ok_inv _ _ _ _ _ Hs) as (_ & _ & Hc).
  assert (Hw1 : b = b0 /\ mem w1 = c /\ now w1 = now w).
  { destruct (persist_is_disk self).
    - rewrite (_write_to_disk_cache_eq self nk p b0 _ Hp) in Hwv.
      destruct (write_fault self p) as [f|].
      + cbn zeta in Hwv. destruct (wf_exn f); cbn [fst snd] in Hwv;
          try discriminate.
        destruct (files _ !! p); [|discriminate].
        destruct (remove_fault self p) as [e'|]; [|discriminate].
        destruct (is_OSError e'); discriminate.
      + cbn [fst snd] in Hwv. injection Hwv as <- <-.
        now world_simpl.
    - injection Hwv as <- <-. now world_simpl. }
  destruct Hw1 as (-> & Hmem & Hnow).
  assert (Hm : TTLCache.lookup (mem (advance dt w1)) (now (advance dt w1))
                 nk = Some b0).
  { cbn [advance mem now]. rewrite Hmem, Hnow.
    apply (TTLCacheFacts.lookup_entry _ _ _ _ _ Hc).
    unfold TTLCache.expiry. destruct (TTLCache.ttl (mem w)); [lia|exact I]. }
  rewrite (read_value_mem_hit self _ k b0 Hm). cbn [fst].
  unfold unpickle. fold nk. now rewrite (Hrt b0 eq_refl).
Qed.

End Rereads.

(* ===================================================================== *)
(** ** Memory entries and their disk files *)
(* ===================================================================== *)

Section Persistence.
Context {V : Type} (self : Env V).
Implicit Types (w : World) (k p : string) (b : bytes).






(** C7 (as the code has it). When the disk write fails with
    [util.Error], the file of the key is removed, best effort, before
    [CacheError] is raised: [os.remove] is the last disk operation of
    the call, a failure of it with an [OSError] is swallowed, and when
    it does not fail no file is left at the path. *)
Theorem failed_write_is_cleaned_up w key p b f :
  let r := _write_to_disk_cache self key b w in
  key_path self key = Some p ->
  write_fault self p = Some f ->
  wf_exn f = UtilError ->
  trace (snd r) = trace w ++ dir_events self key w
                    ++ [EvDiskWrite p; EvLog Debug; EvDiskRemove p]
  /\ ((forall e, remove_fault self p = Some e -> is_OSError e = true) ->
      fst r = Raise (CacheError "Unable to write to cache"))
  /\ (remove_fault self p = None -> files (snd r) !! p = None)
  /\ (forall p', p' <> p -> files (snd r) !! p' = files w !! p').
Proof.
  intros r Hp Hw He. subst r.
  rewrite (_write_to_disk_cache_eq self key p b w Hp), Hw. cbn zeta.
  rewrite He. cbn [fst snd].
  set (w2 := after_failed_write self key p f w).
  assert (Ht : trace w2 = trace w ++ dir_events self key w
                            ++ [EvDiskWrite p]).
  { subst w2. unfold after_failed_write.
    destruct (wf_left f); cbn [trace set_files record];
      now rewrite ensure_dir_trace, <- app_assoc. }
  assert (Hf : forall p', p' <> p -> files w2 !! p' = files w !! p').
  { intros p' Hne. subst w2. unfold after_failed_write.
    destruct (wf_left f); cbn [files set_files record].
    - now rewrite lookup_insert_ne.
    - now rewrite ensure_dir_files. }
  unfold after_cleanup, after_remove, remove_file.
  cbn [files trace set_files record].
  split; [|split; [|split]].
  - rewrite Ht, <- !app_assoc. reflexivity.
  - intros Hos. destruct (files w2 !! p); [|reflexivity].
    destruct (remove_fault self p) as [e|]; [|reflexivity].
    now rewrite (Hos e eq_refl).
  - intros ->. destruct (files w2 !! p) eqn:E; [|exact E].
    apply lookup_delete_eq.
  - intros p' Hne. rewrite <- (Hf p' Hne).
    destruct (files w2 !! p); [|reflexivity].
    destruct (remove_fault self p); [reflexivity|].
    now apply lookup_delete_ne.
Qed.

End Persistence.

(* ===================================================================== *)
(** ** The memory entries a read can leave *)
(* ===================================================================== *)

Section Footprint.
Context {V : Type} (self : Env V).
Implicit Types (w : World) (k p : string) (b : bytes).

Lemma _write_to_disk_cache_mem key p b w :
  key_path self key = Some p ->
  mem (snd (_write_to_disk_cache self key b w)) = mem w.
Proof.
  intros Hp. rewrite (_write_to_disk_cache_eq self key p b w Hp).
  assert (Hf : forall f, mem (after_failed_write self key p f w) = mem w).
  { intros f. unfold after_failed_write.
    destruct (wf_left f); cbn [mem set_files record]; apply ensure_dir_mem. }
  destruct (write_fault self p) as [f|]; [|now world_simpl].
  cbn zeta. destruct (wf_exn f); cbn [snd]; apply Hf.
Qed.

(** A read leaves the entries that were there and, at most, one for its
    own key. *)
Lemma read_value_entries w k e :
  List.In e (TTLCache.links (mem (snd (read_value self k w)))) ->
  List.In e (TTLCache.links (mem w))
  \/ TTLCache.key e = namespaced self k.
Proof.
  destruct (namespaced_has_path self k) as [p Hp].
  rewrite read_value_eq. cbn [snd].
  set (nk := namespaced self k) in *.
  rewrite (read_pickled_eq self nk p w Hp).
  assert (Hset : forall b w',
            mem w' = snd (TTLCache.setitem (mem w) (now w) nk b) ->
            List.In e (TTLCache.links (mem w')) ->
            List.In e (TTLCache.links (mem w)) \/ TTLCache.key e = nk).
  { intros b w' ->. apply TTLCacheFacts.setitem_In. }
  assert (Hsame : forall w',
            mem w' = mem w ->
            List.In e (TTLCache.links (mem w')) ->
            List.In e (TTLCache.links (mem w)) \/ TTLCache.key e = nk).
  { intros w' ->. now left. }
  destruct (TTLCache.lookup (mem w) (now w) nk).
  { cbn [snd]. world_simpl. intros H. left.
    now apply TTLCacheFacts.touch_In in H. }
  cbn zeta. destruct (persist_is_disk self) eqn:Hd; [|now apply Hsame].
  destruct (disk_peek self p w) as [b|ex].
  { cbn [snd]. apply (Hset b). now world_simpl. }
  destruct ex; try (cbn [snd]; apply Hsame; now world_simpl).
  destruct (query self nk) as [v|ex];
    [|cbn [snd]; apply Hsame; now world_simpl].
  rewrite _write_value_eq.
  destruct (pickle_dumps self v) as [b|ex].
  2:{ destruct ex; cbn [snd]; apply Hsame; now world_simpl. }
  cbn zeta. world_simpl.
  destruct (fst (TTLCache.setitem (mem w) (now w) nk b)).
  { cbn [snd]. apply (Hset b). now world_simpl. }
  rewrite Hd. cbn [snd]. apply (Hset b).
  rewrite (_write_to_disk_cache_mem nk p b _ Hp). now world_simpl.
Qed.

(** Reads keep the keys of the memory tier namespaced, so that [clear]
    finds a disk path for each of them. *)
Lemma read_value_keys_namespaced w k :
  keys_namespaced self w ->
  keys_namespaced self (snd (read_value self k w)).
Proof.
  intros Hw e He. apply read_value_entries in He as [He| ->].
  - now apply Hw.
  - destruct (namespaced_has_path self k) as [p ->]. eauto.
Qed.

Lemma keys_namespaced_keys w :
  keys_namespaced self w ->
  Forall (fun k => is_Some (key_path self k))
    (TTLCache.keys (mem w) (now w)).
Proof.
  intros Hw. apply List.Forall_forall. intros k Hk.
  unfold TTLCache.keys in Hk.
  apply List.in_map_iff in Hk as (e & <- & He).
  apply List.filter_In in He as [He _]. now apply Hw.
Qed.

End Footprint.

(* ===================================================================== *)
(** ** [clear] *)
(* ===================================================================== *)

Lemma removals_app tr1 tr2 :
  removals (tr1 ++ tr2) = removals tr1 ++ removals tr2.
Proof.
  induction tr1 as [|ev tr1 IH]; simpl; [reflexivity|].
  destruct ev; simpl; now rewrite ?IH.
Qed.

Section Clear.
Context {V : Type} (self : Env V).
Implicit Types (w : World) (k p : string) (b : bytes).

Lemma for_each_remove keys : forall w,
  Forall (fun k => is_Some (key_path self k)) keys ->
  for_each keys (_remove_from_disk_cache self) w
    = (Ok tt, after_removals self keys w).
Proof.
  induction keys as [|k keys IH]; intros w Hk; [reflexivity|].
  inversion Hk as [|? ? [p Hp] Hk']; subst.
  cbn [for_each after_removals]. rewrite Hp.
  erewrite bind_ok; [|eapply _remove_from_disk_cache_eq, Hp].
  now apply IH.
Qed.

(** One removal: what it does to the files, the memory and the trace. *)
Lemma after_remove_from_disk_spec k p w :
  let w' := after_remove_from_disk self k p w in
  mem w' = mem w /\ now w' = now w
  /\ files w' = remove_file self p (files w)
  /\ exists mid, trace w' = trace w ++ mid
                 /\ Forall (fun ev => is_lock_or_mem_event ev = false) mid
                 /\ removals mid = [p].
Proof.
  unfold after_remove_from_disk, after_remove. cbn zeta.
  rewrite ensure_dir_files.
  assert (Hd : Forall (fun ev => is_lock_or_mem_event ev = false)
                 (dir_events self k w) /\ removals (dir_events self k w) = []).
  { unfold dir_events. destruct (split_colon k) as [[d f]|]; [|now split].
    cbn zeta. destruct (_ || _); split; try reflexivity; repeat constructor. }
  destruct Hd as [Hd1 Hd2].
  assert (H : forall w0,
            (w0 = set_files (remove_file self p (files w))
                    (record (EvDiskRemove p) (ensure_dir self k w))
             \/ w0 = record (EvLog Exception)
                      (set_files (remove_file self p (files w))
                         (record (EvDiskRemove p) (ensure_dir self k w)))) ->
            mem w0 = mem w /\ now w0 = now w
            /\ files w0 = remove_file self p (files w)
            /\ exists mid, trace w0 = trace w ++ mid
                 /\ Forall (fun ev => is_lock_or_mem_event ev = false) mid
                 /\ removals mid = [p]).
  { intros w0 [->| ->]; cbn [mem now files trace record set_files];
      rewrite ?ensure_dir_mem, ?ensure_dir_now, ensure_dir_trace;
      repeat split.
    - exists (dir_events self k w ++ [EvDiskRemove p]).
      rewrite <- app_assoc. split; [reflexivity|]. split.
      + apply Forall_app. split; [exact Hd1|]. now repeat constructor.
      + now rewrite removals_app, Hd2.
    - exists (dir_events self k w ++ [EvDiskRemove p; EvLog Exception]).
      rewrite <- !app_assoc. split; [reflexivity|]. split.
      + apply Forall_app. split; [exact Hd1|]. now repeat constructor.
      + now rewrite removals_app, Hd2. }
  destruct (files w !! p); [|apply H; now left].
  destruct (remove_fault self p) as [e|]; [|apply H; now left].
  destruct e; apply H; auto.
Qed.

Lemma remove_file_lookup p f p' :
  remove_file self p f !! p' = None \/ remove_file self p f !! p' = f !! p'.
Proof.
  unfold remove_file. destruct (f !! p) eqn:E; [|now right].
  destruct (remove_fault self p); [now right|].
  destruct (decide (p' = p)) as [->|Hne].
  - left. apply lookup_delete_eq.
  - right. now apply lookup_delete_ne.
Qed.

Lemma remove_file_same p f :
  remove_file self p f !! p = None
  \/ (is_Some (remove_fault self p) /\ remove_file self p f !! p = f !! p).
Proof.
  unfold remove_file. destruct (f !! p) eqn:E; [|now left].
  destruct (remove_fault self p); [right; eauto|].
  left. apply lookup_delete_eq.
Qed.

Lemma after_removals_spec keys : forall w,
  Forall (fun k => is_Some (key_path self k)) keys ->
  let w' := after_removals self keys w in
  mem w' = mem w /\ now w' = now w
  /\ (forall p, files w' !! p = None \/ files w' !! p = files w !! p)
  /\ (forall k p, List.In k keys -> key_path self k = Some p ->
        files w' !! p = None
        \/ (is_Some (remove_fault self p) /\ files w' !! p = files w !! p))
  /\ exists mid, trace w' = trace w ++ mid
                 /\ Forall (fun ev => is_lock_or_mem_event ev = false) mid
                 /\ removals mid = omap (key_path self) keys.
Proof.
  induction keys as [|k keys IH]; intros w Hk; cbn zeta.
  { cbn. repeat split; auto. - intros ? ? []. - exists [].
    now rewrite app_nil_r. }
  inversion Hk as [|? ? [p Hp] Hk']; subst.
  cbn [after_removals]. rewrite Hp.
  destruct (after_remove_from_disk_spec k p w)
    as (Hm1 & Hn1 & Hf1 & mid1 & Ht1 & Hl1 & Hr1).
  destruct (IH (after_remove_from_disk self k p w) Hk')
    as (Hm & Hn & Hf & Hkeys & mid & Ht & Hl & Hr).
  split; [congruence|]. split; [congruence|]. split; [|split].
  - intros p'. destruct (Hf p') as [H|H]; [now left|].
    rewrite H, Hf1. apply remove_file_lookup.
  - intros k' p' [<-|Hin] Hp'.
    + assert (p' = p) by congruence. subst p'.
      destruct (Hf p) as [H|H]; [now left|].
      rewrite H, Hf1. apply remove_file_same.
    + destruct (Hkeys k' p' Hin Hp') as [H|[Hfault H]]; [now left|].
      rewrite H, Hf1.
      destruct (remove_file_lookup p (files w) p') as [H'|H']; auto.
  - exists (mid1 ++ mid). rewrite Ht, Ht1, <- app_assoc.
    split; [reflexivity|]. split; [now apply Forall_app|].
    rewrite removals_app, Hr1, Hr. cbn [omap list_omap]. now rewrite Hp.
Qed.

Lemma clear_eq w :
  Forall (fun k => is_Some (key_path self k))
    (TTLCache.keys (mem w) (now w)) ->
  clear self w =
    (Ok tt,
     let wr := after_removals self (TTLCache.keys (mem w) (now w))
                 (record EvMemKeys (record EvAcquire w)) in
     record EvRelease
       (set_mem (TTLCache.clear (mem wr)) (record EvMemClear wr))).
Proof.
  intros Hk. unfold clear. apply with_lock_eq.
  erewrite bind_ok; [|reflexivity].
  erewrite bind_ok; [|apply for_each_remove; exact Hk].
  reflexivity.
Qed.


End Clear.

(* ===================================================================== *)
(** ** Which [CacheError] a read raises, and when *)
(* ===================================================================== *)

Section Errors.
Context {V : Type} (self : Env V).
Implicit Types (w : World) (k p : string) (b : bytes).

Lemma _write_to_disk_cache_cache_error key p b w msg :
  key_path self key = Some p ->
  fst (_write_to_disk_cache self key b w) = Raise (CacheError msg) ->
  msg = "Unable to write to cache".
Proof.
  intros Hp. rewrite (_write_to_disk_cache_eq self key p b w Hp).
  destruct (write_fault self p) as [f|]; [|discriminate].
  cbn zeta. destruct (wf_exn f); cbn [fst]; try discriminate.
  destruct (files _ !! p); [|now intros [= <-]].
  destruct (remove_fault self p) as [e|]; [|now intros [= <-]].
  destruct (is_OSError e); [now intros [= <-]|discriminate].
Qed.

(** The [CacheError]s of the first half of [read_value]. *)
Lemma read_pickled_cache_error w k msg :
  fst (read_pickled self (namespaced self k) w) = Raise (CacheError msg) ->
  (msg = "Failed to pickle " +:+ namespaced self k /\ pickling_fails self w k)
  \/ msg = "Unable to read from cache"
  \/ msg = "Unable to write to cache".
Proof.
  destruct (namespaced_has_path self k) as [p Hp].
  unfold pickling_fails. cbn zeta.
  set (nk := namespaced self k) in *.
  rewrite (read_pickled_eq self nk p w Hp).
  destruct (TTLCache.lookup (mem w) (now w) nk) as [b|]; [discriminate|].
  cbn zeta. destruct (persist_is_disk self) eqn:Hd; [|discriminate].
  destruct (disk_peek self p w) as [b|e] eqn:Hb.
  { cbn [fst]. destruct (fst _); discriminate. }
  destruct e; cbn [fst]; try (intros [= <-]; auto; fail).
  destruct (query self nk) as [v|e] eqn:Hq; [|discriminate].
  rewrite _write_value_eq.
  destruct (pickle_dumps self v) as [b|e] eqn:Hv.
  2:{ destruct e; cbn [fst]; try discriminate.
      intros [= <-]. left. split; [reflexivity|]. eauto 10. }
  cbn zeta. destruct (fst (TTLCache.setitem _ _ _ _)); [discriminate|].
  rewrite Hd. cbn [fst].
  destruct (fst (_write_to_disk_cache self nk b _)) as [[]|e] eqn:Hw;
    [discriminate|].
  intros [= ->]. right. right.
  eapply (_write_to_disk_cache_cache_error nk p b), Hw. exact Hp.
Qed.

Lemma unpickle_message_differs key :
  "Failed to unpickle " +:+ key <> "Failed to pickle " +:+ key
  /\ "Failed to unpickle " +:+ key <> "Unable to read from cache"
  /\ "Failed to unpickle " +:+ key <> "Unable to write to cache"
  /\ "Failed to pickle " +:+ key <> "Unable to read from cache"
  /\ "Failed to pickle " +:+ key <> "Unable to write to cache".
Proof. repeat split; intros H; cbv [String.append] in H; discriminate. Qed.

(** C8 (as the code has it). [read_value] raises
    [CacheError("Failed to pickle {key}")] exactly when [pickle.dumps]
    raises [PicklingError] on the value the Source returned, and
    [CacheError("Failed to unpickle {key}")] exactly when [pickle.loads]
    raises [UnpicklingError] on the bytes obtained from a tier or from
    the write-through; in both cases the error reaches the caller and no
    value is returned. Every other [CacheError] of a read is a disk
    failure, with the message of the disk read or of the disk write. *)
Theorem read_cache_errors w k :
  let nk := namespaced self k in
  let r := fst (read_value self k w) in
  (r = Raise (CacheError ("Failed to unpickle " +:+ nk))
     <-> exists b, fst (read_pickled self nk w) = Ok b
                   /\ pickle_loads self b = Throws UnpicklingError)
  /\ (r = Raise (CacheError ("Failed to pickle " +:+ nk))
        <-> pickling_fails self w k)
  /\ (forall msg, r = Raise (CacheError msg) ->
        msg = "Failed to unpickle " +:+ nk
        \/ msg = "Failed to pickle " +:+ nk
        \/ msg = "Unable to read from cache"
        \/ msg = "Unable to write to cache").
Proof.
  intros nk r. subst r.
  destruct (unpickle_message_differs nk) as (D1 & D2 & D3 & D4 & D5).
  rewrite read_value_eq. cbn [fst]. fold nk.
  pose proof (read_pickled_cache_error w k) as Hce. fold nk in Hce.
  destruct (fst (read_pickled self nk w)) as [b|e] eqn:Hrp.
  - (* bytes obtained: only unpickling can fail *)
    unfold unpickle, unpickle_error.
    split; [|split].
    + split.
      * destruct (pickle_loads self b) as [v|e] eqn:Hl; [discriminate|].
        destruct e; try discriminate. intros _. exists b. now split.
      * intros (b' & [= <-] & ->). reflexivity.
    + split.
      * destruct (pickle_loads self b) as [v|e]; [discriminate|].
        destruct e; try discriminate; intros [= H]; now symmetry in H.
      * intros (Hm & Hd & (p & Hp & Hb) & v & Hq & Hv). exfalso.
        fold nk in Hm, Hp, Hq.
        rewrite (read_pickled_eq self nk p w Hp) in Hrp.
        rewrite Hm in Hrp. cbn zeta in Hrp.
        rewrite Hd, Hb, Hq, _write_value_eq, Hv in Hrp. discriminate.
    + intros msg. destruct (pickle_loads self b) as [v|e]; [discriminate|].
      destruct e; try discriminate. intros [= <-]. now left.
  - split; [|split].
    + split.
      * intros [= ->]. destruct (Hce _ eq_refl) as [[H _]|[H|H]];
          congruence.
      * intros (b & [=] & _).
    + split.
      * intros [= ->]. destruct (Hce _ eq_refl) as [[_ H]|[H|H]];
          [exact H | congruence | congruence].
      * intros (Hm & Hd & (p & Hp & Hb) & v & Hq & Hv).
        fold nk in Hm, Hp, Hq.
        rewrite (read_pickled_eq self nk p w Hp) in Hrp.
        rewrite Hm in Hrp. cbn zeta in Hrp.
        rewrite Hd, Hb, Hq, _write_value_eq, Hv in Hrp.
        cbn [fst] in Hrp. congruence.
    + intros msg [= ->]. destruct (Hce _ eq_refl) as [[H _]|[H|H]]; auto.
Qed.

End Errors.

(* ===================================================================== *)
(** ** Facts about strings and paths *)
(* ===================================================================== *)

Section StringFacts.
Implicit Types (a b c s x y : string).

Lemma append_assoc a b c : (a +:+ b) +:+ c = a +:+ (b +:+ c).
Proof.
  induction a as [|ch a IH]; [reflexivity|].
  now rewrite !append_cons, IH.
Qed.

Lemma append_nil_r a : a +:+ EmptyString = a.
Proof.
  induction a as [|ch a IH]; [reflexivity|]. now rewrite append_cons, IH.
Qed.

Lemma length_append a b :
  String.length (a +:+ b) = (String.length a + String.length b)%nat.
Proof.
  induction a as [|ch a IH]; [reflexivity|].
  rewrite append_cons. cbn [String.length]. now rewrite IH.
Qed.

Lemma append_inv_head a b c : a +:+ b = a +:+ c -> b = c.
Proof.
  induction a as [|ch a IH]; [trivial|].
  rewrite !append_cons. intros [= H]. now apply IH.
Qed.

Lemma append_inv_tail s : forall a b, a +:+ s = b +:+ s -> a = b.
Proof.
  induction a as [|ch a IH]; intros [|ch' b] H.
  - reflexivity.
  - apply (f_equal String.length) in H.
    rewrite append_nil, append_cons in H. cbn [String.length] in H.
    rewrite length_append in H. lia.
  - apply (f_equal String.length) in H.
    rewrite append_nil, append_cons in H. cbn [String.length] in H.
    rewrite length_append in H. lia.
  - rewrite !append_cons in H. injection H as -> H. f_equal. now apply IH.
Qed.

(** The part before the first slash is determined. *)
Lemma append_sep_inj a : forall b x y,
  has_sep a = false -> has_sep b = false ->
  a +:+ String sep x = b +:+ String sep y -> a = b /\ x = y.
Proof.
  induction a as [|ch a IH]; intros [|ch' b] x y Ha Hb H.
  - rewrite !append_nil in H. now injection H.
  - rewrite append_nil, append_cons in H. injection H as <- _.
    cbn in Hb. discriminate.
  - rewrite append_nil, append_cons in H. injection H as -> _.
    cbn in Ha. discriminate.
  - rewrite !append_cons in H. injection H as -> H.
    cbn in Ha, Hb. apply orb_false_iff in Ha as [_ Ha].
    apply orb_false_iff in Hb as [_ Hb].
    destruct (IH b x y Ha Hb H) as [-> ->]. now split.
Qed.

Lemma has_sep_append a b : has_sep (a +:+ b) = has_sep a || has_sep b.
Proof.
  induction a as [|ch a IH]; [reflexivity|].
  rewrite append_cons. cbn [has_sep]. now rewrite IH, orb_assoc.
Qed.

Lemma split_sep_cons ch r :
  split_sep (String ch r) =
    if Ascii.eqb ch sep then EmptyString :: split_sep r
    else match split_sep r with
         | x :: xs => String ch x :: xs
         | [] => [String ch EmptyString]
         end.
Proof. reflexivity. Qed.

Lemma split_sep_plain s : has_sep s = false -> split_sep s = [s].
Proof.
  induction s as [|ch s IH]; [reflexivity|].
  cbn [has_sep]. intros H. apply orb_false_iff in H as [Hc Hs].
  now rewrite split_sep_cons, Hc, (IH Hs).
Qed.

Lemma split_sep_nonempty s : split_sep s <> [].
Proof.
  destruct s as [|ch s]; [discriminate|].
  rewrite split_sep_cons. destruct (Ascii.eqb ch sep); [discriminate|].
  destruct (split_sep s); discriminate.
Qed.

Lemma split_sep_app_sep a b :
  split_sep (a +:+ String sep b) = split_sep a ++ split_sep b.
Proof.
  induction a as [|ch a IH].
  - rewrite append_nil. reflexivity.
  - rewrite append_cons, !split_sep_cons, IH.
    destruct (Ascii.eqb ch sep); [reflexivity|].
    pose proof (split_sep_nonempty a) as Hne.
    destruct (split_sep a) as [|x xs]; [contradiction|reflexivity].
Qed.

Lemma endswith_sep_inv s :
  endswith_sep s = true -> exists s', s = s' +:+ String sep EmptyString.
Proof.
  induction s as [|ch s IH]; [discriminate|].
  destruct s as [|ch' s].
  - cbn. intros H. apply Ascii.eqb_eq in H. subst ch.
    now exists EmptyString.
  - intros H. destruct (IH H) as [s' Hs']. exists (String ch s').
    now rewrite append_cons, <- Hs'.
Qed.

Lemma endswith_sep_append a b :
  is_empty b = false -> endswith_sep (a +:+ b) = endswith_sep b.
Proof.
  intros Hb. induction a as [|ch a IH]; [reflexivity|].
  rewrite append_cons. cbn [endswith_sep].
  destruct (a +:+ b) eqn:E; [|exact IH].
  destruct a; [|discriminate]. rewrite append_nil in E. now subst b.
Qed.

Lemma endswith_sep_plain s : has_sep s = false -> endswith_sep s = false.
Proof.
  induction s as [|ch s IH]; [reflexivity|].
  cbn [has_sep]. intros H. apply orb_false_iff in H as [Hc Hs].
  cbn [endswith_sep]. destruct s; [exact Hc | now apply IH].
Qed.

Lemma startswith_sep_plain s : has_sep s = false -> startswith_sep s = false.
Proof.
  destruct s as [|ch s]; [reflexivity|]. cbn. intros H.
  now apply orb_false_iff in H as [Hc _].
Qed.

Lemma startswith_sep_append a b :
  startswith_sep (a +:+ b) =
    if is_empty a then startswith_sep b else startswith_sep a.
Proof. destruct a; reflexivity. Qed.

Lemma is_empty_append a b : is_empty (a +:+ b) = is_empty a && is_empty b.
Proof. destruct a; reflexivity. Qed.

Lemma split_colon_inv s : forall d f,
  split_colon s = Some (d, f) -> s = d +:+ String ":"%char f.
Proof.
  induction s as [|ch s IH]; intros d f; [discriminate|].
  rewrite split_colon_cons.
  destruct (Ascii.eqb ch ":"%char) eqn:E.
  - intros [= <- <-]. apply Ascii.eqb_eq in E. now subst ch.
  - destruct (split_colon s) as [[a b]|]; [|discriminate].
    intros [= <- <-]. rewrite append_cons. f_equal. now apply IH.
Qed.

End StringFacts.

(* ===================================================================== *)
(** ** The shape of disk paths *)
(* ===================================================================== *)

Section PathFacts.
Implicit Types (a b d f s P : string).

Lemma plain_name_inv s :
  plain_name s = true ->
  is_empty s = false /\ has_sep s = false
  /\ String.eqb s "." = false /\ String.eqb s ".." = false.
Proof.
  unfold plain_name. intros H.
  repeat (apply andb_true_iff in H as [H ?]).
  repeat split; now apply negb_true_iff.
Qed.

(** The file name of a cache file is a plain name. *)
Lemma memo_plain f : has_sep f = false -> plain_name (f +:+ ".memo") = true.
Proof.
  intros Hf. unfold plain_name.
  assert (Hlen : (5 <= String.length (f +:+ ".memo"))%nat).
  { rewrite length_append. cbn. lia. }
  rewrite has_sep_append, Hf.
  assert (E0 : is_empty (f +:+ ".memo") = false).
  { destruct (f +:+ ".memo"); [cbn in Hlen; lia | reflexivity]. }
  assert (E1 : String.eqb (f +:+ ".memo") "." = false).
  { apply String.eqb_neq. intros E. rewrite E in Hlen. cbn in Hlen. lia. }
  assert (E2 : String.eqb (f +:+ ".memo") ".." = false).
  { apply String.eqb_neq. intros E. rewrite E in Hlen. cbn in Hlen. lia. }
  now rewrite E0, E1, E2.
Qed.

Lemma path_join_plain a b :
  startswith_sep b = false -> path_join a b = with_sep a +:+ b.
Proof.
  intros Hb. unfold path_join, with_sep. rewrite Hb.
  destruct (is_empty a || endswith_sep a); [reflexivity|].
  now rewrite append_assoc.
Qed.

Lemma with_sep_shape a :
  is_empty (with_sep a) = true \/ endswith_sep (with_sep a) = true.
Proof.
  unfold with_sep.
  destruct (is_empty a) eqn:E1; [now left|].
  destruct (endswith_sep a) eqn:E2; [now right|].
  right. cbn [orb]. now rewrite endswith_sep_append.
Qed.

Lemma norm_step_plain n comps s :
  plain_name s = true -> norm_step n comps s = comps ++ [s].
Proof.
  intros H. apply plain_name_inv in H as (H1 & _ & H3 & H4).
  unfold norm_step. now rewrite H1, H3, H4.
Qed.

Lemma join_sep_cons x xs :
  join_sep (x :: xs) =
    match xs with
    | [] => x
    | _ => x +:+ String sep (join_sep xs)
    end.
Proof. now destruct xs. Qed.

Lemma join_sep_tail comps d f :
  join_sep (comps ++ [d; f]) = dir_prefix comps +:+ (d +:+ String sep f).
Proof.
  induction comps as [|x xs IH]; [reflexivity|].
  change ((x :: xs) ++ [d; f]) with (x :: (xs ++ [d; f])).
  rewrite join_sep_cons, IH.
  destruct xs as [|y ys].
  - cbn [app dir_prefix join_sep]. rewrite append_nil.
    now rewrite append_assoc.
  - cbn [app]. unfold dir_prefix. rewrite (join_sep_cons x (y :: ys)).
    now rewrite !append_assoc.
Qed.

(** The leading slashes of a path are those of its directory part. *)
Lemma initial_slashes_prefix P c1 c2 X Y :
  is_empty P = true \/ endswith_sep P = true ->
  Ascii.eqb c1 sep = false -> Ascii.eqb c2 sep = false ->
  initial_slashes_of (P +:+ String c1 X)
  = initial_slashes_of (P +:+ String c2 Y).
Proof.
  intros HP H1 H2. unfold initial_slashes_of, char_is_sep.
  destruct P as [|a [|b [|c P3]]]; rewrite ?append_cons, ?append_nil;
    cbn [String.get].
  - now rewrite H1, H2.
  - destruct HP as [HP|HP]; [discriminate|]. cbn in HP.
    now rewrite HP, H1, H2.
  - destruct HP as [HP|HP]; [discriminate|]. cbn in HP.
    now rewrite HP, H1, H2.
  - reflexivity.
Qed.

Lemma split_sep_tail P d f :
  is_empty P = true \/ endswith_sep P = true ->
  has_sep d = false -> has_sep f = false ->
  split_sep (P +:+ (d +:+ String sep f))
  = removelast (split_sep P) ++ [d; f].
Proof.
  intros HP Hd Hf.
  assert (Hdf : split_sep (d +:+ String sep f) = [d; f]).
  { now rewrite split_sep_app_sep, !split_sep_plain. }
  destruct HP as [HP|HP].
  - destruct P; [|discriminate]. now rewrite append_nil, Hdf.
  - destruct (endswith_sep_inv P HP) as [P' ->].
    rewrite append_assoc, append_cons, append_nil.
    rewrite (split_sep_app_sep P' (d +:+ String sep f)), Hdf.
    rewrite (split_sep_app_sep P' EmptyString). cbn [split_sep].
    now rewrite List.removelast_last.
Qed.

(** Normalising a path that ends in two plain names only normalises
    what comes before them. *)
Lemma normpath_plain_tail P d f :
  is_empty P = true \/ endswith_sep P = true ->
  plain_name d = true -> plain_name f = true ->
  let n := initial_slashes_of (P +:+ "x") in
  let comps := fold_left (norm_step n) (removelast (split_sep P)) [] in
  normpath (P +:+ (d +:+ String sep f))
  = (slashes n +:+ dir_prefix comps) +:+ (d +:+ String sep f).
Proof.
  intros HP Hd Hf n comps.
  destruct (plain_name_inv d Hd) as (Hd1 & Hd2 & _).
  destruct (plain_name_inv f Hf) as (_ & Hf2 & _).
  destruct d as [|c d']; [discriminate|].
  assert (Hc : Ascii.eqb c sep = false).
  { cbn in Hd2. now apply orb_false_iff in Hd2 as [? _]. }
  unfold normpath.
  rewrite is_empty_append, andb_false_r.
  rewrite (split_sep_tail P _ f HP Hd2 Hf2).
  rewrite append_cons.
  rewrite (initial_slashes_prefix P c "x"%char _ EmptyString HP Hc eq_refl).
  fold n. rewrite fold_left_app. fold comps. cbn [fold_left].
  rewrite <- append_cons.
  rewrite (norm_step_plain n comps _ Hd), (norm_step_plain n _ f Hf).
  rewrite <- app_assoc. cbn [app].
  rewrite join_sep_tail, <- append_assoc.
  rewrite is_empty_append, (is_empty_append (String c d')).
  cbn [is_empty andb]. now rewrite andb_false_r.
Qed.

End PathFacts.

Section PathDerivation.
Context {V : Type} (self : Env V).
Implicit Types (d f key : string) (w : World).

Lemma root_prefix_shape :
  is_empty (root_prefix self) = true \/ endswith_sep (root_prefix self) = true.
Proof.
  unfold root_prefix. cbn zeta.
  set (r := with_sep (default "./cache" (CACHE_PATH self))).
  destruct (with_sep_shape (default "./cache" (CACHE_PATH self)))
    as [Hr|Hr]; fold r in Hr.
  - destruct r; [|discriminate]. cbn [startswith_sep].
    rewrite append_nil_r. apply with_sep_shape.
  - destruct (startswith_sep r); [now right|].
    right. rewrite endswith_sep_append; [exact Hr|].
    destruct r; [discriminate|reflexivity].
Qed.

(** The path of a plain key is ["{root}/{kind}/{rawKey}.memo"]. *)
Lemma file_path_plain d f :
  plain_name d = true -> has_sep f = false ->
  file_path self d f
  = (cache_root self) +:+ (d +:+ String sep (f +:+ ".memo")).
Proof.
  intros Hd Hf.
  destruct (plain_name_inv d Hd) as (Hd1 & Hd2 & _).
  pose proof (memo_plain f Hf) as Hm.
  destruct (plain_name_inv _ Hm) as (_ & Hm2 & _).
  unfold file_path. cbn zeta.
  set (root := default "./cache" (CACHE_PATH self)).
  rewrite (path_join_plain root d) by now apply startswith_sep_plain.
  rewrite (path_join_plain _ (f +:+ ".memo"))
    by now apply startswith_sep_plain.
  assert (Hw : with_sep (with_sep root +:+ d) = (with_sep root +:+ d) +:+ "/").
  { unfold with_sep at 1.
    rewrite is_empty_append, Hd1, andb_false_r.
    rewrite (endswith_sep_append _ d Hd1), (endswith_sep_plain d Hd2).
    reflexivity. }
  rewrite Hw, !append_assoc, append_cons, append_nil.
  set (X := d +:+ String sep (f +:+ ".memo")).
  assert (HX : startswith_sep X = false).
  { subst X. rewrite startswith_sep_append, Hd1.
    now apply startswith_sep_plain. }
  assert (Hgoal : abspath (cwd self) (with_sep root +:+ X)
                  = normpath ((root_prefix self) +:+ X)).
  { unfold abspath, root_prefix. cbn zeta. fold root.
    rewrite startswith_sep_append.
    destruct (with_sep root) as [|c r'] eqn:Er.
    - cbn [is_empty startswith_sep]. rewrite HX, append_nil, append_nil_r.
      now rewrite (path_join_plain _ X HX).
    - cbn [is_empty]. destruct (startswith_sep (String c r')) eqn:Es.
      + reflexivity.
      + rewrite path_join_plain, append_assoc; [reflexivity|].
        now rewrite startswith_sep_append.
  }
  change (abspath (cwd self) (with_sep root +:+ X) = (cache_root self) +:+ X).
  rewrite Hgoal. subst X.
  apply (normpath_plain_tail (root_prefix self) d (f +:+ ".memo")
           root_prefix_shape Hd Hm).
Qed.

(** C9 (as the code has it). [_get_file_path] answers a path that
    depends on the namespaced key alone (and on [CACHE_PATH] and the
    current directory), but it is not free of effects: it creates the
    directory of the kind when that is missing. For a key whose kind is
    a plain directory name and whose raw key has no slash the path is
    ["{root}/{kind}/{rawKey}.memo"], and on those keys the derivation is
    injective. *)
Theorem disk_path_derivation :
  (forall key w,
      fst (_get_file_path self key w)
      = match key_path self key with
        | Some p => Ok p
        | None => Raise (PyExn ValueError)
        end)
  /\ (forall key w,
        let w' := snd (_get_file_path self key w) in
        mem w' = mem w /\ now w' = now w /\ files w' = files w
        /\ trace w' = trace w ++ dir_events self key w
        /\ (dirs w' = dirs w \/ exists a, dirs w' = {[a]} ∪ dirs w))
  /\ (forall key d f,
        split_colon key = Some (d, f) ->
        plain_name d = true -> has_sep f = false ->
        key_path self key
        = Some ((cache_root self) +:+ (d +:+ String sep (f +:+ ".memo"))))
  /\ (forall k1 k2,
        plain_key k1 = true -> plain_key k2 = true ->
        key_path self k1 = key_path self k2 -> k1 = k2).
Proof.
  split; [|split; [|split]].
  - intros key w. now rewrite _get_file_path_eq.
  - intros key w. cbn zeta. rewrite _get_file_path_eq. cbn [snd].
    rewrite ensure_dir_mem, ensure_dir_now, ensure_dir_files,
      ensure_dir_trace.
    repeat split. unfold ensure_dir.
    destruct (split_colon key) as [[d f]|]; [|now left].
    cbn zeta. destruct (_ || _); [now left|]. right. eauto.
  - intros key d f Hs Hd Hf. unfold key_path. rewrite Hs.
    now rewrite file_path_plain.
  - intros k1 k2 H1 H2. unfold plain_key, key_path in *.
    destruct (split_colon k1) as [[d1 f1]|] eqn:E1; [|discriminate].
    destruct (split_colon k2) as [[d2 f2]|] eqn:E2; [|discriminate].
    apply andb_true_iff in H1 as [Hd1 Hf1].
    apply andb_true_iff in H2 as [Hd2 Hf2].
    apply negb_true_iff in Hf1, Hf2.
    rewrite !file_path_plain by assumption.
    intros [= H]. apply append_inv_head in H.
    destruct (plain_name_inv d1 Hd1) as (_ & Hs1 & _).
    destruct (plain_name_inv d2 Hd2) as (_ & Hs2 & _).
    apply append_sep_inj in H as [-> H]; [|assumption|assumption].
    apply append_inv_tail in H. subst f2.
    rewrite (split_colon_inv _ _ _ E1), (split_colon_inv _ _ _ E2).
    reflexivity.
Qed.

End PathDerivation.

(* ===================================================================== *)
(** ** The properties on concrete caches *)
(* ===================================================================== *)

Section Cases.
Import Example.

(** *** Reads without disk persistence *)

Lemma read_without_disk_raises_not_found_witness :
  let self := with_persist None s3_query in
  let r := read_value self "foo" empty_world in
  fst r = Raise (CacheKeyNotFoundError "Key not found in mem cache")
  /\ query_calls (trace (snd r)) = query_calls (trace empty_world)
  /\ mem (snd r) = mem empty_world
  /\ files (snd r) = files empty_world.
Proof.
  apply (read_without_disk_raises_not_found
           (with_persist None s3_query) empty_world "foo"); reflexivity.
Defined.

(** [MemoCache(persist=None)] with a working Source: the miss is not
    resolved by the Source, the caller gets [CacheKeyNotFoundError]. *)
Lemma no_disk_miss_never_reaches_source :
  let self := with_persist None s3_query in
  let r := read_value self "foo" empty_world in
  query self (namespaced self "foo") = Returns (PyInt x07)
  /\ fst r = Raise (CacheKeyNotFoundError "Key not found in mem cache")
  /\ query_calls (trace (snd r)) = []
  /\ TTLCache.links (mem (snd r)) = [].
Proof. vm_compute. repeat split. Qed.

(** *** The key the Source is asked for *)

Lemma source_queried_once_with_namespaced_key_witness :
  query_calls (trace (snd (read_value s3_query "foo" empty_world)))
  = query_calls (trace empty_world) ++ [namespaced s3_query "foo"].
Proof.
  apply (source_queried_once_with_namespaced_key
           s3_query empty_world "foo" foo_path); reflexivity.
Defined.

(** The Source is asked for ["S3Query:foo"], not for ["foo"]. *)
Lemma source_is_not_given_the_raw_key :
  query_calls (trace (snd (read_value s3_query "foo" empty_world)))
  = ["S3Query:foo"]
  /\ "S3Query:foo" <> "foo".
Proof. split; [vm_compute; reflexivity | discriminate]. Qed.


(** *** Resolution order *)

Lemma read_resolution_order_witness :
  (* both tiers miss: the Source's 7 is pickled and written through *)
  (let r := read_value s3_query "foo" empty_world in
   fst r = Ok (PyInt x07)
   /\ files (snd r) = <[foo_path := seven]> (files empty_world)
   /\ query_calls (trace (snd r)) = ["S3Query:foo"])
  (* disk hit: promoted into the memory tier, the Source is not asked *)
  /\ (let r := read_value s3_query "foo" disk_world in
      fst r = Ok (PyInt x07)
      /\ TTLCache.getlink "S3Query:foo" (TTLCache.links (mem (snd r)))
         = Some (TTLCache.Entry "S3Query:foo" seven None)
      /\ query_calls (trace (snd r)) = [])
  (* memory hit: neither the disk nor the Source is touched *)
  /\ (let r := read_value s3_query "foo" cached_world in
      fst r = Ok (PyInt x07)
      /\ disk_ops (trace (snd r)) = []
      /\ query_calls (trace (snd r)) = [])
  (* memory miss without disk persistence: not resolved *)
  /\ (let r := read_value (with_persist None s3_query) "foo" disk_world in
      fst r = Raise (CacheKeyNotFoundError "Key not found in mem cache")
      /\ disk_ops (trace (snd r)) = []
      /\ query_calls (trace (snd r)) = []).
Proof.
  split; [|split; [|split]].
  - destruct (read_resolution_order s3_query empty_world "foo" foo_path
                eq_refl) as (_ & _ & _ & H & _).
    destruct (H (PyInt x07) seven) as (H1 & _ & H3 & H4);
      try reflexivity.
    cbn zeta. split; [exact H1|]. split; [exact H3 | exact H4].
  - destruct (read_resolution_order s3_query disk_world "foo" foo_path
                eq_refl) as (_ & _ & H & _).
    destruct (H seven) as (H1 & H2 & H3 & _); try reflexivity.
    cbn zeta. split; [exact H1|]. split; [exact H2 | exact H3].
  - destruct (read_resolution_order s3_query cached_world "foo" foo_path
                eq_refl) as (_ & H & _ & _).
    destruct (H seven) as (H1 & H2 & H3 & _); try reflexivity.
    cbn zeta. split; [exact H1|]. split; [exact H2 | exact H3].
  - destruct (read_resolution_order (with_persist None s3_query) disk_world
                "foo" foo_path eq_refl) as (_ & _ & _ & _ & H).
    destruct H as (H1 & H2 & H3 & _); try reflexivity.
    cbn zeta. split; [exact H1|]. split; [exact H2 | exact H3].
Defined.

(** [MemoCache(persist=None)], a file of the key on disk and a working
    Source: after the memory miss neither the disk tier nor the Source
    is consulted, nothing is written to the memory tier, and the read
    raises. *)
Lemma resolution_stops_at_memory_without_disk :
  let self := with_persist None s3_query in
  let r := read_value self "foo" disk_world in
  persist_is_disk self = false
  /\ TTLCache.lookup (mem disk_world) (now disk_world)
       (namespaced self "foo") = None
  /\ files disk_world !! foo_path = Some seven
  /\ query self (namespaced self "foo") = Returns (PyInt x07)
  /\ pickle_dumps self (PyInt x07) = Returns seven
  /\ fst r = Raise (CacheKeyNotFoundError "Key not found in mem cache")
  /\ disk_ops (trace (snd r)) = []
  /\ query_calls (trace (snd r)) = []
  /\ TTLCache.links (mem (snd r)) = [].
Proof. vm_compute. repeat split. Qed.


(** *** Round trip *)

Lemma write_through_then_read_witness :
  let w1 := snd (_write_value s3_query "S3Query:foo" (PyInt x07)
                   bounded_world) in
  fst (_write_value s3_query "S3Query:foo" (PyInt x07) bounded_world)
    = Ok seven
  /\ fst (read_value s3_query "foo" (advance 5 w1)) = Ok (PyInt x07).
Proof.
  split; [reflexivity|].
  apply (write_through_then_read s3_query bounded_world "foo"
           (PyInt x07) seven _ 5).
  - intros b' [= <-]. reflexivity.
  - reflexivity.
  - lia.
  - cbn. lia.
Defined.

(** *** Undecodable bytes *)

Lemma undecodable_disk_bytes_stay_in_memory_witness :
  let r := read_value s3_query "foo" corrupt_world in
  let rr := reread s3_query "foo" [1; 2; 3] (snd r) in
  fst r = Raise (CacheError "Failed to unpickle S3Query:foo")
  /\ TTLCache.getlink "S3Query:foo" (TTLCache.links (mem (snd r)))
     = Some (TTLCache.Entry "S3Query:foo" [x00] (Some 10))
  /\ Forall (fun r' => r' = Raise (CacheError "Failed to unpickle S3Query:foo"))
       (fst rr)
  /\ length (fst rr) = 3%nat
  /\ disk_ops (trace (snd rr)) = disk_ops (trace (snd r))
  /\ query_calls (trace (snd rr)) = query_calls (trace (snd r)).
Proof.
  destruct (undecodable_disk_bytes_stay_in_memory
              s3_query corrupt_world "foo" foo_path [x00] UnpicklingError)
    as (H1 & H2 & H3); try reflexivity.
  destruct (H3 [1; 2; 3]) as (H4 & H5 & H6 & H7 & _).
  - repeat constructor; lia.
  - cbn. lia.
  - cbn zeta. split; [exact H1|]. split; [exact H2|].
    split; [exact H4|]. split; [exact H5|]. split; [exact H6 | exact H7].
Defined.


(** *** Memory entries and disk files *)




(** *** Failed disk writes *)

Lemma failed_write_is_cleaned_up_witness :
  let self :=
    with_write_fault (fun _ => Some (WriteFailure UtilError (Some [])))
      s3_query in
  let r := _write_to_disk_cache self "S3Query:foo" seven empty_world in
  fst r = Raise (CacheError "Unable to write to cache")
  /\ files (snd r) !! foo_path = None
  /\ trace (snd r)
     = [EvMakedirs "./cache/S3Query"; EvDiskWrite foo_path; EvLog Debug;
        EvDiskRemove foo_path].
Proof.
  destruct (failed_write_is_cleaned_up
              (with_write_fault
                 (fun _ => Some (WriteFailure UtilError (Some [])))
                 s3_query)
              empty_world "S3Query:foo" foo_path seven
              (WriteFailure UtilError (Some [])))
    as (H1 & H2 & H3 & _); try reflexivity.
  cbn zeta. split; [|split].
  - apply H2. intros e He. discriminate He.
  - apply H3. reflexivity.
  - exact H1.
Defined.

(** The write fails after creating an empty file, and [os.remove] fails
    too: the zero-byte file stays. *)
Lemma failed_cleanup_leaves_empty_file :
  let self :=
    with_remove_fault (fun _ => Some OSError)
      (with_write_fault (fun _ => Some (WriteFailure UtilError (Some [])))
         s3_query) in
  let r := read_value self "foo" empty_world in
  fst r = Raise (CacheError "Unable to write to cache")
  /\ files (snd r) !! foo_path = Some [].
Proof. vm_compute. repeat split. Qed.

(** *** [clear] *)



(** *** Errors *)

Lemma read_cache_errors_witness :
  (* a damaged file: [pickle.loads] raises [UnpicklingError] *)
  fst (read_value s3_query "foo" corrupt_world)
  = Raise (CacheError ("Failed to unpickle " +:+ namespaced s3_query "foo"))
  (* a Source that answers a function: [pickle.dumps] raises
     [PicklingError] *)
  /\ (let self := with_query (fun _ => Returns PyLambda) s3_query in
      fst (read_value self "foo" empty_world)
      = Raise (CacheError ("Failed to pickle " +:+ namespaced self "foo"))).
Proof.
  split.
  - destruct (read_cache_errors s3_query corrupt_world "foo") as [[_ H] _].
    apply H. exists [x00]. split; reflexivity.
  - destruct (read_cache_errors
                (with_query (fun _ => Returns PyLambda) s3_query)
                empty_world "foo") as (_ & [_ H] & _).
    apply H. repeat split.
    + exists foo_path. split; reflexivity.
    + exists PyLambda. split; reflexivity.
Defined.

(** The file is there and holds a good pickle, but cannot be read:
    [CacheError] without any value failing to pickle or unpickle. *)
Lemma unreadable_file_is_cache_error :
  let self := with_read_fault (fun _ => Some OSError) s3_query in
  let r := read_value self "foo" disk_world in
  fst r = Raise (CacheError "Unable to read from cache")
  /\ files disk_world !! foo_path = Some seven
  /\ pickle_loads self seven = Returns (PyInt x07)
  /\ query_calls (trace (snd r)) = [].
Proof. vm_compute. repeat split. Qed.

(** *** Disk paths *)

Lemma disk_path_derivation_witness :
  key_path s3_query "S3Query:foo"
  = Some (cache_root s3_query
            +:+ ("S3Query" +:+ String sep ("foo" +:+ ".memo")))
  /\ cache_root s3_query = "/app/cache/"
  /\ ("S3Query:foo" <> "S3Query:bar"
      -> key_path s3_query "S3Query:foo" <> key_path s3_query "S3Query:bar").
Proof.
  destruct (disk_path_derivation s3_query) as (_ & _ & H3 & H4).
  split; [|split].
  - apply H3; reflexivity.
  - reflexivity.
  - intros Hne Heq. apply Hne. apply H4; [reflexivity|reflexivity|exact Heq].
Defined.

(** Two keys of one cache with one file, and a call of
    [_get_file_path] that creates a directory. *)
Lemma disk_path_collision :
  key_path s3_query "S3Query:x" = Some "/app/cache/S3Query/x.memo"
  /\ key_path s3_query "S3Query:./x" = Some "/app/cache/S3Query/x.memo"
  /\ "S3Query:x" <> "S3Query:./x"
  /\ elements (dirs empty_world) = []
  /\ elements (dirs (snd (_get_file_path s3_query "S3Query:x" empty_world)))
     = ["/app/cache/S3Query"].
Proof.
  split; [vm_compute; reflexivity|]. split; [vm_compute; reflexivity|].
  split; [discriminate|]. split; vm_compute; reflexivity.
Qed.

End Cases.


(* ===================================================================== *)
(** ** What the write methods leave alone *)
(* ===================================================================== *)

Section WriteFrames.
Context {V : Type} (self : Env V).
Implicit Types (w : World) (k p key : string) (b : bytes).

Lemma after_failed_write_frame key p f w :
  mem (after_failed_write self key p f w) = mem w
  /\ now (after_failed_write self key p f w) = now w
  /\ (forall p', p' <> p ->
        files (after_failed_write self key p f w) !! p' = files w !! p')
  /\ query_calls (trace (after_failed_write self key p f w))
     = query_calls (trace w).
Proof.
  unfold after_failed_write.
  destruct (wf_left f); cbn [mem now files trace set_files record];
    rewrite ensure_dir_mem, ensure_dir_now, ensure_dir_trace, ?ensure_dir_files;
    repeat split; try (now world_simpl).
  intros p' Hne. now apply lookup_insert_ne.
Qed.

(** [_write_to_disk_cache] changes nothing but the file of its key. *)
Lemma _write_to_disk_cache_frame key p b w :
  key_path self key = Some p ->
  let w' := snd (_write_to_disk_cache self key b w) in
  mem w' = mem w /\ now w' = now w
  /\ (forall p', p' <> p -> files w' !! p' = files w !! p')
  /\ query_calls (trace w') = query_calls (trace w).
Proof.
  intros Hp. cbn zeta. rewrite (_write_to_disk_cache_eq self key p b w Hp).
  destruct (write_fault self p) as [f|].
  - cbn zeta.
    destruct (after_failed_write_frame key p f w) as (H1 & H2 & H3 & H4).
    assert (Hc : let w' := after_cleanup self p
                             (after_failed_write self key p f w) in
                 mem w' = mem w /\ now w' = now w
                 /\ (forall p', p' <> p -> files w' !! p' = files w !! p')
                 /\ query_calls (trace w') = query_calls (trace w)).
    { unfold after_cleanup, after_remove, remove_file.
      cbn [mem now files trace set_files record]. repeat split; try assumption.
      - intros p' Hne. rewrite <- (H3 p' Hne).
        destruct (_ !! p); [|reflexivity].
        destruct (remove_fault self p); [reflexivity|].
        now apply lookup_delete_ne.
      - world_simpl. exact H4. }
    destruct (wf_exn f); cbn [snd]; first [exact Hc | now repeat split].
  - cbn [snd]. repeat split; try (now world_simpl).
    intros p' Hne. world_simpl. now apply lookup_insert_ne.
Qed.

(** [_write_value] leaves the memory tier as it was or as one assignment
    to its key leaves it, changes no file but the key's, and does not ask
    the Source. *)
Lemma _write_value_frame key p v w :
  key_path self key = Some p ->
  let w' := snd (_write_value self key v w) in
  now w' = now w
  /\ (mem w' = mem w
      \/ exists b, mem w' = snd (TTLCache.setitem (mem w) (now w) key b))
  /\ (forall p', p' <> p -> files w' !! p' = files w !! p')
  /\ query_calls (trace w') = query_calls (trace w).
Proof.
  intros Hp. cbn zeta. rewrite _write_value_eq.
  destruct (pickle_dumps self v) as [b|e].
  2:{ destruct e; cbn [snd]; repeat split; auto. }
  cbn zeta.
  set (w1 := after_mem_set key _ w).
  assert (H1 : now w1 = now w
               /\ mem w1 = snd (TTLCache.setitem (mem w) (now w) key b)
               /\ files w1 = files w
               /\ query_calls (trace w1) = query_calls (trace w)).
  { subst w1. repeat split; now world_simpl. }
  destruct H1 as (Hn & Hm & Hf & Hq).
  destruct (fst (TTLCache.setitem (mem w) (now w) key b)).
  { cbn [snd]. repeat split; eauto; intros p' _; now rewrite Hf. }
  destruct (persist_is_disk self).
  2:{ cbn [snd]. repeat split; eauto; intros p' _; now rewrite Hf. }
  cbn [snd].
  destruct (_write_to_disk_cache_frame key p b w1 Hp) as (G1 & G2 & G3 & G4).
  repeat split.
  - congruence.
  - right. exists b. congruence.
  - intros p' Hne. rewrite (G3 p' Hne). now rewrite Hf.
  - congruence.
Qed.

End WriteFrames.


(* ===================================================================== *)
(** ** What a read leaves alone *)
(* ===================================================================== *)

Section ReadFrames.
Context {V : Type} (self : Env V).
Implicit Types (w : World) (k p key : string) (b : bytes).

Lemma read_value_frame w k p :
  key_path self (namespaced self k) = Some p ->
  let nk := namespaced self k in
  let w' := snd (read_value self k w) in
  now w' = now w
  /\ (mem w' = mem w
      \/ mem w' = TTLCache.touch (mem w) nk
      \/ exists b, mem w' = snd (TTLCache.setitem (mem w) (now w) nk b))
  /\ (forall p', p' <> p -> files w' !! p' = files w !! p')
  /\ query_calls (trace w')
     = query_calls (trace w)
         ++ match TTLCache.lookup (mem w) (now w) (namespaced self k),
                  persist_is_disk self, disk_peek self p w with
            | None, true, Throws FileNotFoundError => [namespaced self k]
            | _, _, _ => []
            end.
Proof.
  intros Hp. cbn zeta.
  rewrite read_value_eq. cbn [snd].
  set (nk := namespaced self k) in *.
  rewrite (read_pickled_eq self nk p w Hp).
  destruct (TTLCache.lookup (mem w) (now w) nk).
  { cbn [snd]. repeat split; auto; now world_simpl. }
  cbn zeta. destruct (persist_is_disk self) eqn:Hd.
  2:{ repeat split; auto; now world_simpl. }
  destruct (disk_peek self p w) as [b|e].
  { cbn [snd]. repeat split; try (now world_simpl).
    right. right. exists b. now world_simpl. }
  assert (Hsame : forall ev,
            let w' := record ev (after_disk_read self nk p
                                   (after_mem_miss nk w)) in
            now w' = now w /\ mem w' = mem w /\ files w' = files w).
  { intros ev. repeat split; now world_simpl. }
  assert (Hlog : forall lvl,
            let w' := record (EvLog lvl) (after_disk_read self nk p
                                            (after_mem_miss nk w)) in
            now w' = now w
            /\ (mem w' = mem w
                \/ mem w' = TTLCache.touch (mem w) nk
                \/ exists b, mem w'
                             = snd (TTLCache.setitem (mem w) (now w) nk b))
            /\ (forall p', p' <> p -> files w' !! p' = files w !! p')
            /\ query_calls (trace w') = query_calls (trace w) ++ []).
  { intros lvl. destruct (Hsame (EvLog lvl)) as (Hn & Hm & Hf).
    split; [exact Hn|]. split; [now left|].
    split; [intros p' _; now rewrite Hf | now world_simpl]. }
  destruct e; try (cbn [snd]; apply Hlog).
  destruct (Hsame (EvQuery nk)) as (Hn & Hm & Hf).
  assert (Hq : query_calls (trace (record (EvQuery nk)
                 (after_disk_read self nk p (after_mem_miss nk w))))
               = query_calls (trace w) ++ [nk]).
  { now world_simpl. }
  destruct (query self nk) as [v|e].
  2:{ cbn [snd]. split; [exact Hn|]. split; [now left|].
      split; [intros p' _; now rewrite Hf | exact Hq]. }
  destruct (_write_value_frame self nk p v
              (record (EvQuery nk)
                 (after_disk_read self nk p (after_mem_miss nk w))) Hp)
    as (G1 & G2 & G3 & G4).
  repeat split.
  - congruence.
  - destruct G2 as [G2|[b G2]]; [left; congruence|].
    right. right. exists b. rewrite G2. now rewrite Hm, Hn.
  - intros p' Hne. rewrite (G3 p' Hne). now rewrite Hf.
  - congruence.
Qed.

End ReadFrames.


Section ReadFootprint.
Context {V : Type} (self : Env V).
Implicit Types (w : World) (k p key : string) (b : bytes).

(** X1. A read of [k] creates, changes or removes no disk file other
    than the file of [k], whatever path it takes and however it ends. *)
Theorem read_changes_no_other_file w k p p' :
  key_path self (namespaced self k) = Some p ->
  p' <> p ->
  files (snd (read_value self k w)) !! p' = files w !! p'.
Proof.
  intros Hp Hne.
  destruct (read_value_frame self w k p Hp) as (_ & _ & H & _).
  now apply H.
Qed.

(** X2. A read of [k] never changes the bytes another key is bound to in
    the memory tier: what a lookup of another key finds after the read,
    it found before (the read can only have evicted it). *)
Theorem read_changes_no_other_binding w k k' b' :
  TTLCache.wf (mem w) ->
  k' <> namespaced self k ->
  TTLCache.lookup (mem (snd (read_value self k w)))
    (now (snd (read_value self k w))) k' = Some b' ->
  TTLCache.lookup (mem w) (now w) k' = Some b'.
Proof.
  intros Hwf Hne.
  destruct (namespaced_has_path self k) as [p Hp].
  destruct (read_value_frame self w k p Hp) as (Hn & Hm & _ & _).
  cbn zeta in Hn, Hm. rewrite Hn.
  destruct Hm as [-> | [-> | [b ->]]].
  - trivial.
  - now rewrite TTLCacheFacts.lookup_touch.
  - intros H.
    apply TTLCacheFacts.lookup_setitem in H as [(_ & -> & _)|H];
      [contradiction | exact H | exact Hwf].
Qed.

(** X3. One read asks the Source at most once, and it asks it exactly
    when the memory tier misses, [persist] is ["disk"] and the disk file
    of the key is absent: never on a memory hit, on a disk hit, after a
    failed disk read, or without disk persistence. *)
Theorem source_asked_only_on_full_miss w k p :
  key_path self (namespaced self k) = Some p ->
  query_calls (trace (snd (read_value self k w)))
  = query_calls (trace w)
      ++ match TTLCache.lookup (mem w) (now w) (namespaced self k),
               persist_is_disk self, disk_peek self p w with
         | None, true, Throws FileNotFoundError => [namespaced self k]
         | _, _, _ => []
         end.
Proof.
  intros Hp.
  destruct (read_value_frame self w k p Hp) as (_ & _ & _ & H).
  exact H.
Qed.

(** X4. A failure of the Source is passed to the caller as it is and
    nothing is cached: both tiers are as they were. *)
Theorem source_failure_is_not_cached w k p e :
  let nk := namespaced self k in
  let r := read_value self k w in
  key_path self nk = Some p ->
  TTLCache.lookup (mem w) (now w) nk = None ->
  persist_is_disk self = true ->
  disk_peek self p w = Throws FileNotFoundError ->
  query self nk = Throws e ->
  fst r = Raise (PyExn e)
  /\ mem (snd r) = mem w
  /\ files (snd r) = files w.
Proof.
  intros nk r Hp Hm Hd Hb Hq. subst r nk.
  rewrite read_value_eq, (read_pickled_eq self _ p w Hp), Hm.
  cbn zeta. rewrite Hd, Hb, Hq. cbn [fst snd].
  repeat split; now world_simpl.
Qed.

(** X5. A value of the Source that [pickle.dumps] rejects is not cached:
    the read raises ([CacheError] for a [PicklingError], the exception of
    [pickle] itself otherwise) after the Source was asked, and both tiers
    are as they were. *)
Theorem unpicklable_value_is_not_cached w k p v e :
  let nk := namespaced self k in
  let r := read_value self k w in
  key_path self nk = Some p ->
  TTLCache.lookup (mem w) (now w) nk = None ->
  persist_is_disk self = true ->
  disk_peek self p w = Throws FileNotFoundError ->
  query self nk = Returns v ->
  pickle_dumps self v = Throws e ->
  fst r = Raise (match e with
                 | PicklingError => CacheError ("Failed to pickle " +:+ nk)
                 | _ => PyExn e
                 end)
  /\ mem (snd r) = mem w
  /\ files (snd r) = files w
  /\ query_calls (trace (snd r)) = query_calls (trace w) ++ [nk].
Proof.
  intros nk r Hp Hm Hd Hb Hq Hv. subst r nk.
  rewrite read_value_eq, (read_pickled_eq self _ p w Hp), Hm.
  cbn zeta. rewrite Hd, Hb, Hq, _write_value_eq, Hv.
  destruct e; cbn [fst snd]; repeat split; now world_simpl.
Qed.

End ReadFootprint.


(* ===================================================================== *)
(** ** More facts about the memory tier *)
(* ===================================================================== *)

Module TTLCacheMore.
Import TTLCache.

Lemma lookup_expired c time k v x :
  getlink k (links c) = Some (Entry k v (Some x)) ->
  x <= time ->
  lookup c time k = None.
Proof.
  unfold lookup, fresh. intros -> Hx. simpl.
  destruct (Z.ltb_spec time x); [lia | reflexivity].
Qed.

Lemma lookup_In_keys c time k b :
  lookup c time k = Some b -> List.In k (keys c time).
Proof.
  unfold lookup, keys.
  destruct (getlink k (links c)) as [e|] eqn:E; [|discriminate].
  destruct (fresh time e) eqn:F; [|discriminate]. intros _.
  apply List.in_map_iff. exists e. split.
  - now apply (TTLCacheFacts.getlink_key k (links c)).
  - apply List.filter_In. split; [|exact F].
    now apply (TTLCacheFacts.getlink_In k).
Qed.

Lemma lookup_entry_inv c time k b :
  lookup c time k = Some b ->
  exists e, getlink k (links c) = Some e /\ value e = b /\ fresh time e = true.
Proof.
  unfold lookup.
  destruct (getlink k (links c)) as [e|]; [|discriminate].
  destruct (fresh time e) eqn:F; [|discriminate].
  intros [= <-]. eauto.
Qed.

Lemma touch_config c k :
  maxsize (touch c k) = maxsize c /\ ttl (touch c k) = ttl c.
Proof. unfold touch. now destruct (getlink k (links c)). Qed.

Lemma setitem_config c time k v :
  maxsize (snd (setitem c time k v)) = maxsize c
  /\ ttl (snd (setitem c time k v)) = ttl c.
Proof.
  unfold setitem.
  now destruct (match maxsize c with
                | Some m => (m <? 1)%nat | None => false end).
Qed.

(** An assignment fails exactly when the cache admits no entry. *)
Lemma setitem_fst c time k v :
  fst (setitem c time k v) = if admits c then None else Some ValueError.
Proof.
  unfold setitem, admits.
  destruct (maxsize c) as [m|]; [|reflexivity].
  now destruct (m <? 1)%nat.
Qed.

Lemma lookup_nil m t time k : lookup (Make m t []) time k = None.
Proof. reflexivity. Qed.

End TTLCacheMore.

(* ===================================================================== *)
(** ** Reads that follow a read *)
(* ===================================================================== *)

Section Promotion.
Context {V : Type} (self : Env V).
Implicit Types (w : World) (k p key : string) (b : bytes).

(** When [_write_value] returns, the bytes it returns are in the memory
    tier and, with disk persistence, in the file of the key. *)
Lemma _write_value_ok key p v w b :
  key_path self key = Some p ->
  fst (_write_value self key v w) = Ok b ->
  let w' := snd (_write_value self key v w) in
  now w' = now w
  /\ TTLCache.admits (mem w) = true
  /\ mem w' = snd (TTLCache.setitem (mem w) (now w) key b)
  /\ (persist_is_disk self = true -> files w' !! p = Some b).
Proof.
  intros Hp. rewrite _write_value_eq.
  destruct (pickle_dumps self v) as [b0|e]; [|now destruct e].
  cbn zeta. rewrite TTLCacheMore.setitem_fst.
  destruct (TTLCache.admits (mem w)); [|discriminate].
  destruct (persist_is_disk self).
  2:{ cbn [fst snd]. intros [= <-].
      repeat split; first [now world_simpl | discriminate]. }
  cbn [fst snd].
  rewrite (_write_to_disk_cache_eq self key p b0 _ Hp).
  destruct (write_fault self p) as [f|].
  { cbn zeta. destruct (wf_exn f); cbn [fst snd]; try discriminate.
    destruct (_ !! p); [|discriminate].
    destruct (remove_fault self p) as [e'|]; [|discriminate].
    destruct (is_OSError e'); discriminate. }
  cbn [fst snd]. intros [= <-]. repeat split; try (now world_simpl).
  intros _. world_simpl. apply lookup_insert_eq.
Qed.

(** A read that misses the memory tier and obtains bytes leaves them in
    the memory tier, with a full time to live, and in the file of the
    key. *)
Lemma read_pickled_promotes w k p b :
  let nk := namespaced self k in
  let w' := snd (read_pickled self nk w) in
  key_path self nk = Some p ->
  TTLCache.lookup (mem w) (now w) nk = None ->
  fst (read_pickled self nk w) = Ok b ->
  now w' = now w
  /\ persist_is_disk self = true
  /\ TTLCache.admits (mem w) = true
  /\ TTLCache.admits (mem w') = true
  /\ TTLCache.ttl (mem w') = TTLCache.ttl (mem w)
  /\ TTLCache.getlink nk (TTLCache.links (mem w'))
     = Some (TTLCache.Entry nk b (TTLCache.expiry (mem w) (now w)))
  /\ files w' !! p = Some b.
Proof.
  intros nk w' Hp Hm. subst w'.
  rewrite (read_pickled_eq self nk p w Hp), Hm. cbn zeta.
  destruct (persist_is_disk self) eqn:Hd; [|discriminate].
  assert (Hset : forall b0 w0,
            TTLCache.admits (mem w) = true ->
            mem w0 = snd (TTLCache.setitem (mem w) (now w) nk b0) ->
            TTLCache.admits (mem w0) = true
            /\ TTLCache.ttl (mem w0) = TTLCache.ttl (mem w)
            /\ TTLCache.getlink nk (TTLCache.links (mem w0))
               = Some (TTLCache.Entry nk b0
                         (TTLCache.expiry (mem w) (now w)))).
  { intros b0 w0 Ha ->.
    destruct (TTLCacheFacts.setitem_admits (mem w) (now w) nk b0 Ha)
      as (c & Hs & Hmax & Httl & Hc).
    rewrite Hs. cbn [snd]. repeat split; try assumption.
    unfold TTLCache.admits in *. now rewrite Hmax. }
  destruct (disk_peek self p w) as [b0|e] eqn:Hb.
  - cbn [fst snd]. rewrite TTLCacheMore.setitem_fst.
    destruct (TTLCache.admits (mem w)) eqn:Ha; [|discriminate].
    intros [= <-].
    destruct (Hset b0 (after_mem_set nk
                         (snd (TTLCache.setitem (mem w) (now w) nk b0))
                         (record (EvLog Debug)
                            (after_disk_read self nk p
                               (after_mem_miss nk w)))) eq_refl)
      as (H1 & H2 & H3); [now world_simpl|].
    repeat split; try assumption; world_simpl; try reflexivity.
    unfold disk_peek in Hb. destruct (files w !! p); [|discriminate].
    destruct (read_fault self p); [discriminate|]. now injection Hb as ->.
  - destruct e; try discriminate.
    destruct (query self nk) as [v|e]; [|discriminate].
    intros Hok.
    destruct (_write_value_ok nk p v _ b Hp Hok) as (G1 & G2 & G3 & G4).
    revert G1 G2 G3. world_simpl. intros G1 G2 G3.
    destruct (Hset b _ G2 G3) as (H1 & H2 & H3).
    repeat split; auto.
Qed.

(** X6. If a read that missed the memory tier returned [v], every read
    of the key made before the time to live has run out returns [v]
    again, from memory: the Source is not asked and the disk is not
    touched. *)
Theorem read_again_is_served_from_memory w k v dt :
  let r1 := read_value self k w in
  let r2 := read_value self k (advance dt (snd r1)) in
  TTLCache.lookup (mem w) (now w) (namespaced self k) = None ->
  fst r1 = Ok v ->
  0 <= dt ->
  match TTLCache.ttl (mem w) with Some d => dt < d | None => True end ->
  fst r2 = Ok v
  /\ query_calls (trace (snd r2)) = query_calls (trace (snd r1))
  /\ disk_ops (trace (snd r2)) = disk_ops (trace (snd r1))
  /\ files (snd r2) = files (snd r1).
Proof.
  intros r1 r2 Hm Hv Hdt Httl. subst r1 r2.
  destruct (namespaced_has_path self k) as [p Hp].
  rewrite read_value_eq in Hv. cbn [fst] in Hv.
  destruct (fst (read_pickled self (namespaced self k) w)) as [b|e] eqn:Hrp;
    [|discriminate].
  destruct (read_pickled_promotes w k p b Hp Hm Hrp)
    as (Hn & _ & _ & _ & _ & Hc & _).
  set (w1 := snd (read_value self k w)).
  assert (Hw1 : w1 = snd (read_pickled self (namespaced self k) w)).
  { subst w1. now rewrite read_value_eq. }
  assert (Hhit : TTLCache.lookup (mem (advance dt w1)) (now (advance dt w1))
                   (namespaced self k) = Some b).
  { cbn [advance mem now]. rewrite Hw1.
    apply (TTLCacheFacts.lookup_entry _ _ _ _ _ Hc).
    unfold TTLCache.expiry. rewrite Hn.
    destruct (TTLCache.ttl (mem w)); [lia | exact I]. }
  rewrite (read_value_mem_hit self _ k b Hhit). cbn [fst snd].
  repeat split; try exact Hv; now world_simpl.
Qed.

(** X7. With disk persistence, a value that was returned outlives its
    time to live in the memory tier: a read made after the entry has
    expired returns it again from the disk file, without asking the
    Source. *)
Theorem expired_entry_is_served_from_disk w k p v d dt :
  let r1 := read_value self k w in
  let r2 := read_value self k (advance dt (snd r1)) in
  key_path self (namespaced self k) = Some p ->
  read_fault self p = None ->
  TTLCache.lookup (mem w) (now w) (namespaced self k) = None ->
  fst r1 = Ok v ->
  TTLCache.ttl (mem w) = Some d ->
  d <= dt ->
  fst r2 = Ok v
  /\ query_calls (trace (snd r2)) = query_calls (trace (snd r1))
  /\ files (snd r2) = files (snd r1).
Proof.
  intros r1 r2 Hp Hrf Hm Hv Httl Hdt. subst r1 r2.
  rewrite read_value_eq in Hv. cbn [fst] in Hv.
  destruct (fst (read_pickled self (namespaced self k) w)) as [b|e] eqn:Hrp;
    [|discriminate].
  destruct (read_pickled_promotes w k p b Hp Hm Hrp)
    as (Hn & Hd & _ & Ha & _ & Hc & Hf).
  set (w1 := snd (read_value self k w)).
  assert (Hw1 : w1 = snd (read_pickled self (namespaced self k) w)).
  { subst w1. now rewrite read_value_eq. }
  rewrite <- Hw1 in Hn, Ha, Hc, Hf.
  set (w2 := advance dt w1).
  assert (Hmiss : TTLCache.lookup (mem w2) (now w2) (namespaced self k)
                  = None).
  { subst w2. cbn [advance mem now].
    unfold TTLCache.expiry in Hc. rewrite Httl in Hc.
    apply (TTLCacheMore.lookup_expired _ _ _ _ _ Hc). lia. }
  assert (Hpeek : disk_peek self p w2 = Returns b).
  { unfold disk_peek. subst w2. cbn [advance files]. now rewrite Hf, Hrf. }
  destruct (TTLCacheFacts.setitem_admits (mem w2) (now w2)
              (namespaced self k) b Ha) as (c & Hs & _).
  rewrite (read_value_disk_hit self w2 k p b c Hp Hmiss Hd Hpeek Hs).
  cbn [fst snd]. repeat split; try exact Hv; now world_simpl.
Qed.

End Promotion.


(** X8. A cache that admits no entry ([max_entries = 0]) never returns
    a value: every read whose memory lookup misses raises. *)
Theorem zero_capacity_cache_returns_nothing
    {V : Type} (self : Env V) (w : World) (k : string) (v : V) :
  TTLCache.admits (mem w) = false ->
  TTLCache.lookup (mem w) (now w) (namespaced self k) = None ->
  fst (read_value self k w) <> Ok v.
Proof.
  intros Ha Hm Hv.
  destruct (namespaced_has_path self k) as [p Hp].
  rewrite read_value_eq in Hv. cbn [fst] in Hv.
  destruct (fst (read_pickled self (namespaced self k) w)) as [b|e] eqn:Hrp;
    [|discriminate].
  destruct (read_pickled_promotes self w k p b Hp Hm Hrp)
    as (_ & _ & Ha' & _).
  congruence.
Qed.

(* ===================================================================== *)
(** ** The disk tier on its own *)
(* ===================================================================== *)

Section DiskTier.
Context {V : Type} (self : Env V).
Implicit Types (w : World) (k p key : string) (b : bytes).

Lemma remove_file_other p p' (f : gmap string bytes) :
  p' <> p -> remove_file self p f !! p' = f !! p'.
Proof.
  intros Hne. unfold remove_file.
  destruct (f !! p); [|reflexivity].
  destruct (remove_fault self p); [reflexivity|].
  now apply lookup_delete_ne.
Qed.



(** X10. Round trip of the disk tier: what [_write_to_disk_cache] wrote
    for a key, [_read_from_disk_cache] reads back for that key. *)
Theorem disk_write_then_read w key p b :
  let r1 := _write_to_disk_cache self key b w in
  key_path self key = Some p ->
  write_fault self p = None ->
  read_fault self p = None ->
  fst r1 = Ok tt
  /\ fst (_read_from_disk_cache self key (snd r1)) = Ok b.
Proof.
  intros r1 Hp Hw Hr. subst r1.
  rewrite (_write_to_disk_cache_eq self key p b w Hp), Hw. cbn [fst snd].
  split; [reflexivity|].
  rewrite (_read_from_disk_cache_eq self key p _ Hp).
  unfold disk_peek. rewrite after_write_files, lookup_insert_eq, Hr.
  reflexivity.
Qed.

End DiskTier.

(* ===================================================================== *)
(** ** The memory tier on its own *)
(* ===================================================================== *)

Section MemoryTier.
Implicit Types (w : World) (key : string) (b : bytes).

(** X11. The memory tier is last-writer-wins: after two writes under one
    key, a read made before the time to live has run out finds the bytes
    of the second. *)
Theorem memory_write_then_read w key b1 b2 dt :
  let w1 := snd (_write_to_mem_cache key b1 w) in
  let r2 := _write_to_mem_cache key b2 w1 in
  TTLCache.admits (mem w) = true ->
  0 <= dt ->
  match TTLCache.ttl (mem w) with Some d => dt < d | None => True end ->
  fst r2 = Ok tt
  /\ fst (_read_from_mem_cache key (advance dt (snd r2))) = Ok b2.
Proof.
  intros w1 r2 Ha Hdt Httl. subst r2 w1.
  rewrite !_write_to_mem_cache_eq. cbn [fst snd]. world_simpl.
  destruct (TTLCacheFacts.setitem_admits (mem w) (now w) key b1 Ha)
    as (c1 & Hs1 & Hmax1 & Httl1 & _).
  rewrite Hs1. cbn [fst snd].
  assert (Ha1 : TTLCache.admits c1 = true).
  { unfold TTLCache.admits in *. now rewrite Hmax1. }
  destruct (TTLCacheFacts.setitem_admits c1 (now w) key b2 Ha1)
    as (c2 & Hs2 & _ & _ & Hc2).
  rewrite Hs2. cbn [fst snd]. split; [reflexivity|].
  erewrite _read_from_mem_cache_hit; [reflexivity|].
  cbn [advance mem now]. world_simpl.
  apply (TTLCacheFacts.lookup_entry _ _ _ _ _ Hc2).
  unfold TTLCache.expiry. rewrite Httl1.
  destruct (TTLCache.ttl (mem w)); [lia | exact I].
Qed.

End MemoryTier.

(* ===================================================================== *)
(** ** [clear] and the reads around it *)
(* ===================================================================== *)

Section ClearMore.
Context {V : Type} (self : Env V).
Implicit Types (w : World) (k p key : string) (b : bytes).

Lemma after_removals_other keys p : forall w,
  Forall (fun k => is_Some (key_path self k)) keys ->
  (forall k, List.In k keys -> key_path self k <> Some p) ->
  files (after_removals self keys w) !! p = files w !! p.
Proof.
  induction keys as [|k keys IH]; intros w Hk Hp; [reflexivity|].
  inversion Hk as [|? ? [pk Hpk] Hk']; subst.
  cbn [after_removals]. rewrite Hpk.
  rewrite IH; [|exact Hk'|intros k' Hin; apply Hp; now right].
  destruct (after_remove_from_disk_spec self k pk w) as (_ & _ & -> & _).
  apply remove_file_other. intros ->. apply (Hp k); [now left|exact Hpk].
Qed.

(** X12. [clear] removes only the files of the keys the memory tier
    holds unexpired: every other file, such as the file of a key whose
    entry has expired or was evicted, is left as it is. *)
Theorem clear_leaves_untracked_files w p :
  Forall (fun k => is_Some (key_path self k))
    (TTLCache.keys (mem w) (now w)) ->
  (forall k, List.In k (TTLCache.keys (mem w) (now w)) ->
             key_path self k <> Some p) ->
  files (snd (clear self w)) !! p = files w !! p.
Proof.
  intros Hk Hp. rewrite (clear_eq self w Hk). cbn [snd files record set_mem].
  now rewrite after_removals_other.
Qed.

(** X13. After [clear], a read of a key that was cached finds neither
    its memory entry nor (when its removal did not fail) its file, and
    asks the Source again. *)
Theorem clear_then_read_asks_source_again w k p b :
  let nk := namespaced self k in
  let w1 := snd (clear self w) in
  Forall (fun k => is_Some (key_path self k))
    (TTLCache.keys (mem w) (now w)) ->
  persist_is_disk self = true ->
  key_path self nk = Some p ->
  TTLCache.lookup (mem w) (now w) nk = Some b ->
  remove_fault self p = None ->
  TTLCache.lookup (mem w1) (now w1) nk = None
  /\ files w1 !! p = None
  /\ query_calls (trace (snd (read_value self k w1)))
     = query_calls (trace w1) ++ [nk].
Proof.
  intros nk w1 Hk Hd Hp Hm Hrf.
  assert (Hmem : TTLCache.lookup (mem w1) (now w1) nk = None).
  { subst w1. now rewrite (clear_eq self w Hk). }
  assert (Hfile : files w1 !! p = None).
  { subst w1. rewrite (clear_eq self w Hk). cbn [snd files record set_mem].
    destruct (after_removals_spec self (TTLCache.keys (mem w) (now w))
                (record EvMemKeys (record EvAcquire w)) Hk)
      as (_ & _ & _ & H & _).
    destruct (H nk p) as [Hnone|[[e He] _]].
    - now apply (TTLCacheMore.lookup_In_keys _ _ _ b).
    - exact Hp.
    - exact Hnone.
    - congruence. }
  split; [exact Hmem|]. split; [exact Hfile|].
  destruct (read_value_frame self w1 k p Hp) as (_ & _ & _ & H).
  cbn zeta in H. rewrite H. fold nk.
  rewrite Hmem, Hd. unfold disk_peek. now rewrite Hfile.
Qed.

End ClearMore.


(* ===================================================================== *)
(** ** Sessions: what holds after any sequence of calls *)
(* ===================================================================== *)

Section Sessions.
Context {V : Type} (self : Env V).
Implicit Types (w : World) (k p key : string) (b : bytes).

Lemma perform_invariant c w t m :
  keys_namespaced self w /\ max_entries w = m /\ ttl w = t ->
  keys_namespaced self (perform self c w)
  /\ max_entries (perform self c w) = m
  /\ ttl (perform self c w) = t.
Proof.
  unfold max_entries, ttl. intros (Hk & Hm & Ht).
  destruct c as [k| |dt]; cbn [perform].
  - split; [now apply read_value_keys_namespaced|].
    destruct (namespaced_has_path self k) as [p Hp].
    destruct (read_value_frame self w k p Hp) as (_ & Hmem & _).
    cbn zeta in Hmem. destruct Hmem as [-> | [-> | [b ->]]].
    + now split.
    + destruct (TTLCacheMore.touch_config (mem w) (namespaced self k))
        as [-> ->]. now split.
    + destruct (TTLCacheMore.setitem_config (mem w) (now w)
                  (namespaced self k) b) as [-> ->]. now split.
  - rewrite (clear_eq self w (keys_namespaced_keys self w Hk)).
    cbn [snd mem record set_mem TTLCache.clear TTLCache.maxsize TTLCache.ttl].
    destruct (after_removals_spec self (TTLCache.keys (mem w) (now w))
                (record EvMemKeys (record EvAcquire w))
                (keys_namespaced_keys self w Hk)) as (-> & _).
    split; [intros e []|]. now split.
  - now split.
Qed.

Lemma session_invariant cs : forall w t m,
  keys_namespaced self w /\ max_entries w = m /\ ttl w = t ->
  keys_namespaced self (session self cs w)
  /\ max_entries (session self cs w) = m
  /\ ttl (session self cs w) = t.
Proof.
  induction cs as [|c cs IH]; intros w t m H; [exact H|].
  cbn [session]. apply IH. now apply perform_invariant.
Qed.

Lemma init_invariant t m w0 :
  keys_namespaced self (init t m w0)
  /\ max_entries (init t m w0) = m /\ ttl (init t m w0) = t.
Proof. split; [intros e []|]. now split. Qed.

(** X14. The configuration of an instance is fixed at construction:
    after any sequence of reads, clears and waits, whether they returned
    or raised, [max_entries] and [ttl] are the constructor's arguments. *)
Theorem configuration_is_fixed cs w0 t m :
  max_entries (session self cs (init t m w0)) = m
  /\ ttl (session self cs (init t m w0)) = t.
Proof.
  destruct (session_invariant cs (init t m w0) t m (init_invariant t m w0))
    as (_ & H). exact H.
Qed.

(** X15. Whatever was done with an instance since its construction,
    [clear] returns normally and leaves the memory tier empty: every key
    the memory tier can hold has a disk path, and no failure to delete a
    file is raised. *)
Theorem clear_never_raises cs w0 t m :
  let w := session self cs (init t m w0) in
  fst (clear self w) = Ok tt
  /\ TTLCache.links (mem (snd (clear self w))) = [].
Proof.
  intros w.
  destruct (session_invariant cs (init t m w0) t m (init_invariant t m w0))
    as (Hk & _).
  fold w in Hk. rewrite (clear_eq self w (keys_namespaced_keys self w Hk)).
  now split.
Qed.

End Sessions.

(* ===================================================================== *)
(** ** The lock *)
(* ===================================================================== *)

Section LockDiscipline.
Context {V : Type} (self : Env V).
Implicit Types (w : World) (k p key : string) (b : bytes).

Lemma lock_run_app t1 : forall h h1 t2,
  lock_run h t1 = Some h1 -> lock_run h (t1 ++ t2) = lock_run h1 t2.
Proof.
  induction t1 as [|ev t1 IH]; intros h h1 t2; cbn [lock_run app].
  - now intros [= ->].
  - destruct ev, h; try discriminate; apply IH.
Qed.

Lemma unlocked_run_refl w : unlocked_run w w.
Proof. exists []. now rewrite app_nil_r. Qed.

Lemma unlocked_run_trans w1 w2 w3 :
  unlocked_run w1 w2 -> unlocked_run w2 w3 -> unlocked_run w1 w3.
Proof.
  intros (t1 & H1 & L1) (t2 & H2 & L2). exists (t1 ++ t2).
  split; [now rewrite H2, H1, app_assoc|].
  now rewrite (lock_run_app t1 false false t2 L1).
Qed.

Lemma unlocked_step w w' t :
  trace w' = trace w ++ t -> lock_run false t = Some false ->
  unlocked_run w w'.
Proof. intros H L. now exists t. Qed.

Lemma unlocked_ensure_dir key w : unlocked_run w (ensure_dir self key w).
Proof.
  eapply unlocked_step; [apply ensure_dir_trace|].
  unfold dir_events. destruct (split_colon key) as [[d f]|]; [|reflexivity].
  cbn zeta. now destruct (_ || _).
Qed.

Lemma unlocked_record w ev :
  lock_run false [ev] = Some false -> unlocked_run w (record ev w).
Proof. intros H. now eapply unlocked_step. Qed.

Lemma unlocked_after_mem_set key c w :
  unlocked_run w (after_mem_set key c w).
Proof. eapply unlocked_step; [apply after_mem_set_trace|reflexivity]. Qed.

Lemma unlocked_after_disk_read key p w :
  unlocked_run w (after_disk_read self key p w).
Proof.
  eapply unlocked_run_trans; [apply unlocked_ensure_dir|].
  now apply unlocked_record.
Qed.

Lemma unlocked_after_failed_write key p f w :
  unlocked_run w (after_failed_write self key p f w).
Proof.
  eapply unlocked_run_trans; [apply (unlocked_ensure_dir key)|].
  unfold after_failed_write.
  destruct (wf_left f); now eapply unlocked_step.
Qed.

Lemma after_cleanup_trace p w :
  trace (after_cleanup self p w)
  = trace w ++ [EvLog Debug; EvDiskRemove p].
Proof.
  unfold after_cleanup, after_remove. cbn [trace set_files record].
  now rewrite <- app_assoc.
Qed.

Lemma unlocked__write_to_disk_cache key p b w :
  key_path self key = Some p ->
  unlocked_run w (snd (_write_to_disk_cache self key b w)).
Proof.
  intros Hp. rewrite (_write_to_disk_cache_eq self key p b w Hp).
  destruct (write_fault self p) as [f|].
  - cbn zeta.
    assert (Hc : unlocked_run w (after_cleanup self p
                                   (after_failed_write self key p f w))).
    { eapply unlocked_run_trans; [apply unlocked_after_failed_write|].
      eapply unlocked_step; [apply after_cleanup_trace|reflexivity]. }
    destruct (wf_exn f); cbn [snd];
      first [exact Hc | apply unlocked_after_failed_write].
  - cbn [snd]. eapply unlocked_run_trans; [apply (unlocked_ensure_dir key)|].
    now eapply unlocked_step.
Qed.

Lemma unlocked__write_value key p v w :
  key_path self key = Some p ->
  unlocked_run w (snd (_write_value self key v w)).
Proof.
  intros Hp. rewrite _write_value_eq.
  destruct (pickle_dumps self v) as [b|e].
  2:{ destruct e; apply unlocked_run_refl. }
  cbn zeta. destruct (fst _); [apply unlocked_after_mem_set|].
  destruct (persist_is_disk self); [|apply unlocked_after_mem_set].
  cbn [snd]. eapply unlocked_run_trans;
    [|eapply unlocked__write_to_disk_cache, Hp].
  apply unlocked_after_mem_set.
Qed.

(** X16. [read_value] keeps the lock discipline on every path: the
    memory tier is looked up and written only while the lock is held, the
    disk and the Source are used only while it is not held, and the lock
    is free when the read ends, however it ends. *)
Theorem read_keeps_lock_discipline w k :
  exists t,
    trace (snd (read_value self k w)) = trace w ++ t
    /\ lock_run false t = Some false.
Proof.
  change (unlocked_run w (snd (read_value self k w))).
  destruct (namespaced_has_path self k) as [p Hp].
  rewrite read_value_eq. cbn [snd].
  set (nk := namespaced self k) in *.
  rewrite (read_pickled_eq self nk p w Hp).
  assert (Hmiss : unlocked_run w (after_mem_miss nk w)).
  { eapply unlocked_step; [apply after_mem_miss_trace|reflexivity]. }
  destruct (TTLCache.lookup _ _ _).
  { cbn [snd]. eapply unlocked_step; [apply after_mem_hit_trace|reflexivity]. }
  cbn zeta. destruct (persist_is_disk self); [|exact Hmiss].
  assert (Hd : unlocked_run w (after_disk_read self nk p
                                 (after_mem_miss nk w))).
  { eapply unlocked_run_trans; [exact Hmiss|apply unlocked_after_disk_read]. }
  assert (Hev : forall ev, lock_run false [ev] = Some false ->
            unlocked_run w (record ev (after_disk_read self nk p
                                         (after_mem_miss nk w)))).
  { intros ev Hok. eapply unlocked_run_trans; [exact Hd|].
    now apply unlocked_record. }
  destruct (disk_peek self p w) as [b|e].
  - cbn [snd]. eapply unlocked_run_trans; [now apply (Hev (EvLog Debug))|].
    apply unlocked_after_mem_set.
  - destruct e; try (cbn [snd]; now apply Hev).
    destruct (query self nk); [|cbn [snd]; now apply Hev].
    eapply unlocked_run_trans;
      [now apply (Hev (EvQuery nk)) | eapply unlocked__write_value, Hp].
Qed.

End LockDiscipline.

(* ===================================================================== *)
(** ** [S3QueryCache] *)
(* ===================================================================== *)

(** X17. [s3_query = S3QueryCache()]: a table is fetched from the Source
    once per key. The first read of a key that is in neither tier asks
    the Source, under the key ["S3Query:{k}"], and returns its table;
    every later read, however long after, returns the table from the
    memory tier, which neither expires nor evicts. *)
Theorem s3_table_is_fetched_once
    {V : Type} (df : V) (os : Env V) (w0 : World) (k p : string)
    (b : bytes) (dts : list Z) :
  let self := S3QueryCache df os in
  let w := init None None w0 in
  let r := read_value self k w in
  let rr := reread self k dts (snd r) in
  key_path self (namespaced self k) = Some p ->
  files w0 !! p = None ->
  write_fault os p = None ->
  pickle_dumps os df = Returns b ->
  pickle_loads os b = Returns df ->
  Forall (fun dt => 0 <= dt) dts ->
  fst r = Ok df
  /\ Forall (fun r' => r' = Ok df) (fst rr)
  /\ length (fst rr) = length dts
  /\ query_calls (trace (snd rr))
     = query_calls (trace w0) ++ ["S3Query" +:+ String ":"%char k].
Proof.
  intros self w r rr Hp Hf Hw Hd Hl Hpos. subst rr r.
  assert (Ha : TTLCache.admits (mem w) = true) by reflexivity.
  destruct (TTLCacheFacts.setitem_admits (mem w) (now w)
              (namespaced self k) b Ha) as (c & Hs & _ & _ & Hc).
  assert (Hpeek : disk_peek self p w = Throws FileNotFoundError).
  { unfold disk_peek. subst w. cbn [init files set_mem]. now rewrite Hf. }
  rewrite (read_value_source self w k p df b c Hp eq_refl eq_refl Hpeek
             eq_refl Hd Hs Hw).
  cbn [fst snd].
  assert (Hu : unpickle self (namespaced self k) b = Ok df).
  { unfold unpickle. cbn [pickle_loads self S3QueryCache]. now rewrite Hl. }
  split; [exact Hu|].
  rewrite <- Hu.
  destruct (reread_hits self k b None dts
              (after_write self (namespaced self k) p b
                 (after_mem_set (namespaced self k) c
                    (record (EvQuery (namespaced self k))
                       (after_disk_read self (namespaced self k) p
                          (after_mem_miss (namespaced self k) w))))))
    as (H1 & H2 & _ & H4 & _).
  - world_simpl. exact Hc.
  - exact Hpos.
  - exact I.
  - split; [exact H1|]. split; [exact H2|].
    rewrite H4. now world_simpl.
Qed.

(* ===================================================================== *)
(** ** More cases *)
(* ===================================================================== *)

Section MoreCases.
Import Example.

(** The file of another key of the same cache. *)
Lemma read_changes_no_other_file_witness :
  files (snd (read_value s3_query "foo" empty_world))
    !! "/app/cache/S3Query/bar.memo"
  = files empty_world !! "/app/cache/S3Query/bar.memo".
Proof.
  apply (read_changes_no_other_file s3_query empty_world "foo" foo_path
           "/app/cache/S3Query/bar.memo").
  - reflexivity.
  - discriminate.
Defined.

(** ["foo"] is cached; ["bar"] is read. *)
Lemma read_changes_no_other_binding_witness :
  TTLCache.lookup (mem cached_world) (now cached_world) "S3Query:foo"
  = Some seven.
Proof.
  apply (read_changes_no_other_binding s3_query cached_world "bar"
           "S3Query:foo" seven).
  - repeat constructor. intros [].
  - discriminate.
  - reflexivity.
Defined.

Lemma source_asked_only_on_full_miss_witness :
  query_calls (trace (snd (read_value s3_query "foo" empty_world)))
  = query_calls (trace empty_world)
      ++ match TTLCache.lookup (mem empty_world) (now empty_world)
                 (namespaced s3_query "foo"),
               persist_is_disk s3_query,
               disk_peek s3_query foo_path empty_world with
         | None, true, Throws FileNotFoundError => [namespaced s3_query "foo"]
         | _, _, _ => []
         end.
Proof.
  apply (source_asked_only_on_full_miss s3_query empty_world "foo" foo_path).
  reflexivity.
Defined.

(** A Source that fails. *)
Lemma source_failure_is_not_cached_witness :
  let self := with_query (fun _ => Throws (OtherError "ClientError"))
                s3_query in
  let r := read_value self "foo" empty_world in
  fst r = Raise (PyExn (OtherError "ClientError"))
  /\ mem (snd r) = mem empty_world
  /\ files (snd r) = files empty_world.
Proof.
  apply (source_failure_is_not_cached
           (with_query (fun _ => Throws (OtherError "ClientError")) s3_query)
           empty_world "foo" foo_path (OtherError "ClientError"));
    reflexivity.
Defined.

(** A Source that answers a function. *)
Lemma unpicklable_value_is_not_cached_witness :
  let self := with_query (fun _ => Returns PyLambda) s3_query in
  let r := read_value self "foo" empty_world in
  fst r = Raise (CacheError ("Failed to pickle " +:+ namespaced self "foo"))
  /\ mem (snd r) = mem empty_world
  /\ files (snd r) = files empty_world
  /\ query_calls (trace (snd r))
     = query_calls (trace empty_world) ++ [namespaced self "foo"].
Proof.
  apply (unpicklable_value_is_not_cached
           (with_query (fun _ => Returns PyLambda) s3_query)
           empty_world "foo" foo_path PyLambda PicklingError);
    reflexivity.
Defined.

Lemma read_again_is_served_from_memory_witness :
  let r1 := read_value s3_query "foo" bounded_world in
  let r2 := read_value s3_query "foo" (advance 5 (snd r1)) in
  fst r2 = Ok (PyInt x07)
  /\ query_calls (trace (snd r2)) = query_calls (trace (snd r1))
  /\ disk_ops (trace (snd r2)) = disk_ops (trace (snd r1))
  /\ files (snd r2) = files (snd r1).
Proof.
  apply (read_again_is_served_from_memory s3_query bounded_world "foo"
           (PyInt x07) 5).
  - reflexivity.
  - reflexivity.
  - lia.
  - cbn. lia.
Defined.

Lemma expired_entry_is_served_from_disk_witness :
  let r1 := read_value s3_query "foo" bounded_world in
  let r2 := read_value s3_query "foo" (advance 12 (snd r1)) in
  fst r2 = Ok (PyInt x07)
  /\ query_calls (trace (snd r2)) = query_calls (trace (snd r1))
  /\ files (snd r2) = files (snd r1).
Proof.
  apply (expired_entry_is_served_from_disk s3_query bounded_world "foo"
           foo_path (PyInt x07) 10 12).
  - reflexivity.
  - reflexivity.
  - reflexivity.
  - reflexivity.
  - reflexivity.
  - lia.
Defined.

(** [MemoCache(max_entries=0)]. *)
Lemma zero_capacity_cache_returns_nothing_witness :
  fst (read_value s3_query "foo" (init None (Some 0%nat) empty_world))
  <> Ok (PyInt x07).
Proof.
  apply (zero_capacity_cache_returns_nothing s3_query
           (init None (Some 0%nat) empty_world) "foo" (PyInt x07));
    reflexivity.
Defined.


Lemma disk_write_then_read_witness :
  let r1 := _write_to_disk_cache s3_query "S3Query:foo" seven empty_world in
  fst r1 = Ok tt
  /\ fst (_read_from_disk_cache s3_query "S3Query:foo" (snd r1)) = Ok seven.
Proof.
  apply (disk_write_then_read s3_query empty_world "S3Query:foo" foo_path
           seven); reflexivity.
Defined.

Lemma memory_write_then_read_witness :
  let w1 := snd (_write_to_mem_cache "S3Query:foo" [x00] bounded_world) in
  let r2 := _write_to_mem_cache "S3Query:foo" seven w1 in
  fst r2 = Ok tt
  /\ fst (_read_from_mem_cache "S3Query:foo" (advance 5 (snd r2)))
     = Ok seven.
Proof.
  apply (memory_write_then_read bounded_world "S3Query:foo" [x00] seven 5).
  - reflexivity.
  - lia.
  - cbn. lia.
Defined.

(** ["foo"] is cached; the file of ["bar"] is not the cache's to
    remove. *)
Lemma clear_leaves_untracked_files_witness :
  files (snd (clear s3_query cached_world)) !! "/app/cache/S3Query/bar.memo"
  = files cached_world !! "/app/cache/S3Query/bar.memo".
Proof.
  apply (clear_leaves_untracked_files s3_query cached_world
           "/app/cache/S3Query/bar.memo").
  - repeat constructor. now exists foo_path.
  - intros k [<-|[]]. discriminate.
Defined.

Lemma clear_then_read_asks_source_again_witness :
  let nk := namespaced s3_query "foo" in
  let w1 := snd (clear s3_query cached_world) in
  TTLCache.lookup (mem w1) (now w1) nk = None
  /\ files w1 !! foo_path = None
  /\ query_calls (trace (snd (read_value s3_query "foo" w1)))
     = query_calls (trace w1) ++ [nk].
Proof.
  apply (clear_then_read_asks_source_again s3_query cached_world "foo"
           foo_path seven).
  - repeat constructor. now exists foo_path.
  - reflexivity.
  - reflexivity.
  - reflexivity.
  - reflexivity.
Defined.

(** [s3_query.read_value("foo")], then again 5 and 100 seconds later. *)
Lemma s3_table_is_fetched_once_witness :
  let self := S3QueryCache (PyInt x07) s3_query in
  let w := init None None empty_world in
  let r := read_value self "foo" w in
  let rr := reread self "foo" [5; 100] (snd r) in
  fst r = Ok (PyInt x07)
  /\ Forall (fun r' => r' = Ok (PyInt x07)) (fst rr)
  /\ length (fst rr) = length [5; 100]
  /\ query_calls (trace (snd rr))
     = query_calls (trace empty_world)
         ++ ["S3Query" +:+ String ":"%char "foo"].
Proof.
  apply (s3_table_is_fetched_once (PyInt x07) s3_query empty_world "foo"
           foo_path seven [5; 100]).
  - reflexivity.
  - reflexivity.
  - reflexivity.
  - reflexivity.
  - reflexivity.
  - repeat constructor; lia.
Defined.

End MoreCases.

(* ===================================================================== *)
(** ** Pages and the navigation bar *)
(* ===================================================================== *)

Module MultipageFacts.
Import Multipage.
Local Open Scope page_scope.

(** *** The rows of buttons *)

Section Grouping.
Context {A : Type}.
Implicit Types (app : A) (apps g : list A) (app_list full : list (list A)).

Lemma append_to_last_snoc app full g :
  append_to_last app (full ++ [g]) = Some (full ++ [g ++ [app]]).
Proof.
  induction full as [|h full IH]; [reflexivity|].
  cbn [List.app append_to_last].
  destruct (full ++ [g]) as [|a l] eqn:E.
  { destruct full; discriminate. }
  rewrite IH. reflexivity.
Qed.

Lemma append_to_last_nil app : append_to_last app [] = None.
Proof. reflexivity. Qed.

(** [i % size == 0] after [k] full rows and [r] more apps. *)
Lemma row_is_full (size : Z) (n k r : nat) :
  size <> 0 -> Z.of_nat n = Z.abs size -> (1 <= r <= n)%nat ->
  (Z.of_nat (n * k + r) mod size =? 0) = (r =? n)%nat.
Proof.
  intros Hs Hn Hr.
  destruct (Nat.eqb_spec r n) as [->|Hne].
  - apply Z.eqb_eq. apply Z.mod_divide; [exact Hs|].
    apply Z.divide_abs_l. rewrite <- Hn.
    exists (Z.of_nat (k + 1)). lia.
  - apply Z.eqb_neq. intros H.
    apply Z.mod_divide in H; [|exact Hs].
    apply Z.divide_abs_l in H. rewrite <- Hn in H.
    destruct H as [q Hq].
    assert (Hq' : Z.of_nat r = (q - Z.of_nat k) * Z.of_nat n) by lia.
    assert (q - Z.of_nat k <= 0 \/ 1 <= q - Z.of_nat k) as [Hle|Hge] by lia.
    + nia.
    + nia.
Qed.

(** The loop, entered with [k] full rows and a last row of [r] apps. *)
Lemma group_apps_from (size : Z) (n : nat) :
  size <> 0 -> Z.of_nat n = Z.abs size ->
  forall apps full g,
    Forall (fun x => length x = n) full ->
    (1 <= length g <= n)%nat ->
    exists full' g',
      group_apps size (Z.of_nat (n * length full + length g)) apps
                 (full ++ [g]) = Done (full' ++ [g'])
      /\ concat (full' ++ [g']) = concat (full ++ [g]) ++ apps
      /\ Forall (fun x => length x = n) full'
      /\ (1 <= length g' <= n)%nat.
Proof.
  intros Hs Hn apps.
  induction apps as [|app rest IH]; intros full g Hfull Hg.
  - exists full, g. cbn [group_apps]. rewrite app_nil_r. auto.
  - cbn [group_apps].
    destruct (Z.eqb_spec size 0) as [->|_]; [congruence|].
    rewrite (row_is_full size n (length full) (length g) Hs Hn Hg).
    destruct (Nat.eqb_spec (length g) n) as [Hfullrow|Hpartial].
    + (* the last row is full: a new row is opened *)
      rewrite (append_to_last_snoc app (full ++ [g]) []).
      cbn [List.app].
      destruct (IH (full ++ [g]) [app]) as (full' & g' & E & Hc & Hf & Hl).
      { apply Forall_app. split; [exact Hfull|]. constructor; auto. }
      { cbn. lia. }
      exists full', g'.
      replace (Z.of_nat (n * length full + length g) + 1)
        with (Z.of_nat (n * length (full ++ [g]) + length [app])).
      2:{ rewrite length_app. cbn [length]. lia. }
      rewrite E. repeat split; auto; try lia.
      rewrite Hc. rewrite !concat_app. cbn [concat].
      rewrite !app_nil_r. rewrite <- !app_assoc. reflexivity.
    + rewrite (append_to_last_snoc app full g).
      destruct (IH full (g ++ [app])) as (full' & g' & E & Hc & Hf & Hl).
      { exact Hfull. }
      { rewrite length_app. cbn [length]. lia. }
      exists full', g'.
      replace (Z.of_nat (n * length full + length g) + 1)
        with (Z.of_nat (n * length full + length (g ++ [app]))).
      2:{ rewrite length_app. cbn [length]. lia. }
      rewrite E. repeat split; auto; try lia.
      rewrite Hc. rewrite !concat_app. cbn [concat].
      rewrite !app_nil_r. rewrite <- !app_assoc. reflexivity.
Qed.

(** The loop from its start. *)
Lemma group_apps_rows (size : Z) apps :
  size <> 0 ->
  exists app_list,
    group_apps size 0 apps [] = Done app_list
    /\ concat app_list = apps
    /\ Forall (fun g => (1 <= length g <= Z.abs_nat size)%nat) app_list
    /\ (forall i g, (S i < length app_list)%nat ->
                    nth_error app_list i = Some g ->
                    length g = Z.abs_nat size).
Proof.
  intros Hs.
  destruct apps as [|app rest].
  { exists []. cbn. repeat split; auto.
    intros i g Hi. cbn in Hi. lia. }
  cbn [group_apps].
  destruct (Z.eqb_spec size 0) as [->|_]; [congruence|].
  rewrite Z.mod_0_l by exact Hs. cbn [Z.eqb List.app append_to_last].
  assert (Hn : Z.of_nat (Z.abs_nat size) = Z.abs size)
    by apply Zabs2Nat.id_abs.
  destruct (group_apps_from size (Z.abs_nat size) Hs Hn rest [] [app])
    as (full' & g' & E & Hc & Hf & Hl).
  { constructor. }
  { cbn. lia. }
  cbn [length List.app] in E.
  replace (Z.of_nat (Z.abs_nat size * 0 + 1)) with (0 + 1) in E by lia.
  exists (full' ++ [g']). rewrite E. repeat split.
  - rewrite Hc. cbn. reflexivity.
  - apply Forall_app. split.
    + eapply List.Forall_impl; [|exact Hf]. cbn. intros x Hx. rewrite Hx. lia.
    + constructor; [exact Hl|constructor].
  - intros i g Hi Hg.
    rewrite length_app in Hi. cbn [length] in Hi.
    rewrite nth_error_app1 in Hg by lia.
    rewrite List.Forall_forall in Hf. apply Hf.
    eapply nth_error_In. exact Hg.
Qed.

(** X18. With a button size other than zero, the loop of [_render_navbar]
    that puts the apps in rows never fails; the rows, one after the
    other, are the apps in their order; no row is empty or longer than
    the size (in absolute value), and every row but the last is full. *)
Theorem navbar_rows_partition_the_apps (size : Z) apps :
  size <> 0 ->
  exists app_list,
    group_apps size 0 apps [] = Done app_list
    /\ concat app_list = apps
    /\ Forall (fun g => (1 <= length g <= Z.abs_nat size)%nat) app_list
    /\ (forall i g, (S i < length app_list)%nat ->
                    nth_error app_list i = Some g ->
                    length g = Z.abs_nat size).
Proof. exact (group_apps_rows size apps). Qed.

End Grouping.

(** *** The steps of [_render_navbar] *)

Section Navbar.
Context (browser : Browser).
Implicit Types (self : MultiApp) (p : Process) (apps : list App).

Lemma last_clicked_app apps1 apps2 cur :
  last_clicked browser (apps1 ++ apps2) cur
  = last_clicked browser apps2 (last_clicked browser apps1 cur).
Proof. unfold last_clicked. apply fold_left_app. Qed.

Lemma last_clicked_none apps cur :
  (forall app, List.In app apps -> button browser (name app) = false) ->
  last_clicked browser apps cur = cur.
Proof.
  revert cur. induction apps as [|a apps IH]; intros cur H; [reflexivity|].
  unfold last_clicked. cbn [fold_left].
  rewrite (H a) by (left; reflexivity).
  apply IH. intros b Hb. apply H. right. exact Hb.
Qed.

Lemma last_clicked_last apps1 app apps2 cur :
  button browser (name app) = true ->
  (forall b, List.In b apps2 -> button browser (name b) = false) ->
  last_clicked browser (apps1 ++ app :: apps2) cur = app.
Proof.
  intros Hc Hn. rewrite last_clicked_app.
  unfold last_clicked at 1. cbn [fold_left]. rewrite Hc.
  apply last_clicked_none. exact Hn.
Qed.

(** The buttons of one row. *)
Lemma buttons_eq (group : list App) :
  forall nn st sz ex cur m d,
    for_each group
      (fun app =>
         do _ <- lift (perform (Button (name app))) in
         if button browser (name app) then set_current_app app else ret tt)
      (mkMultiApp nn st sz ex cur, mkProcess m d)
    = (Done tt,
       (mkMultiApp nn st sz ex (last_clicked browser group cur),
        mkProcess m (d ++ List.map (fun a => Button (name a)) group))).
Proof.
  induction group as [|a group IH]; intros nn st sz ex cur m d.
  { cbn. rewrite app_nil_r. reflexivity. }
  cbn [for_each]. unfold bind at 1. unfold bind at 1.
  unfold lift at 1. cbn [snd fst perform sys_modules done].
  unfold last_clicked. cbn [fold_left List.map].
  destruct (button browser (name a)).
  - unfold set_current_app at 1.
    cbn [fst snd navbar_name navbar_style horizontal_max_button_size
         navbar_extra].
    rewrite IH. unfold last_clicked. rewrite <- app_assoc. reflexivity.
  - unfold ret at 1. rewrite IH. unfold last_clicked.
    rewrite <- app_assoc. reflexivity.
Qed.

Lemma render_row_eq (group : list App) nn st sz ex cur m d :
  render_row browser group (mkMultiApp nn st sz ex cur, mkProcess m d)
  = (Done tt,
     (mkMultiApp nn st sz ex (last_clicked browser group cur),
      mkProcess m (d ++ Columns (length group)
                     :: List.map (fun a => Button (name a)) group))).
Proof.
  unfold render_row. unfold bind at 1. unfold lift at 1.
  cbn [snd fst perform sys_modules done].
  rewrite buttons_eq. rewrite <- app_assoc. reflexivity.
Qed.

Lemma rows_eq (app_list : list (list App)) :
  forall nn st sz ex cur m d,
    for_each app_list (render_row browser)
             (mkMultiApp nn st sz ex cur, mkProcess m d)
    = (Done tt,
       (mkMultiApp nn st sz ex (last_clicked browser (concat app_list) cur),
        mkProcess m
          (d ++ concat
                  (List.map
                     (fun g => Columns (length g)
                                 :: List.map (fun a => Button (name a)) g)
                     app_list)))).
Proof.
  induction app_list as [|g rest IH]; intros nn st sz ex cur m d.
  { cbn. rewrite app_nil_r. reflexivity. }
  cbn [for_each]. unfold bind at 1. rewrite render_row_eq.
  rewrite IH. cbn [concat List.map]. rewrite last_clicked_app.
  rewrite <- app_assoc. reflexivity.
Qed.

Lemma navbar_heading_eq nn st sz ex cur m d :
  navbar_heading (mkMultiApp nn st sz ex cur, mkProcess m d)
  = (Done tt,
     (mkMultiApp nn st sz ex cur,
      mkProcess m (d ++ [Markdown nn;
                         Text (String (ascii_of_nat 10) EmptyString)]))).
Proof.
  unfold navbar_heading, bind, get_self, lift, perform.
  cbn [fst snd navbar_name sys_modules done].
  rewrite <- app_assoc. reflexivity.
Qed.

Lemma navbar_check_style_valid nn st sz ex cur p :
  existsb (String.eqb st) possible_styles = true ->
  navbar_check_style (mkMultiApp nn st sz ex cur, p)
  = (Done tt, (mkMultiApp nn st sz ex cur, p)).
Proof.
  intros H. unfold navbar_check_style, bind, get_self.
  cbn [fst snd navbar_style]. rewrite H. reflexivity.
Qed.

Lemma navbar_check_style_invalid nn st sz ex cur m d :
  existsb (String.eqb st) possible_styles = false ->
  navbar_check_style (mkMultiApp nn st sz ex cur, mkProcess m d)
  = (Done tt,
     (mkMultiApp nn "HorizontalButton" sz ex cur,
      mkProcess m (d ++ [Warning "Invalid Navbar Style - Using Button"]))).
Proof.
  intros H. unfold navbar_check_style, bind, get_self.
  cbn [fst snd navbar_style]. rewrite H. reflexivity.
Qed.

Lemma style_is_possible (st : string) :
  existsb (String.eqb st) possible_styles
  = (String.eqb st "Button" || String.eqb st "SelectBox").
Proof. cbn. rewrite orb_false_r. reflexivity. Qed.

(** The end of [_render_navbar] leaves the object as it finds it. *)
Lemma navbar_finish_self self p :
  fst (snd (navbar_finish (self, p))) = self.
Proof.
  unfold navbar_finish, bind, get_self, _change_page, lift, ret, perform.
  cbn [fst snd].
  destruct (navbar_extra self) as [extra|].
  - cbn [fst snd]. destruct (extra p) as [[[]|e] p1]; cbn [fst snd];
      [|reflexivity].
    destruct (func (current_app self) (name (current_app self)) _);
      reflexivity.
  - cbn [fst snd].
    destruct (func (current_app self) (name (current_app self)) _);
      reflexivity.
Qed.

Lemma navbar_finish_eq self p :
  navbar_extra self = None ->
  navbar_finish (self, p)
  = (fst (func (current_app self) (name (current_app self))
               (mkProcess (sys_modules p) (done p ++ [Write "---"]))),
     (self,
      snd (func (current_app self) (name (current_app self))
                (mkProcess (sys_modules p) (done p ++ [Write "---"]))))).
Proof.
  intros H.
  unfold navbar_finish, bind, get_self, _change_page, lift, ret, perform.
  cbn [fst snd]. rewrite H. cbn [fst snd].
  destruct (func (current_app self) (name (current_app self)) _);
    reflexivity.
Qed.

(** [run] keeps what [navbar_choose] left of the object. *)
Lemma run_self apps s :
  fst (snd (run browser apps s)) = fst (snd (navbar_choose browser apps s)).
Proof.
  unfold run, _render_navbar. unfold bind at 1.
  destruct (navbar_choose browser apps s) as [[[]|e] [self p]];
    [|reflexivity].
  cbn [fst snd]. apply navbar_finish_self.
Qed.

Lemma run_fails apps s e :
  fst (navbar_choose browser apps s) = Fails e ->
  run browser apps s = navbar_choose browser apps s.
Proof.
  unfold run, _render_navbar. unfold bind at 1.
  destruct (navbar_choose browser apps s) as [[[]|e'] s']; cbn [fst].
  - discriminate.
  - reflexivity.
Qed.

(** [navbar_choose] with the style ["Button"]. *)
Lemma navbar_choose_buttons apps nn sz ex cur m d :
  navbar_choose browser apps (mkMultiApp nn "Button" sz ex cur, mkProcess m d)
  = navbar_buttons browser apps
      (mkMultiApp nn "Button" sz ex cur,
       mkProcess m (d ++ [Markdown nn;
                          Text (String (ascii_of_nat 10) EmptyString)])).
Proof.
  unfold navbar_choose. unfold bind at 1. rewrite navbar_heading_eq.
  unfold bind at 1. rewrite navbar_check_style_valid by reflexivity.
  unfold bind at 1. unfold get_self at 1. cbn [fst navbar_style].
  reflexivity.
Qed.

(** [navbar_choose] with another style: the select box, after a warning
    when the style is not ["SelectBox"] either. *)
Lemma navbar_choose_selectbox apps nn st sz ex cur m d :
  String.eqb st "Button" = false ->
  navbar_choose browser apps (mkMultiApp nn st sz ex cur, mkProcess m d)
  = navbar_selectbox browser apps
      (mkMultiApp nn (if String.eqb st "SelectBox" then st
                      else "HorizontalButton") sz ex cur,
       mkProcess m
         (d ++ [Markdown nn; Text (String (ascii_of_nat 10) EmptyString)]
            ++ (if String.eqb st "SelectBox" then []
                else [Warning "Invalid Navbar Style - Using Button"]))).
Proof.
  intros Hb.
  unfold navbar_choose. unfold bind at 1. rewrite navbar_heading_eq.
  unfold bind at 1.
  destruct (String.eqb st "SelectBox") eqn:Hs.
  - rewrite navbar_check_style_valid
      by (rewrite style_is_possible, Hb, Hs; reflexivity).
    unfold bind at 1. unfold get_self at 1. cbn [fst navbar_style].
    rewrite Hb. rewrite app_nil_r. reflexivity.
  - rewrite navbar_check_style_invalid
      by (rewrite style_is_possible, Hb, Hs; reflexivity).
    unfold bind at 1. unfold get_self at 1. cbn [fst navbar_style].
    cbn [String.eqb Ascii.eqb Bool.eqb]. rewrite <- app_assoc. reflexivity.
Qed.

Lemma navbar_selectbox_eq apps nn st sz ex cur m d :
  navbar_selectbox browser apps (mkMultiApp nn st sz ex cur, mkProcess m d)
  = match List.filter
            (fun app =>
               match selectbox browser (List.map name apps) with
               | Some n => String.eqb (name app) n
               | None => false
               end) apps with
    | app :: _ =>
        (Done tt,
         (mkMultiApp nn st sz ex app,
          mkProcess m (d ++ [Selectbox EmptyString (List.map name apps)])))
    | [] =>
        (Fails IndexError,
         (mkMultiApp nn st sz ex cur,
          mkProcess m (d ++ [Selectbox EmptyString (List.map name apps)])))
    end.
Proof.
  unfold navbar_selectbox. unfold bind at 1. unfold lift at 1.
  cbn [fst snd perform sys_modules done].
  destruct (List.filter _ apps); reflexivity.
Qed.

Lemma filter_first_match (f : App -> bool) apps1 app apps2 :
  f app = true ->
  (forall b, List.In b apps1 -> f b = false) ->
  List.filter f (apps1 ++ app :: apps2) = app :: List.filter f apps2.
Proof.
  intros Ha Hn. induction apps1 as [|b apps1 IH]; cbn.
  - rewrite Ha. reflexivity.
  - rewrite (Hn b) by (left; reflexivity).
    apply IH. intros c Hc. apply Hn. right. exact Hc.
Qed.


(** X19. With the style ["Button"], a button size of zero and at least
    one app, [run] raises [ZeroDivisionError] right after the heading:
    no button is drawn, no page is run and the object is unchanged. *)
Theorem zero_button_size_raises self p apps :
  navbar_style self = "Button" ->
  horizontal_max_button_size self = 0 ->
  apps <> [] ->
  run browser apps (self, p)
  = (Fails ZeroDivisionError,
     (self,
      mkProcess (sys_modules p)
                (done p ++ [Markdown (navbar_name self);
                            Text (String (ascii_of_nat 10) EmptyString)]))).
Proof.
  destruct self as [nn st sz ex cur], p as [m d]. cbn.
  intros -> -> Happs.
  assert (E : navbar_choose browser apps
                (mkMultiApp nn "Button" 0 ex cur, mkProcess m d)
              = (Fails ZeroDivisionError,
                 (mkMultiApp nn "Button" 0 ex cur,
                  mkProcess m
                    (d ++ [Markdown nn;
                           Text (String (ascii_of_nat 10) EmptyString)])))).
  { rewrite navbar_choose_buttons.
    unfold navbar_buttons, bind, get_self.
    cbn [fst snd horizontal_max_button_size].
    destruct apps as [|a rest]; [congruence|]. reflexivity. }
  rewrite (run_fails apps _ ZeroDivisionError); rewrite E; reflexivity.
Qed.

(** X20. A style that is neither ["Button"] nor ["SelectBox"] is
    replaced by ["HorizontalButton"] after the warning "Invalid Navbar
    Style - Using Button", and what is drawn next is the select box, not
    the buttons. *)
Theorem invalid_style_uses_the_select_box self p apps :
  navbar_style self <> "Button" ->
  navbar_style self <> "SelectBox" ->
  let s' := snd (navbar_choose browser apps (self, p)) in
  navbar_style (fst s') = "HorizontalButton"
  /\ done (snd s')
     = done p ++ [Markdown (navbar_name self);
                  Text (String (ascii_of_nat 10) EmptyString);
                  Warning "Invalid Navbar Style - Using Button";
                  Selectbox EmptyString (List.map name apps)].
Proof.
  destruct self as [nn st sz ex cur], p as [m d]. cbn [navbar_style].
  intros Hb Hs. cbn zeta.
  apply String.eqb_neq in Hb. apply String.eqb_neq in Hs.
  rewrite (navbar_choose_selectbox apps nn st sz ex cur m d Hb).
  rewrite Hs. rewrite navbar_selectbox_eq.
  destruct (List.filter _ apps);
    cbn [fst snd navbar_style navbar_name done];
    (split; [reflexivity|]); rewrite <- !app_assoc; reflexivity.
Qed.

(** X21. With the style ["Button"] and a button size other than zero,
    the heading is followed by the rows and nothing else: one
    [columns] call for each row, of as many columns as the row has
    apps (at least one, at most the size), then one button for each of
    its apps; the rows together are the apps in their order. *)
Theorem button_rows_are_drawn self p apps :
  navbar_style self = "Button" ->
  horizontal_max_button_size self <> 0 ->
  exists app_list,
    concat app_list = apps
    /\ Forall (fun g => (1 <= length g
                         <= Z.abs_nat (horizontal_max_button_size self))%nat)
              app_list
    /\ fst (navbar_choose browser apps (self, p)) = Done tt
    /\ done (snd (snd (navbar_choose browser apps (self, p))))
       = done p
         ++ [Markdown (navbar_name self);
             Text (String (ascii_of_nat 10) EmptyString)]
         ++ concat
              (List.map
                 (fun g => Columns (length g)
                             :: List.map (fun a => Button (name a)) g)
                 app_list).
Proof.
  destruct self as [nn st sz ex cur], p as [m d].
  cbn [navbar_style horizontal_max_button_size navbar_name done].
  intros -> Hsz.
  destruct (group_apps_rows sz apps Hsz)
    as (app_list & E & Hc & Hf & _).
  exists app_list. split; [exact Hc|]. split; [exact Hf|].
  rewrite navbar_choose_buttons.
  unfold navbar_buttons. unfold bind at 1. unfold bind at 1.
  unfold get_self at 1. unfold get_self at 1.
  cbn [fst snd horizontal_max_button_size]. rewrite E.
  rewrite rows_eq. cbn [fst snd done].
  split; [reflexivity|]. rewrite <- !app_assoc. reflexivity.
Qed.

(** X22. With the style ["Button"] (button size other than zero), the
    current app after [run] is the last of the apps, in their order,
    whose button was clicked in this run, whatever the extra and the
    page then do. *)
Theorem last_click_wins self p apps1 app apps2 :
  navbar_style self = "Button" ->
  horizontal_max_button_size self <> 0 ->
  button browser (name app) = true ->
  (forall b, List.In b apps2 -> button browser (name b) = false) ->
  current_app (fst (snd (run browser (apps1 ++ app :: apps2) (self, p))))
  = app.
Proof.
  destruct self as [nn st sz ex cur], p as [m d].
  cbn [navbar_style horizontal_max_button_size].
  intros -> Hsz Hc Hn.
  rewrite run_self. rewrite navbar_choose_buttons.
  destruct (group_apps_rows sz (apps1 ++ app :: apps2) Hsz)
    as (app_list & E & Hcat & _).
  unfold navbar_buttons. unfold bind at 1. unfold get_self at 1.
  cbn [fst snd horizontal_max_button_size]. rewrite E.
  rewrite rows_eq. cbn [fst snd current_app]. rewrite Hcat.
  apply last_clicked_last; assumption.
Qed.

(** X23. With the style ["Button"] (button size other than zero), a run
    in which no button of an app is clicked leaves the [MultiApp] object
    as it was: the page shown is the one of the run before. *)
Theorem no_click_keeps_the_page self p apps :
  navbar_style self = "Button" ->
  horizontal_max_button_size self <> 0 ->
  (forall b, List.In b apps -> button browser (name b) = false) ->
  fst (snd (run browser apps (self, p))) = self.
Proof.
  destruct self as [nn st sz ex cur], p as [m d].
  cbn [navbar_style horizontal_max_button_size].
  intros -> Hsz Hn.
  rewrite run_self. rewrite navbar_choose_buttons.
  destruct (group_apps_rows sz apps Hsz)
    as (app_list & E & Hcat & _).
  unfold navbar_buttons. unfold bind at 1. unfold get_self at 1.
  cbn [fst snd horizontal_max_button_size]. rewrite E.
  rewrite rows_eq. cbn [fst snd]. rewrite Hcat.
  rewrite last_clicked_none by exact Hn. reflexivity.
Qed.

(** X24. With a style other than ["Button"], the current app after [run]
    is the first app, in the order of [apps], whose name is the option
    the select box holds, whichever app was current before. *)
Theorem select_box_picks_first_match self p apps1 app apps2 :
  navbar_style self <> "Button" ->
  selectbox browser (List.map name (apps1 ++ app :: apps2))
  = Some (name app) ->
  (forall b, List.In b apps1 -> name b <> name app) ->
  current_app (fst (snd (run browser (apps1 ++ app :: apps2) (self, p))))
  = app.
Proof.
  destruct self as [nn st sz ex cur], p as [m d]. cbn [navbar_style].
  intros Hb Hsel Hn.
  apply String.eqb_neq in Hb.
  rewrite run_self.
  rewrite (navbar_choose_selectbox _ nn st sz ex cur m d Hb).
  rewrite navbar_selectbox_eq. rewrite Hsel.
  rewrite filter_first_match.
  - reflexivity.
  - apply String.eqb_refl.
  - intros b Hin. apply String.eqb_neq. apply Hn. exact Hin.
Qed.


End Navbar.

(** *** Pages *)

Section PageFacts.
Context (browser : Browser).
Implicit Types (self : MultiApp) (p : Process) (apps : list App).

Lemma import_page_fresh n m d :
  page_exists browser (module_of n) = true ->
  module_of n ∉ m ->
  import_page browser n (mkProcess m d)
  = (Done tt,
     mkProcess ({[module_of n]} ∪ m) (d ++ [Import (module_of n)])).
Proof.
  intros He Hm. unfold import_page. cbn [sys_modules done].
  rewrite bool_decide_eq_false_2 by exact Hm. cbn [negb].
  rewrite He. reflexivity.
Qed.

Lemma import_page_loaded n m d :
  page_exists browser (module_of n) = true ->
  module_of n ∈ m ->
  import_page browser n (mkProcess m d)
  = (Done tt, mkProcess m (d ++ [Reload (module_of n)])).
Proof.
  intros He Hm. unfold import_page. cbn [sys_modules done].
  rewrite bool_decide_eq_true_2 by exact Hm. cbn [negb].
  rewrite He. reflexivity.
Qed.

Lemma import_page_missing n p :
  page_exists browser (module_of n) = false ->
  import_page browser n p = (Fails (ModuleNotFoundError (module_of n)), p).
Proof.
  intros He. unfold import_page. rewrite He.
  destruct (negb _); reflexivity.
Qed.

(** X26. Whatever the process held before, once [import_page] has been
    called for a page that exists, its module is among the loaded ones,
    and a second call does not import it again: it reloads it and
    loads nothing new. A first call on a module not yet loaded is an
    import. *)
Theorem page_is_imported_once n p :
  page_exists browser (module_of n) = true ->
  let p1 := snd (import_page browser n p) in
  let r2 := import_page browser n p1 in
  module_of n ∈ sys_modules p1
  /\ (module_of n ∉ sys_modules p ->
      done p1 = done p ++ [Import (module_of n)])
  /\ fst r2 = Done tt
  /\ sys_modules (snd r2) = sys_modules p1
  /\ done (snd r2) = done p1 ++ [Reload (module_of n)].
Proof.
  intros He. destruct p as [m d]. cbn zeta.
  destruct (decide (module_of n ∈ m)) as [Hin|Hout].
  - rewrite (import_page_loaded n m d He Hin). cbn [snd].
    rewrite (import_page_loaded n m _ He Hin).
    cbn [fst snd sys_modules done]. repeat split; auto.
    intros H. contradiction.
  - rewrite (import_page_fresh n m d He Hout). cbn [snd].
    assert (Hin : module_of n ∈ ({[module_of n]} ∪ m : gset string))
      by set_solver.
    rewrite (import_page_loaded n _ _ He Hin).
    cbn [fst snd sys_modules done]. repeat split; auto.
Qed.

(** [run] with the style ["SelectBox"], no extra, and a select box that
    holds the name of an app. *)
Lemma run_selectbox apps nn sz cur m d app rest :
  List.filter
    (fun a =>
       match selectbox browser (List.map name apps) with
       | Some n => String.eqb (name a) n
       | None => false
       end) apps = app :: rest ->
  run browser apps (mkMultiApp nn "SelectBox" sz None cur, mkProcess m d)
  = (fst (func app (name app)
               (mkProcess m
                  (d ++ [Markdown nn;
                         Text (String (ascii_of_nat 10) EmptyString);
                         Selectbox EmptyString (List.map name apps);
                         Write "---"]))),
     (mkMultiApp nn "SelectBox" sz None app,
      snd (func app (name app)
                (mkProcess m
                   (d ++ [Markdown nn;
                          Text (String (ascii_of_nat 10) EmptyString);
                          Selectbox EmptyString (List.map name apps);
                          Write "---"]))))).
Proof.
  intros Hf. unfold run, _render_navbar. unfold bind at 1.
  rewrite (navbar_choose_selectbox browser apps nn "SelectBox" sz None cur
             m d eq_refl).
  cbn [String.eqb Ascii.eqb Bool.eqb].
  rewrite navbar_selectbox_eq. rewrite Hf.
  rewrite navbar_finish_eq by reflexivity.
  cbn [current_app sys_modules done].
  rewrite <- !app_assoc. reflexivity.
Qed.

(** X27. With the style ["SelectBox"] and no extra, selecting an app
    whose module is not to be found makes [run] raise
    [ModuleNotFoundError] only after the whole navigation bar is drawn
    and the app has become the current one. *)
Theorem missing_page_is_left_selected self p apps1 app apps2 :
  navbar_style self = "SelectBox" ->
  navbar_extra self = None ->
  func app = import_page browser ->
  selectbox browser (List.map name (apps1 ++ app :: apps2))
  = Some (name app) ->
  (forall b, List.In b apps1 -> name b <> name app) ->
  page_exists browser (module_of (name app)) = false ->
  run browser (apps1 ++ app :: apps2) (self, p)
  = (Fails (ModuleNotFoundError (module_of (name app))),
     (mkMultiApp (navbar_name self) "SelectBox"
                 (horizontal_max_button_size self) None app,
      mkProcess (sys_modules p)
        (done p ++ [Markdown (navbar_name self);
                    Text (String (ascii_of_nat 10) EmptyString);
                    Selectbox EmptyString
                              (List.map name (apps1 ++ app :: apps2));
                    Write "---"]))).
Proof.
  destruct self as [nn st sz ex cur], p as [m d].
  cbn [navbar_style navbar_extra navbar_name horizontal_max_button_size
       sys_modules done].
  intros -> -> Hfunc Hsel Hn He.
  rewrite (run_selectbox _ nn sz cur m d app
             (List.filter
                (fun a => String.eqb (name a) (name app)) apps2)).
  2:{ rewrite Hsel. apply filter_first_match.
      - apply String.eqb_refl.
      - intros b Hin. apply String.eqb_neq. apply Hn. exact Hin. }
  rewrite Hfunc. rewrite import_page_missing by exact He. reflexivity.
Qed.

(** The names of the apps. *)
Lemma substring_append (a b : string) :
  String.substring 0 (String.length a) (a +:+ b) = a.
Proof.
  induction a as [|c a IH].
  - rewrite append_nil. destruct b; reflexivity.
  - rewrite append_cons. cbn [String.length String.substring].
    rewrite IH. reflexivity.
Qed.

Lemma drop_last3_append (n ext : string) :
  String.length ext = 3%nat -> drop_last3 (n +:+ ext) = n.
Proof.
  intros H. unfold drop_last3. rewrite length_append, H.
  replace (String.length n + 3 - 3)%nat with (String.length n) by lia.
  apply substring_append.
Qed.

Lemma prefix_empty (s : string) : String.prefix EmptyString s = true.
Proof. destruct s; reflexivity. Qed.

Lemma dunder_py (n : string) :
  String.prefix "__" (n +:+ ".py") = String.prefix "__" n.
Proof.
  destruct n as [|a [|b n]].
  - reflexivity.
  - rewrite append_cons, append_nil. cbn [String.prefix].
    destruct (ascii_dec "_" a); reflexivity.
  - rewrite !append_cons. cbn [String.prefix].
    destruct (ascii_dec "_" a); [|reflexivity].
    destruct (ascii_dec "_" b); [|reflexivity].
    rewrite !prefix_empty. reflexivity.
Qed.

(** X28. A listing of [PAGE_DIR] made of files [n.py], none of them
    starting with two underscores, gives one app for each file, in the
    order of the listing, named [n] and run by [import_page]; an entry
    that starts with two underscores, wherever it stands in the
    listing, gives no app. *)
Theorem apps_of_the_page_files (names : list string) :
  Forall (fun n => String.prefix "__" n = false) names ->
  apps browser (List.map (fun n => n +:+ ".py") names)
  = List.map (fun n => mkApp n (import_page browser)) names
  /\ (forall listing1 entry listing2,
        String.prefix "__" entry = true ->
        apps browser (listing1 ++ entry :: listing2)
        = apps browser (listing1 ++ listing2)).
Proof.
  intros Hn. split.
  - induction Hn as [|n names Hd _ IH]; [reflexivity|].
    unfold apps, application_detection in *. cbn [List.map List.filter].
    rewrite dunder_py, Hd. cbn [negb List.map].
    rewrite drop_last3_append by reflexivity.
    rewrite IH. reflexivity.
  - intros l1 e l2 He. unfold apps, application_detection.
    rewrite !List.filter_app. cbn [List.filter]. rewrite He.
    reflexivity.
Qed.

Lemma first_match (f : App -> bool) apps :
  (exists a, List.In a apps /\ f a = true) ->
  exists app rest,
    List.filter f apps = app :: rest /\ List.In app apps /\ f app = true.
Proof.
  intros (a & Hin & Ha).
  assert (Hf : List.In a (List.filter f apps))
    by (apply List.filter_In; auto).
  destruct (List.filter f apps) as [|app rest] eqn:E; [destruct Hf|].
  exists app, rest. split; [reflexivity|].
  assert (H : List.In app (List.filter f apps))
    by (rewrite E; left; reflexivity).
  apply List.filter_In in H. exact H.
Qed.

Lemma apps_func listing app :
  List.In app (apps browser listing) -> func app = import_page browser.
Proof.
  unfold apps. intros H. apply List.in_map_iff in H.
  destruct H as (e & <- & _). reflexivity.
Qed.

(** X29. The module's own [multi_app], with [NAVBAR_STYLE] unset: in a
    process that has not loaded the page yet, the first run in which
    the select box holds the name of a page that exists draws the
    heading, the select box and the rule, then imports that page; the
    next run with the same selection draws them again and reloads the
    page. Neither run fails. *)
Theorem selected_page_is_imported_then_reloaded listing n p :
  let pages := apps browser listing in
  let navbar := [Markdown "Navigation";
                 Text (String (ascii_of_nat 10) EmptyString);
                 Selectbox EmptyString (List.map name pages);
                 Write "---"] in
  selectbox browser (List.map name pages) = Some n ->
  List.In n (List.map name pages) ->
  page_exists browser (module_of n) = true ->
  module_of n ∉ sys_modules p ->
  exists self,
    multi_app None pages = Done self
    /\ let r1 := run browser pages (self, p) in
       let r2 := run browser pages (snd r1) in
       fst r1 = Done tt
       /\ done (snd (snd r1)) = done p ++ navbar ++ [Import (module_of n)]
       /\ fst r2 = Done tt
       /\ done (snd (snd r2))
          = done (snd (snd r1)) ++ navbar ++ [Reload (module_of n)]
       /\ name (current_app (fst (snd r2))) = n.
Proof.
  intros pages navbar Hsel Hin He Hfresh.
  assert (Hne : exists first others, pages = first :: others).
  { destruct pages as [|first others]; [destruct Hin|eauto]. }
  destruct Hne as (first & others & Epages).
  exists (mkMultiApp "Navigation" "SelectBox" 2 None first).
  split; [rewrite Epages; reflexivity|].
  destruct p as [m d]. cbn [sys_modules done] in *.
  destruct (first_match
              (fun a =>
                 match selectbox browser (List.map name pages) with
                 | Some n => String.eqb (name a) n
                 | None => false
                 end) pages) as (app & rest & Hf & Happ & Hname).
  { apply List.in_map_iff in Hin. destruct Hin as (a & Ha & Hin).
    exists a. split; [exact Hin|]. rewrite Hsel.
    apply String.eqb_eq. exact Ha. }
  rewrite Hsel in Hname. apply String.eqb_eq in Hname.
  assert (Hfunc : func app = import_page browser).
  { apply (apps_func listing). exact Happ. }
  cbn zeta.
  rewrite (run_selectbox pages _ _ _ m d app rest Hf).
  rewrite Hfunc, Hname.
  rewrite (import_page_fresh n m _ He Hfresh).
  cbn [fst snd done].
  rewrite (run_selectbox pages _ _ _ _ _ app rest Hf).
  rewrite Hfunc, Hname.
  assert (Hloaded : module_of n ∈ ({[module_of n]} ∪ m : gset string))
    by set_solver.
  rewrite (import_page_loaded n _ _ He Hloaded).
  cbn [fst snd done current_app].
  subst navbar. repeat split; auto.
  - rewrite <- !app_assoc. reflexivity.
  - rewrite <- !app_assoc. reflexivity.
Qed.

End PageFacts.

(** *** Cases *)

Section PageCases.

Lemma navbar_rows_partition_the_apps_witness :
  exists app_list,
    group_apps 2 0 ["home"; "about"; "data"] [] = Done app_list
    /\ concat app_list = ["home"; "about"; "data"]
    /\ Forall (fun g => (1 <= length g <= Z.abs_nat 2)%nat) app_list
    /\ (forall i g, (S i < length app_list)%nat ->
                    nth_error app_list i = Some g ->
                    length g = Z.abs_nat 2).
Proof.
  apply (navbar_rows_partition_the_apps 2 ["home"; "about"; "data"]).
  lia.
Defined.

Lemma zero_button_size_raises_witness :
  let browser := a_browser [] None ["pages.home"] in
  let pages := [mkApp "home" (import_page browser)] in
  let self :=
    mkMultiApp "Navigation" "Button" 0 None
               (mkApp "home" (import_page browser)) in
  run browser pages (self, new_process)
  = (Fails ZeroDivisionError,
     (self,
      mkProcess (sys_modules new_process)
        (done new_process
           ++ [Markdown "Navigation";
               Text (String (ascii_of_nat 10) EmptyString)]))).
Proof.
  intros browser pages self.
  apply (zero_button_size_raises browser self new_process pages).
  - reflexivity.
  - reflexivity.
  - discriminate.
Defined.

Lemma invalid_style_uses_the_select_box_witness :
  let browser := a_browser [] (Some "home") ["pages.home"] in
  let pages := apps browser ["home.py"; "about.py"] in
  let self :=
    mkMultiApp "Navigation" "HorizontalButton" 2 None
               (mkApp "home" (import_page browser)) in
  let s' := snd (navbar_choose browser pages (self, new_process)) in
  navbar_style (fst s') = "HorizontalButton"
  /\ done (snd s')
     = done new_process
         ++ [Markdown "Navigation";
             Text (String (ascii_of_nat 10) EmptyString);
             Warning "Invalid Navbar Style - Using Button";
             Selectbox EmptyString (List.map name pages)].
Proof.
  intros browser pages self.
  apply (invalid_style_uses_the_select_box browser self new_process pages).
  - vm_compute. discriminate.
  - vm_compute. discriminate.
Defined.

Lemma button_rows_are_drawn_witness :
  let browser := a_browser [] None [] in
  let pages := apps browser ["home.py"; "about.py"; "data.py"] in
  let self :=
    mkMultiApp "Navigation" "Button" 2 None
               (mkApp "home" (import_page browser)) in
  exists app_list,
    concat app_list = pages
    /\ Forall (fun g => (1 <= length g <= Z.abs_nat 2)%nat) app_list
    /\ fst (navbar_choose browser pages (self, new_process)) = Done tt
    /\ done (snd (snd (navbar_choose browser pages (self, new_process))))
       = done new_process
         ++ [Markdown "Navigation";
             Text (String (ascii_of_nat 10) EmptyString)]
         ++ concat
              (List.map
                 (fun g => Columns (length g)
                             :: List.map (fun a => Button (name a)) g)
                 app_list).
Proof.
  intros browser pages self.
  apply (button_rows_are_drawn browser self new_process pages).
  - reflexivity.
  - vm_compute. discriminate.
Defined.

Lemma last_click_wins_witness :
  let browser := a_browser ["about"] None ["pages.about"] in
  let home := mkApp "home" (import_page browser) in
  let about := mkApp "about" (import_page browser) in
  let data := mkApp "data" (import_page browser) in
  let self := mkMultiApp "Navigation" "Button" 2 None home in
  current_app
    (fst (snd (run browser ([home] ++ about :: [data]) (self, new_process))))
  = about.
Proof.
  intros browser home about data self.
  apply (last_click_wins browser self new_process [home] about [data]).
  - reflexivity.
  - vm_compute. discriminate.
  - reflexivity.
  - intros b [<-|[]]. reflexivity.
Defined.

Lemma no_click_keeps_the_page_witness :
  let browser := a_browser [] None ["pages.about"] in
  let home := mkApp "home" (import_page browser) in
  let about := mkApp "about" (import_page browser) in
  let self := mkMultiApp "Navigation" "Button" 2 None about in
  fst (snd (run browser [home; about] (self, new_process))) = self.
Proof.
  intros browser home about self.
  apply (no_click_keeps_the_page browser self new_process [home; about]).
  - reflexivity.
  - vm_compute. discriminate.
  - intros b [<-|[<-|[]]]; reflexivity.
Defined.

Lemma select_box_picks_first_match_witness :
  let browser := a_browser [] (Some "about") ["pages.about"] in
  let home := mkApp "home" (import_page browser) in
  let about := mkApp "about" (import_page browser) in
  let self := mkMultiApp "Navigation" "SelectBox" 2 None home in
  current_app
    (fst (snd (run browser ([home] ++ about :: []) (self, new_process))))
  = about.
Proof.
  intros browser home about self.
  apply (select_box_picks_first_match browser self new_process
           [home] about []).
  - vm_compute. discriminate.
  - reflexivity.
  - intros b [<-|[]]. vm_compute. discriminate.
Defined.


Lemma page_is_imported_once_witness :
  let browser := a_browser [] None ["pages.home"] in
  let p1 := snd (import_page browser "home" new_process) in
  let r2 := import_page browser "home" p1 in
  module_of "home" ∈ sys_modules p1
  /\ (module_of "home" ∉ sys_modules new_process ->
      done p1 = done new_process ++ [Import (module_of "home")])
  /\ fst r2 = Done tt
  /\ sys_modules (snd r2) = sys_modules p1
  /\ done (snd r2) = done p1 ++ [Reload (module_of "home")].
Proof.
  intros browser.
  apply (page_is_imported_once browser "home" new_process).
  reflexivity.
Defined.

Lemma missing_page_is_left_selected_witness :
  let browser := a_browser [] (Some "about") ["pages.home"] in
  let home := mkApp "home" (import_page browser) in
  let about := mkApp "about" (import_page browser) in
  let self := mkMultiApp "Navigation" "SelectBox" 2 None home in
  run browser ([home] ++ about :: []) (self, new_process)
  = (Fails (ModuleNotFoundError (module_of (name about))),
     (mkMultiApp (navbar_name self) "SelectBox"
                 (horizontal_max_button_size self) None about,
      mkProcess (sys_modules new_process)
        (done new_process
           ++ [Markdown (navbar_name self);
               Text (String (ascii_of_nat 10) EmptyString);
               Selectbox EmptyString
                         (List.map name ([home] ++ about :: []));
               Write "---"]))).
Proof.
  intros browser home about self.
  apply (missing_page_is_left_selected browser self new_process
           [home] about []).
  - reflexivity.
  - reflexivity.
  - reflexivity.
  - reflexivity.
  - intros b [<-|[]]. vm_compute. discriminate.
  - reflexivity.
Defined.

Lemma apps_of_the_page_files_witness :
  let browser := a_browser [] None [] in
  apps browser (List.map (fun n => n +:+ ".py") ["home"; "about"])
  = List.map (fun n => mkApp n (import_page browser)) ["home"; "about"]
  /\ (forall listing1 entry listing2,
        String.prefix "__" entry = true ->
        apps browser (listing1 ++ entry :: listing2)
        = apps browser (listing1 ++ listing2)).
Proof.
  intros browser.
  apply (apps_of_the_page_files browser ["home"; "about"]).
  repeat constructor.
Defined.

Lemma selected_page_is_imported_then_reloaded_witness :
  let browser := a_browser [] (Some "about") ["pages.home"; "pages.about"] in
  let pages := apps browser ["__pycache__"; "home.py"; "about.py"] in
  let navbar := [Markdown "Navigation";
                 Text (String (ascii_of_nat 10) EmptyString);
                 Selectbox EmptyString (List.map name pages);
                 Write "---"] in
  exists self,
    multi_app None pages = Done self
    /\ let r1 := run browser pages (self, new_process) in
       let r2 := run browser pages (snd r1) in
       fst r1 = Done tt
       /\ done (snd (snd r1))
          = done new_process ++ navbar ++ [Import (module_of "about")]
       /\ fst r2 = Done tt
       /\ done (snd (snd r2))
          = done (snd (snd r1)) ++ navbar ++ [Reload (module_of "about")]
       /\ name (current_app (fst (snd r2))) = "about".
Proof.
  intros browser pages navbar.
  apply (selected_page_is_imported_then_reloaded
           browser ["__pycache__"; "home.py"; "about.py"] "about"
           new_process).
  - reflexivity.
  - vm_compute. right. left. reflexivity.
  - reflexivity.
  - vm_compute. set_solver.
Defined.

End PageCases.

End MultipageFacts.
